(** * Translation of LLVM functions to Crab control-flow graphs

    A shallow embedding of [lib/CrabLlvm/CfgBuilder.cc]: the condition,
    phi and instruction visitors and the per-function CFG builder, together
    with the properties of the translation that are stated about them. *)

From Stdlib Require Import ZArith String List Lia Bool.
From stdpp Require Import base option list gmap strings.

Local Open Scope string_scope.
Local Open Scope list_scope.
Local Open Scope Z_scope.

(** ** The input IR *)

Module IR.

(** SSA names and basic-block names. *)
Abbreviation ident := string (only parsing).
Abbreviation bbid := string (only parsing).

Inductive type :=
| IntegerTy (bits : N)
| PointerTy
| VoidTy
| FloatTy
| OtherTy.

Definition isIntegerTy (t : type) : bool :=
  match t with IntegerTy _ => true | _ => false end.
Definition isIntegerTy1 (t : type) : bool :=
  match t with IntegerTy 1 => true | _ => false end.
Definition isPointerTy (t : type) : bool :=
  match t with PointerTy => true | _ => false end.
Definition isVoidTy (t : type) : bool :=
  match t with VoidTy => true | _ => false end.

(** An operand.  As in the textual IR every reference carries the type of
    the value it names. *)
Inductive value :=
| ConstantInt (bits : N) (n : Z)
| OtherConstant (t : type)          (* undef, null, constant expressions, ... *)
| Argument (x : ident) (t : type)
| Inst (x : ident) (t : type).

Definition getType (v : value) : type :=
  match v with
  | ConstantInt b _ => IntegerTy b
  | OtherConstant t => t
  | Argument _ t => t
  | Inst _ t => t
  end.

Inductive predicate :=
| ICMP_EQ | ICMP_NE
| ICMP_UGT | ICMP_UGE | ICMP_ULT | ICMP_ULE
| ICMP_SGT | ICMP_SGE | ICMP_SLT | ICMP_SLE
| FCMP (code : N).

Inductive binop :=
| Add | Sub | Mul | UDiv | SDiv | URem | SRem
| Shl | LShr | AShr | And | Or | Xor
| FloatOp.

Inductive castop := ZExt | SExt | OtherCast.

(** What the translator asks about a called function. *)
Record callee := Callee {
  fn_name : string;
  fn_isDeclaration : bool;
  fn_isIntrinsic : bool;
  fn_isVarArg : bool }.

(** The type a GEP index steps through, with what the data layout says
    about it: the field offsets of a struct, the store size of the element
    of a sequential type. *)
Inductive gep_step :=
| StructStep (fieldOffsets : list Z)
| SequentialStep (elementStoreSize : Z)
| OtherStep.

(** Non-terminator instructions. *)
Inductive instruction :=
| CmpInst (p : predicate) (op0 op1 : value)
| BinaryOperator (op : binop) (ty : type) (op0 op1 : value)
| CastInst (op : castop) (ty : type) (src : value)
| SelectInst (ty : type) (cond tv fv : value)
| PHINode (ty : type) (incoming : list (bbid * value))
| CallInst (ty : type) (called : option callee) (args : list value)
| LoadInst (ty : type) (ptr : value)
| StoreInst (val ptr : value)
| AllocaInst
| GetElementPtrInst (ptr : value) (idx : list (value * gep_step))
| OtherInst (ty : type) (ops : list value).

Inductive terminator :=
| ReturnInst (v : option value)
| BranchInst (dst : bbid)                        (* unconditional *)
| CondBranchInst (c : value) (t f : bbid)        (* getSuccessor 0 / 1 *)
| OtherTerminator (ops : list value) (dsts : list bbid).

Definition inst_type (i : instruction) : type :=
  match i with
  | CmpInst _ _ _ => IntegerTy 1
  | BinaryOperator _ t _ _ => t
  | CastInst _ t _ => t
  | SelectInst t _ _ _ => t
  | PHINode t _ => t
  | CallInst t _ _ => t
  | LoadInst t _ => t
  | StoreInst _ _ => VoidTy
  | AllocaInst => PointerTy
  | GetElementPtrInst _ _ => PointerTy
  | OtherInst t _ => t
  end.

Definition operands (i : instruction) : list value :=
  match i with
  | CmpInst _ a b => [a; b]
  | BinaryOperator _ _ a b => [a; b]
  | CastInst _ _ v => [v]
  | SelectInst _ c a b => [c; a; b]
  | PHINode _ inc => map snd inc
  | CallInst _ _ args => args
  | LoadInst _ p => [p]
  | StoreInst v p => [v; p]
  | AllocaInst => []
  | GetElementPtrInst p idx => p :: map fst idx
  | OtherInst _ ops => ops
  end.

Definition term_operands (t : terminator) : list value :=
  match t with
  | ReturnInst (Some v) => [v]
  | ReturnInst None => []
  | BranchInst _ => []
  | CondBranchInst c _ _ => [c]
  | OtherTerminator ops _ => ops
  end.

Definition successors (t : terminator) : list bbid :=
  match t with
  | ReturnInst _ => []
  | BranchInst d => [d]
  | CondBranchInst _ t f => [t; f]
  | OtherTerminator _ dsts => dsts
  end.

(** A basic block lists the names of its instructions in order; the
    instructions themselves live in the function body, which is the part
    of the IR the translator updates in place. *)
Record basic_block := BasicBlock {
  bb_name : bbid;
  bb_insts : list ident;
  bb_term : terminator }.

Abbreviation body := (gmap string instruction) (only parsing).

Record function := Function {
  f_name : string;
  f_isVarArg : bool;
  f_retTy : type;
  f_args : list value;
  f_blocks : list basic_block }.

#[global] Instance type_eq_dec : EqDecision type.
Proof. solve_decision. Defined.
#[global] Instance value_eq_dec : EqDecision value.
Proof. solve_decision. Defined.
#[global] Instance predicate_eq_dec : EqDecision predicate.
Proof. solve_decision. Defined.
#[global] Instance binop_eq_dec : EqDecision binop.
Proof. solve_decision. Defined.
#[global] Instance castop_eq_dec : EqDecision castop.
Proof. solve_decision. Defined.
#[global] Instance callee_eq_dec : EqDecision callee.
Proof. solve_decision. Defined.
#[global] Instance gep_step_eq_dec : EqDecision gep_step.
Proof. solve_decision. Defined.
#[global] Instance instruction_eq_dec : EqDecision instruction.
Proof. solve_decision. Defined.

(** A user of a value: an instruction (with its name) or a block
    terminator. *)
Inductive user :=
| UInst (x : ident) (i : instruction)
| UTerm (t : terminator).

Definition user_operands (u : user) : list value :=
  match u with
  | UInst _ i => operands i
  | UTerm t => term_operands t
  end.

Definition users_of_block (F : body) (b : basic_block) : list user :=
  omap (fun x => UInst x <$> F !! x) (bb_insts b) ++ [UTerm (bb_term b)].

Definition refers_to (x : ident) (o : value) : bool :=
  match o with
  | Inst y _ | Argument y _ => bool_decide (y = x)
  | _ => false
  end.

(** [V->uses ()] for the value named [x]: one entry per operand slot that
    holds it. *)
Definition uses (F : body) (blocks : list basic_block) (x : ident) : list user :=
  u ← concat (map (users_of_block F) blocks);
  _ ← filter (fun o => refers_to x o = true) (user_operands u);
  [u].

Definition hasNUsesOrMore (F : body) (blocks : list basic_block) (x : ident) (n : nat) : bool :=
  bool_decide (n <= length (uses F blocks x))%nat.

(** Unsigned and signed reading of a [w]-bit pattern. *)
Definition unsigned (w : N) (x : Z) : Z := x mod 2 ^ Z.of_N w.
Definition signed (w : N) (x : Z) : Z :=
  let u := unsigned w x in
  if u <? 2 ^ (Z.of_N w - 1) then u else u - 2 ^ Z.of_N w.

(** The truth value of an integer compare on [w]-bit operands. *)
Definition icmp (w : N) (p : predicate) (x y : Z) : option bool :=
  match p with
  | ICMP_EQ => Some (unsigned w x =? unsigned w y)
  | ICMP_NE => Some (negb (unsigned w x =? unsigned w y))
  | ICMP_UGT => Some (unsigned w y <? unsigned w x)
  | ICMP_UGE => Some (unsigned w y <=? unsigned w x)
  | ICMP_ULT => Some (unsigned w x <? unsigned w y)
  | ICMP_ULE => Some (unsigned w x <=? unsigned w y)
  | ICMP_SGT => Some (signed w y <? signed w x)
  | ICMP_SGE => Some (signed w y <=? signed w x)
  | ICMP_SLT => Some (signed w x <? signed w y)
  | ICMP_SLE => Some (signed w x <=? signed w y)
  | FCMP _ => None
  end.

(** LLVM's [CmpInst::getSwappedPredicate] and [CmpInst::swapOperands]:
    the operands are exchanged and the predicate is replaced by the one
    that keeps the meaning of the compare. *)
Definition getSwappedPredicate (p : predicate) : predicate :=
  match p with
  | ICMP_EQ => ICMP_EQ | ICMP_NE => ICMP_NE
  | ICMP_UGT => ICMP_ULT | ICMP_ULT => ICMP_UGT
  | ICMP_UGE => ICMP_ULE | ICMP_ULE => ICMP_UGE
  | ICMP_SGT => ICMP_SLT | ICMP_SLT => ICMP_SGT
  | ICMP_SGE => ICMP_SLE | ICMP_SLE => ICMP_SGE
  | FCMP c => FCMP c     (* float compares are never swapped by the translator *)
  end.

Definition swapOperands (i : instruction) : instruction :=
  match i with
  | CmpInst p a b => CmpInst (getSwappedPredicate p) b a
  | _ => i
  end.

End IR.
Export IR.

(** ** The Crab statement language *)

Module Crab.

(** Modelled from the spec: the variable factory ([VariableFactory],
    declared outside [CfgBuilder.cc]) maps IR values, array identifiers and
    functions to symbolic names and issues fresh names from an increasing
    counter; names of different kinds never coincide. *)
Inductive varname :=
| name_for_value (x : ident)
| name_for_constant (c : value)
| name_for_array (a : Z)
| name_for_function (f : string)
| fresh_name (n : N).

#[global] Instance varname_eq_dec : EqDecision varname.
Proof. solve_decision. Defined.

Inductive VariableType := INT_TYPE | PTR_TYPE | ARR_TYPE | UNK_TYPE.

#[global] Instance VariableType_eq_dec : EqDecision VariableType.
Proof. solve_decision. Defined.

(** Linear expressions [sum k_i * v_i + c], kept as the list of their
    terms; two expressions are the same expression when they evaluate
    alike. *)
Record z_lin_exp := LinExp {
  terms : list (Z * varname);
  constant : Z }.

#[global] Instance z_lin_exp_eq_dec : EqDecision z_lin_exp.
Proof. solve_decision. Defined.

Definition exp_cst (c : Z) : z_lin_exp := LinExp [] c.
Definition exp_var (v : varname) : z_lin_exp := LinExp [(1, v)] 0.
Definition exp_add (e1 e2 : z_lin_exp) : z_lin_exp :=
  LinExp (terms e1 ++ terms e2) (constant e1 + constant e2).
Definition exp_neg (e : z_lin_exp) : z_lin_exp :=
  LinExp (map (fun t => (- fst t, snd t)) (terms e)) (- constant e).
Definition exp_sub (e1 e2 : z_lin_exp) : z_lin_exp := exp_add e1 (exp_neg e2).

Definition is_constant (e : z_lin_exp) : bool :=
  match terms e with [] => true | _ => false end.

(** Modelled from the spec: [isVar], declared with the symbolic evaluator,
    tells whether an expression is a single variable with coefficient 1
    and zero constant. *)
Definition isVar (e : z_lin_exp) : bool :=
  match terms e, constant e with
  | [(1, _)], 0 => true
  | _, _ => false
  end.

(** Linear constraints [e = 0], [e <> 0] and [e <= 0]. *)
Inductive cst_kind := EQUALITY | DISEQUATION | INEQUALITY.

#[global] Instance cst_kind_eq_dec : EqDecision cst_kind.
Proof. solve_decision. Defined.

Record z_lin_cst := LinCst {
  expression : z_lin_exp;
  kind : cst_kind }.

#[global] Instance z_lin_cst_eq_dec : EqDecision z_lin_cst.
Proof. solve_decision. Defined.

Definition cst_eq (e1 e2 : z_lin_exp) : z_lin_cst := LinCst (exp_sub e1 e2) EQUALITY.
Definition cst_ne (e1 e2 : z_lin_exp) : z_lin_cst := LinCst (exp_sub e1 e2) DISEQUATION.
Definition cst_le (e1 e2 : z_lin_exp) : z_lin_cst := LinCst (exp_sub e1 e2) INEQUALITY.
Definition cst_ge (e1 e2 : z_lin_exp) : z_lin_cst := LinCst (exp_sub e2 e1) INEQUALITY.

(** [negate ()]: an equality becomes a disequation and conversely; over the
    integers the negation of [e <= 0] is [1 - e <= 0]. *)
Definition negate (c : z_lin_cst) : z_lin_cst :=
  match kind c with
  | EQUALITY => LinCst (expression c) DISEQUATION
  | DISEQUATION => LinCst (expression c) EQUALITY
  | INEQUALITY => LinCst (exp_add (exp_neg (expression c)) (exp_cst 1)) INEQUALITY
  end.

Definition z_lin_cst_sys := list z_lin_cst.

Inductive arith_op := OP_ADD | OP_SUB | OP_MUL | OP_DIV | OP_UDIV | OP_REM | OP_UREM.
Inductive bitwise_op := OP_AND | OP_OR | OP_XOR.

(** The statements a basic block can hold. *)
Inductive statement :=
| assign (lhs : varname) (rhs : z_lin_exp)
| arith (op : arith_op) (lhs : varname) (op1 op2 : z_lin_exp)
| bitwise (op : bitwise_op) (lhs : varname) (op1 op2 : z_lin_exp)
| havoc (lhs : varname)
| assume (c : z_lin_cst)
| unreachable
| select (lhs : varname) (cond : z_lin_cst) (e1 e2 : z_lin_exp)
| select_var (lhs : varname) (cond : varname) (e1 e2 : z_lin_exp)
| array_load (lhs arr : varname) (idx : z_lin_exp) (size : Z)
| array_store (arr : varname) (idx val : z_lin_exp) (size : Z) (is_singleton : bool)
| assume_array (arr : varname) (val : Z)
| array_init (arr : varname) (vals : list Z)
| callsite (ret : option (varname * VariableType)) (func : varname)
           (actuals : list (varname * VariableType))
| ret (v : varname) (ty : VariableType).

#[global] Instance arith_op_eq_dec : EqDecision arith_op.
Proof. solve_decision. Defined.
#[global] Instance bitwise_op_eq_dec : EqDecision bitwise_op.
Proof. solve_decision. Defined.
#[global] Instance statement_eq_dec : EqDecision statement.
Proof. solve_decision. Defined.

(** *** Meaning of expressions, constraints and of the assignments *)

Definition env := varname -> Z.

Definition eval_terms (rho : env) (ts : list (Z * varname)) : Z :=
  foldr (fun t acc => fst t * rho (snd t) + acc) 0 ts.

Definition eval (rho : env) (e : z_lin_exp) : Z :=
  eval_terms rho (terms e) + constant e.

Definition holds (rho : env) (c : z_lin_cst) : Prop :=
  match kind c with
  | EQUALITY => eval rho (expression c) = 0
  | DISEQUATION => eval rho (expression c) <> 0
  | INEQUALITY => eval rho (expression c) <= 0
  end.

Definition holds_all (rho : env) (cs : z_lin_cst_sys) : Prop :=
  Forall (holds rho) cs.

Definition update (rho : env) (x : varname) (n : Z) : env :=
  fun y => if decide (y = x) then n else rho y.

(** One step of an assignment, a havoc or an assume; the other statements
    are primitives of the abstract domains and get no meaning here. *)
Inductive exec : env -> statement -> env -> Prop :=
| exec_assign rho x e : exec rho (assign x e) (update rho x (eval rho e))
| exec_havoc rho x n : exec rho (havoc x) (update rho x n)
| exec_assume rho c : holds rho c -> exec rho (assume c) rho.

Inductive exec_list : env -> list statement -> env -> Prop :=
| exec_nil rho : exec_list rho [] rho
| exec_cons rho1 rho2 rho3 s l :
    exec rho1 s rho2 -> exec_list rho2 l rho3 -> exec_list rho1 (s :: l) rho3.

End Crab.
Export Crab.

(** ** Symbolic evaluation, memory analysis, options *)

Module Sym.

Inductive TrackedPrecision := NONE | REGISTERS | ARR.

#[global] Instance TrackedPrecision_eq_dec : EqDecision TrackedPrecision.
Proof. solve_decision. Defined.

Definition precision_rank (l : TrackedPrecision) : nat :=
  match l with NONE => 0 | REGISTERS => 1 | ARR => 2 end.

(** The symbolic evaluator every visitor inherits from ([SymEval], declared
    outside [CfgBuilder.cc]).  The visitors only rely on its interface. *)
Class SymEval := {
  isTracked : value -> bool;
  lookup : value -> option z_lin_exp }.

(** Modelled from the spec: [sym_var] is a deterministic mapping from IR
    values to names ([symVar] of the symbolic evaluator, declared outside
    [CfgBuilder.cc]); [symVarArr] is its overloading on array
    identifiers. *)
Definition symVar (v : value) : varname :=
  match v with
  | Argument x _ | Inst x _ => name_for_value x
  | c => name_for_constant c
  end.

Definition symVarArr (a : Z) : varname := name_for_array a.

(** Modelled from the spec: [is_tracked] is true for integer types, for
    pointer types when the track level is at least REGISTERS, and false
    otherwise; [lookup] gives a constant expression for integer constants,
    a variable expression for tracked SSA values and nothing for untracked
    values and for the constants the evaluator refuses. *)
Definition spec_isTracked (lvl : TrackedPrecision) (v : value) : bool :=
  match getType v with
  | IntegerTy _ => true
  | PointerTy => bool_decide (1 <= precision_rank lvl)%nat
  | _ => false
  end.

Definition spec_lookup (lvl : TrackedPrecision) (v : value) : option z_lin_exp :=
  match v with
  | ConstantInt _ n => Some (exp_cst n)
  | OtherConstant _ => None
  | Argument _ _ | Inst _ _ =>
      if spec_isTracked lvl v then Some (exp_var (symVar v)) else None
  end.

Definition spec_SymEval (lvl : TrackedPrecision) : SymEval :=
  {| isTracked := spec_isTracked lvl; lookup := spec_lookup lvl |}.

(** The memory analysis the translator consults ([MemAnalysis], an external
    collaborator): track level, array identifier of a pointer inside a
    function (negative when there is none), singleton cells, and the
    ref/mod/new arrays of a call site or of a function. *)
Record MemAnalysis := {
  getTrackLevel : TrackedPrecision;
  getArrayId : string -> value -> Z;
  getSingleton : Z -> option value;
  getRefModNewArrays : ident -> list Z * list Z * list Z;
  getRefModNewArraysFn : string -> list Z * list Z * list Z }.

(** The command-line options read during the translation. *)
Record options := {
  LlvmCrabNoPtrArith : bool;
  LlvmIncludeHavoc : bool }.

(** The answers of the data layout the translator asks for. *)
Record DataLayout := {
  accumulateConstantOffset : ident -> option Z;
  getTypeAllocSize : type -> Z }.

(** What a visitor works on: the function body (compares are reoriented in
    place), the counter of the variable factory, the statements added so
    far to the block [m_bb] under construction, and whether an assertion
    of the translator has failed. *)
Record state := State {
  ir : body;
  m_vfac : N;
  m_bb : list statement;
  aborted : bool }.

Definition M (A : Type) : Type := state -> A * state.

Definition pure {A} (a : A) : M A := fun s => (a, s).
Definition bind {A B} (m : M A) (k : A -> M B) : M B :=
  fun s => let (a, s') := m s in k a s'.

Definition get_inst (I : ident) : M (option instruction) :=
  fun s => (ir s !! I, s).
Definition get_ir : M body := fun s => (ir s, s).
Definition set_inst (I : ident) (i : instruction) : M unit :=
  fun s => (tt, State (<[I := i]> (ir s)) (m_vfac s) (m_bb s) (aborted s)).
Definition add (st : statement) : M unit :=
  fun s => (tt, State (ir s) (m_vfac s) (m_bb s ++ [st]) (aborted s)).
(** [m_vfac.get ()] *)
Definition vfac_get : M varname :=
  fun s => (fresh_name (m_vfac s),
            State (ir s) (m_vfac s + 1) (m_bb s) (aborted s)).
(** [assert (b)] *)
Definition assert (b : bool) : M unit :=
  fun s => (tt, State (ir s) (m_vfac s) (m_bb s) (aborted s || negb b)).

Fixpoint for_each {A} (l : list A) (k : A -> M unit) : M unit :=
  match l with
  | [] => pure tt
  | a :: l' => bind (k a) (fun _ => for_each l' k)
  end.

Definition when (b : bool) (m : M unit) : M unit :=
  if b then m else pure tt.

End Sym.
Export Sym.

Notation "'do' x <- m ; k" := (bind m (fun x => k))
  (at level 10, x name, m at level 100, k at level 200).

(** ** Helpers of the translation *)

(** [getType] on types, renamed apart from [getType] on values. *)
Definition getVariableType (ty : type) : VariableType :=
  if isIntegerTy ty then INT_TYPE
  else if isPointerTy ty then PTR_TYPE
  else UNK_TYPE.

(** The loop of [AllUsesAreNonTrackMem] over the uses of [V]. *)
Fixpoint AllUsesAreNonTrackMem_loop (us : list user) : bool :=
  match us with
  | [] => true
  | U :: rest =>
      match U with
      | UInst _ (StoreInst val _) =>
          if isIntegerTy (getType val) then false
          else AllUsesAreNonTrackMem_loop rest
      | UInst _ (LoadInst ty _) =>
          if isIntegerTy ty then false
          else AllUsesAreNonTrackMem_loop rest
      | UInst _ (CallInst _ called _) =>
          match called with
          | Some callee =>
              if String.prefix "llvm.dbg" (fn_name callee)
                 || String.prefix "shadow.mem" (fn_name callee)
              then (* continue *) AllUsesAreNonTrackMem_loop rest
              else AllUsesAreNonTrackMem_loop rest
          | None => AllUsesAreNonTrackMem_loop rest
          end
      | _ => false
      end
  end.

(** Return true if all uses of [V] are non-trackable memory accesses. *)
Definition AllUsesAreNonTrackMem (F : body) (blocks : list basic_block)
    (V : ident) : bool :=
  (* strip cast if there is one: [V = CI] where [CI] is [V] itself *)
  let V := match F !! V with Some (CastInst _ _ _) => V | _ => V end in
  AllUsesAreNonTrackMem_loop (uses F blocks V).

(** ** Translation of flag conditions *)

Module SymExecConditionVisitor.
Section visitor.
Context {SE : SymEval} (opts : options) (blocks : list basic_block).
(** [m_is_negated] *)
Variable m_is_negated : bool.

Definition normalizeCmp (i : instruction) : instruction :=
  match i with
  | CmpInst p _ _ =>
      match p with
      | ICMP_UGT | ICMP_SGT => swapOperands i
      | ICMP_UGE | ICMP_SGE => swapOperands i
      | _ => i
      end
  | _ => i
  end.

Definition normalizeCmpInst (I : ident) : M unit :=
  do i <- get_inst I;
  match i with
  | Some i => set_inst I (normalizeCmp i)
  | None => pure tt
  end.

(** The switch of [gen_assertion] on the predicate, once both operands
    have been looked up. *)
Definition gen_assertion_switch (p : predicate) (op1 op2 : z_lin_exp)
    : z_lin_cst_sys :=
  let unsigned_bounds :=
    (if isVar op1 then [cst_ge op1 (exp_cst 0)] else []) ++
    (if isVar op2 then [cst_ge op2 (exp_cst 0)] else []) in
  let lt :=
    if negb m_is_negated then [cst_le op1 (exp_sub op2 (exp_cst 1))]
    else [cst_ge op1 op2] in
  let le :=
    if negb m_is_negated then [cst_le op1 op2]
    else [cst_ge op1 (exp_add op2 (exp_cst 1))] in
  match p with
  | ICMP_EQ =>
      if negb m_is_negated then [cst_eq op1 op2] else [cst_ne op1 op2]
  | ICMP_NE =>
      if negb m_is_negated then [cst_ne op1 op2] else [cst_eq op1 op2]
  | ICMP_ULT => unsigned_bounds ++ lt       (* falls through to SLT *)
  | ICMP_SLT => lt
  | ICMP_ULE => unsigned_bounds ++ le       (* falls through to SLE *)
  | ICMP_SLE => le
  | _ => []
  end.

Definition is_integer_predicate (p : predicate) : bool :=
  match p with FCMP _ => false | _ => true end.

Definition is_unsigned_predicate (p : predicate) : bool :=
  match p with
  | ICMP_UGT | ICMP_UGE | ICMP_ULT | ICMP_ULE => true
  | _ => false
  end.

Definition is_handled_predicate (p : predicate) : bool :=
  match p with
  | ICMP_EQ | ICMP_NE | ICMP_ULT | ICMP_SLT | ICMP_ULE | ICMP_SLE => true
  | _ => false
  end.

Definition gen_assertion (I : ident) : M z_lin_cst_sys :=
  do _ <- normalizeCmpInst I;
  do i <- get_inst I;
  match i with
  | Some (CmpInst p v0 v1) =>
      match lookup v0, lookup v1 with
      | Some op1, Some op2 =>
          do _ <- assert (is_handled_predicate p);   (* default: assert (false) *)
          pure (gen_assertion_switch p op1 op2)
      | _, _ => pure []
      end
  | _ => pure []
  end.

(** [dyn_cast<CmpInst>] of an operand. *)
Definition dyn_cast_CmpInst (F : body) (v : value) : option ident :=
  match v with
  | Inst x _ =>
      match F !! x with
      | Some (CmpInst _ _ _) => Some x
      | _ => None
      end
  | _ => None
  end.

Definition assume_each (csts : z_lin_cst_sys) : M unit :=
  for_each csts (fun cst =>
    if m_is_negated then add (assume (negate cst)) else add (assume cst)).

Definition visitBinaryOperator (I : ident) (op : binop) (ty : type)
    (op0 op1 : value) : M unit :=
  do F <- get_ir;
  let cmp_operands :=
    (if isIntegerTy (getType op0) then dyn_cast_CmpInst F op0 else None,
     if isIntegerTy (getType op1) then dyn_cast_CmpInst F op1 else None) in
  do C <- match op with
          | And => pure (if negb m_is_negated then cmp_operands else (None, None))
          | Or => pure (if m_is_negated then cmp_operands else (None, None))
          | _ =>
              do _ <- when (isTracked (Inst I ty))
                        (when (LlvmIncludeHavoc opts) (add (havoc (name_for_value I))));
              pure (None, None)
          end;
  match C with
  | (Some C1, Some C2) =>
      do csts1 <- gen_assertion C1;
      do _ <- assume_each csts1;
      do csts2 <- gen_assertion C2;
      assume_each csts2
  | _ => pure tt
  end.

Definition visitCmpInst (I : ident) (op0 op1 : value) : M unit :=
  if LlvmCrabNoPtrArith opts
     && (negb (isIntegerTy (getType op0)) || negb (isIntegerTy (getType op1)))
  then pure tt
  else
    do csts <- gen_assertion I;
    do _ <- for_each csts (fun cst => add (assume cst));
    do F <- get_ir;
    if hasNUsesOrMore F blocks I 2 then
      let lhs := name_for_value I in
      if m_is_negated then add (assume (cst_eq (exp_var lhs) (exp_cst 0)))
      else add (assume (cst_eq (exp_var lhs) (exp_cst 1)))
    else pure tt.

(** [InstVisitor::visit]: dispatch on the kind of instruction; the other
    kinds reach the empty default. *)
Definition visit (I : ident) : M unit :=
  do i <- get_inst I;
  match i with
  | Some (CmpInst _ op0 op1) => visitCmpInst I op0 op1
  | Some (BinaryOperator op ty op0 op1) => visitBinaryOperator I op ty op0 op1
  | _ => pure tt
  end.

End visitor.
End SymExecConditionVisitor.

(** ** Translation of PHI nodes *)

Module SymExecPhiVisitor.
Section visitor.
Context {SE : SymEval} (opts : options).
(** [m_inc_BB], the incoming block of the PHI instructions. *)
Variable m_inc_BB : bbid.

(** The PHI nodes a block starts with, each with its name, type and
    incoming values. *)
Fixpoint leading_phis (F : body) (insts : list ident)
    : list (ident * type * list (bbid * value)) :=
  match insts with
  | [] => []
  | x :: rest =>
      match F !! x with
      | Some (PHINode ty inc) => (x, ty, inc) :: leading_phis F rest
      | _ => []
      end
  end.

Definition getIncomingValueForBlock (inc : list (bbid * value)) (b : bbid)
    : option value :=
  snd <$> List.find (fun e => bool_decide (fst e = b)) inc.

(** [dyn_cast<PHINode> (&v)] together with [vv->getParent () == &BB]. *)
Definition is_phi_of (F : body) (BB : basic_block) (v : value) : bool :=
  match v with
  | Inst x _ =>
      match F !! x with
      | Some (PHINode _ _) => bool_decide (x ∈ bb_insts BB)
      | _ => false
      end
  | _ => false
  end.

(** [oldValMap], keyed by the incoming value. *)
Definition oldValMap_t := list (value * z_lin_exp).

Definition oldValMap_find (m : oldValMap_t) (v : value) : option z_lin_exp :=
  snd <$> List.find (fun e => bool_decide (fst e = v)) m.

(** First loop: save the old version of every PHI node that is the
    incoming value of a PHI node of the same block. *)
Fixpoint save_old_values (F : body) (BB : basic_block)
    (phis : list (ident * type * list (bbid * value)))
    (oldValMap : oldValMap_t) : M oldValMap_t :=
  match phis with
  | [] => pure oldValMap
  | (phi, ty, inc) :: rest =>
      match getIncomingValueForBlock inc m_inc_BB with
      | None => save_old_values F BB rest oldValMap
      | Some v =>
          if negb (isTracked v) then save_old_values F BB rest oldValMap
          else if LlvmCrabNoPtrArith opts && negb (isIntegerTy ty)
          then save_old_values F BB rest oldValMap
          else if is_phi_of F BB v then
            match lookup v with
            | Some x =>
                match oldValMap_find oldValMap v with
                | None =>
                    do oldVal <- vfac_get;
                    do _ <- add (assign oldVal x);
                    save_old_values F BB rest
                      (oldValMap ++ [(v, exp_var oldVal)])
                | Some _ => save_old_values F BB rest oldValMap
                end
            | None => save_old_values F BB rest oldValMap
            end
          else save_old_values F BB rest oldValMap
      end
  end.

(** Second loop: one assignment or havoc per tracked PHI node. *)
Fixpoint assign_phis (phis : list (ident * type * list (bbid * value)))
    (oldValMap : oldValMap_t) : M unit :=
  match phis with
  | [] => pure tt
  | (phi, ty, inc) :: rest =>
      if negb (isTracked (Inst phi ty)) then assign_phis rest oldValMap
      else if LlvmCrabNoPtrArith opts && negb (isIntegerTy ty)
      then assign_phis rest oldValMap
      else
        let lhs := name_for_value phi in
        match getIncomingValueForBlock inc m_inc_BB with
        | None => assign_phis rest oldValMap     (* no such predecessor *)
        | Some v =>
            do _ <- match oldValMap_find oldValMap v with
                    | Some old => add (assign lhs old)
                    | None =>
                        match lookup v with
                        | Some op => add (assign lhs op)
                        | None => add (havoc lhs)
                        end
                    end;
            assign_phis rest oldValMap
        end
  end.

Definition visitBasicBlock (BB : basic_block) : M unit :=
  do F <- get_ir;
  let phis := leading_phis F (bb_insts BB) in
  do oldValMap <- save_old_values F BB phis [];
  assign_phis phis oldValMap.

End visitor.
End SymExecPhiVisitor.

(** ** Translation of the rest of the instructions *)

Module SymExecVisitor.
Section visitor.
Context {SE : SymEval} (opts : options) (m_mem : MemAnalysis)
        (m_dl : DataLayout).
(** The function being translated and [m_is_inter_proc]. *)
Variable func : function.
Variable m_is_inter_proc : bool.

Definition havoc_if_included (lhs : varname) : M unit :=
  when (LlvmIncludeHavoc opts) (add (havoc lhs)).

(** [(int) k] for a [z_number]: the conversion needs [k] to fit. *)
Definition fits_int (k : Z) : bool := (- 2 ^ 31 <=? k) && (k <? 2 ^ 31).

(** [unsigned factor = 1; for (i = 0; i < (unsigned) shift; i++) factor *= 2],
    on 32-bit unsigned integers. *)
Fixpoint factor_loop (iterations : nat) (factor : Z) : Z :=
  match iterations with
  | O => factor
  | S n => factor_loop n ((factor * 2) mod 2 ^ 32)
  end.

Definition shift_factor (k : Z) : M Z :=
  do _ <- assert (fits_int k);
  let shift := k in
  do _ <- assert (0 <=? shift);
  pure (factor_loop (Z.to_nat (shift mod 2 ^ 32)) 1).

(** The operations that do not take a constant on the left: assign the
    constant to [lhs] first. *)
Definition arith_const_left (op : arith_op) (lhs : varname)
    (op1 op2 : z_lin_exp) : M unit :=
  if is_constant op1 then
    do _ <- add (assign lhs (exp_cst (constant op1)));
    add (arith op lhs (exp_var lhs) op2)
  else add (arith op lhs op1 op2).

Definition unsigned_arith (op : arith_op) (lhs : varname)
    (op1 op2 : z_lin_exp) : M unit :=
  if is_constant op1 && is_constant op2 then
    (* Warning: ignored, both operands are constant *)
    havoc_if_included lhs
  else arith_const_left op lhs op1 op2.

Definition doArithmetic (lhs : varname) (op : binop) (v1 v2 : value) : M unit :=
  match lookup v1, lookup v2 with
  | Some op1, Some op2 =>
      match op with
      | Add => add (arith OP_ADD lhs op1 op2)
      | Sub => arith_const_left OP_SUB lhs op1 op2
      | Mul => add (arith OP_MUL lhs op1 op2)
      | SDiv => arith_const_left OP_DIV lhs op1 op2
      | UDiv => unsigned_arith OP_UDIV lhs op1 op2
      | SRem => arith_const_left OP_REM lhs op1 op2
      | URem => unsigned_arith OP_UREM lhs op1 op2
      | Shl =>
          if is_constant op2 then
            do factor <- shift_factor (constant op2);
            add (arith OP_MUL lhs op1 (exp_cst factor))
          else havoc_if_included lhs
      | AShr =>
          if is_constant op2 then
            do factor <- shift_factor (constant op2);
            add (arith OP_DIV lhs op1 (exp_cst factor))
          else havoc_if_included lhs
      | _ => havoc_if_included lhs
      end
  | _, _ => pure tt
  end.

Definition doBitwise (lhs : varname) (op : binop) (v1 v2 : value) : M unit :=
  match lookup v1, lookup v2 with
  | Some op1, Some op2 =>
      match op with
      | And => add (bitwise OP_AND lhs op1 op2)
      | Or => add (bitwise OP_OR lhs op1 op2)
      | Xor => add (bitwise OP_XOR lhs op1 op2)
      | _ => havoc_if_included lhs
      end
  | _, _ => pure tt
  end.

Definition visitBinaryOperator (I : ident) (op : binop) (ty : type)
    (op0 op1 : value) : M unit :=
  if negb (isTracked (Inst I ty)) then pure tt
  else
    let lhs := name_for_value I in
    match op with
    | Add | Sub | Mul | SDiv | UDiv | SRem | URem | Shl | AShr =>
        doArithmetic lhs op op0 op1
    | And | Or | Xor => doBitwise lhs op op0 op1
    | _ => havoc_if_included lhs
    end.

Definition doCast (I : ident) (ty : type) (v : value) : M unit :=
  if negb (isTracked (Inst I ty)) then pure tt
  else if LlvmCrabNoPtrArith opts && negb (isIntegerTy ty) then pure tt
  else
    do F <- get_ir;
    if AllUsesAreNonTrackMem F (f_blocks func) I then pure tt
    else
      let dst := name_for_value I in
      match lookup v with
      | Some src => add (assign dst src)
      | None =>
          if isIntegerTy1 (getType v) then
            do _ <- add (assume (cst_ge (exp_var dst) (exp_cst 0)));
            add (assume (cst_le (exp_var dst) (exp_cst 1)))
          else havoc_if_included dst
      end.

Definition isa_GetElementPtrInst (u : user) : bool :=
  match u with UInst _ (GetElementPtrInst _ _) => true | _ => false end.

(** [visitZExtInst] and [visitSExtInst]: skip the cast when all its users
    are GEPs. *)
Definition visitExtInst (I : ident) (ty : type) (v : value) : M unit :=
  do F <- get_ir;
  let all_gep := forallb isa_GetElementPtrInst (uses F (f_blocks func) I) in
  if negb all_gep then doCast I ty v else pure tt.

Definition visitCastInst (I : ident) (ty : type) (v : value) : M unit :=
  doCast I ty v.

(** Strip a zext or sext from a GEP index. *)
Definition strip_ext (F : body) (v : value) : value :=
  match v with
  | Inst x _ =>
      match F !! x with
      | Some (CastInst ZExt _ src) => src
      | Some (CastInst SExt _ src) => src
      | _ => v
      end
  | _ => v
  end.

Definition gep_index (res : varname) (p : value) (t : gep_step) : M unit :=
  match t with
  | StructStep fieldOffsets =>
      match p with
      | ConstantInt bits n =>
          add (arith OP_ADD res (exp_var res)
                 (exp_cst (nth (Z.to_nat (unsigned bits n)) fieldOffsets 0)))
      | _ => assert false
      end
  | SequentialStep elementStoreSize =>
      match lookup p with
      | Some e =>
          do off <- vfac_get;
          do _ <- add (arith OP_MUL off e (exp_cst elementStoreSize));
          add (arith OP_ADD res (exp_var res) (exp_var off))
      | None => assert false
      end
  | OtherStep => pure tt
  end.

Definition visitGetElementPtrInst (I : ident) (ptr : value)
    (idx : list (value * gep_step)) : M unit :=
  if negb (isTracked (Inst I PointerTy)) then pure tt
  else
    do F <- get_ir;
    if LlvmCrabNoPtrArith opts || AllUsesAreNonTrackMem F (f_blocks func) I
    then havoc_if_included (name_for_value I)
    else
      match lookup ptr with
      | None => havoc_if_included (name_for_value I)
      | Some e =>
          let res := name_for_value I in
          match accumulateConstantOffset m_dl I with
          | Some Offset => add (arith OP_ADD res e (exp_cst Offset))
          | None =>
              do _ <- add (assign res e);
              let ps := map (fun it => (strip_ext F (fst it), snd it)) idx in
              for_each ps (fun it => gep_index res (fst it) (snd it))
          end
      end.

Definition visitLoadInst (I : ident) (ty : type) (ptr : value) : M unit :=
  let fallback :=
    if isTracked (Inst I ty) then havoc_if_included (name_for_value I)
    else pure tt in
  if isIntegerTy ty && bool_decide (getTrackLevel m_mem = ARR) then
    let arr_idx := getArrayId m_mem (f_name func) ptr in
    if negb (arr_idx <? 0) then
      match lookup ptr with
      | Some idx =>
          match getSingleton m_mem arr_idx with
          | Some s => add (assign (name_for_value I) (exp_var (symVar s)))
          | None =>
              add (array_load (name_for_value I) (symVarArr arr_idx) idx
                     (getTypeAllocSize m_dl ty))
          end
      | None => fallback
      end
    else fallback
  else fallback.

Definition visitStoreInst (val ptr : value) : M unit :=
  let ty := getType val in
  if isIntegerTy ty && bool_decide (getTrackLevel m_mem = ARR) then
    let arr_idx := getArrayId m_mem (f_name func) ptr in
    if arr_idx <? 0 then pure tt
    else
      match lookup ptr with
      | None => pure tt
      | Some idx =>
          match lookup val with
          | None => pure tt
          | Some e =>
              match getSingleton m_mem arr_idx with
              | Some s => add (assign (symVar s) e)
              | None =>
                  add (array_store (symVarArr arr_idx) idx e
                         (getTypeAllocSize m_dl ty) false)
              end
          end
      end
  else pure tt.

Definition visitAllocaInst (I : ident) : M unit :=
  if bool_decide (getTrackLevel m_mem = ARR) then
    let arr_idx := getArrayId m_mem (f_name func) (Inst I PointerTy) in
    if arr_idx <? 0 then pure tt
    else add (assume_array (symVarArr arr_idx) 0)
  else pure tt.

Definition isOne (v : value) : bool :=
  match v with ConstantInt bits n => unsigned bits n =? 1 | _ => false end.
Definition isZero (v : value) : bool :=
  match v with ConstantInt bits n => unsigned bits n =? 0 | _ => false end.

Definition visitSelectInst (I : ident) (ty : type) (cond tv fv : value)
    : M unit :=
  if negb (isTracked (Inst I ty)) then pure tt
  else if LlvmCrabNoPtrArith opts
          && (negb (isIntegerTy (getType tv)) || negb (isIntegerTy (getType fv)))
  then pure tt
  else
    match lookup tv, lookup fv with
    | Some op0, Some op1 =>
        let lhs := name_for_value I in
        if isOne cond then add (assign lhs op0)
        else if isZero cond then add (assign lhs op1)
        else
          do F <- get_ir;
          do done <-
            match SymExecConditionVisitor.dyn_cast_CmpInst F cond with
            | Some CI =>
                do csts <- SymExecConditionVisitor.gen_assertion false CI;
                match csts with
                | [cst] =>
                    do _ <- add (select lhs cst op0 op1);
                    pure true
                | _ => pure false
                end
            | None => pure false
            end;
          (* default case if everything fails ... *)
          if done then pure tt else add (select_var lhs (symVar cond) op0 op1)
    | _, _ => pure tt
    end.

Definition visitReturnInst (v : option value) : M unit :=
  if negb m_is_inter_proc then pure tt
  else if String.eqb (f_name func) "main" then pure tt
  else
    match v with
    | Some v =>
        if negb (isTracked v) then pure tt
        else if LlvmCrabNoPtrArith opts && negb (isIntegerTy (getType v))
        then pure tt
        else add (ret (symVar v) (getVariableType (getType v)))
    | None => pure tt
    end.

Definition normalizeParam (V : value) : M (varname * VariableType) :=
  match V with
  | ConstantInt _ _ =>
      do v <- vfac_get;
      match lookup V with
      | Some e => do _ <- add (assign v e); pure (v, INT_TYPE)
      | None => do _ <- add (havoc v); pure (v, UNK_TYPE)
      end
  | OtherConstant _ =>
      do v <- vfac_get;
      do _ <- add (havoc v);
      pure (v, UNK_TYPE)
  | _ => pure (symVar V, getVariableType (getType V))
  end.

(** The first argument of a verifier call, without its zext if there
    is one. *)
Definition assumed_condition (F : body) (args : list value) : option value :=
  match args with
  | cond :: _ =>
      Some match cond with
           | Inst x _ =>
               match F !! x with
               | Some (CastInst ZExt _ src) => src
               | _ => cond
               end
           | _ => cond
           end
  | [] => None
  end.

Definition visit_condition (is_negated : bool) (F : body) (args : list value)
    : M unit :=
  match assumed_condition F args with
  | Some (Inst x _) =>
      SymExecConditionVisitor.visit opts (f_blocks func) is_negated x
  | _ => pure tt
  end.

(** Havoc of the value returned by a call that is not translated. *)
Definition havoc_return_value (I : ident) (ty : type) : M unit :=
  when (isTracked (Inst I ty))
    (when (negb (isVoidTy ty) && LlvmIncludeHavoc opts)
       (add (havoc (name_for_value I)))).

Definition is_alloc_name (n : string) : bool :=
  String.eqb n "calloc" || String.eqb n "malloc"
  || String.eqb n "valloc" || String.eqb n "palloc".

Definition scalar_actuals (args : list value)
    : M (list (varname * VariableType)) :=
  foldl (fun acc v =>
           do actuals <- acc;
           if negb (isTracked v) then pure actuals
           else if LlvmCrabNoPtrArith opts && negb (isIntegerTy (getType v))
           then pure actuals
           else do a <- normalizeParam v; pure (actuals ++ [a]))
        (pure []) args.

Definition ref_actuals (refs : list Z) : M (list (varname * VariableType)) :=
  foldl (fun acc a =>
           do actuals <- acc;
           do a_in <- vfac_get;
           do _ <- add (assign a_in (exp_var (symVarArr a)));
           do _ <- add (havoc (symVarArr a));
           pure (actuals ++ [(a_in, ARR_TYPE)]))
        (pure []) refs.

Definition visitCallInst (I : ident) (ty : type) (called : option callee)
    (args : list value) : M unit :=
  match called with
  | None => havoc_return_value I ty
  | Some callee =>
      let name := fn_name callee in
      if String.prefix "shadow.mem" name then pure tt
      else if String.eqb name "seahorn.fn.enter" then pure tt
      else if fn_isDeclaration callee && String.eqb (f_name func) "main"
              && is_alloc_name name
      then
        let arr_idx := getArrayId m_mem (f_name func) (Inst I ty) in
        if arr_idx <? 0 then pure tt
        else add (assume_array (symVarArr arr_idx) 0)
      else if fn_isIntrinsic callee then
        if String.prefix "llvm.memset" name then
          match args with
          | ptr :: val :: _ =>
              let arr_idx := getArrayId m_mem (f_name func) ptr in
              if arr_idx <? 0 then pure tt
              else
                match lookup val with
                | Some op0 =>
                    if is_constant op0 then
                      do _ <- add (havoc (symVarArr arr_idx));
                      add (assume_array (symVarArr arr_idx) (constant op0))
                    else pure tt
                | None => pure tt
                end
          | _ => pure tt
          end
        else if String.prefix "llvm.memcpy" name then
          match args with
          | dest :: src :: _ =>
              let dest_arr_idx := getArrayId m_mem (f_name func) dest in
              let src_arr_idx := getArrayId m_mem (f_name func) src in
              if (dest_arr_idx <? 0) || (src_arr_idx <? 0) then pure tt
              else
                do _ <- add (havoc (symVarArr dest_arr_idx));
                add (assign (symVarArr dest_arr_idx)
                       (exp_var (symVarArr src_arr_idx)))
          | _ => pure tt
          end
        else pure tt
      else if String.eqb name "verifier.assume" then
        do F <- get_ir; visit_condition false F args
      else if String.eqb name "verifier.assume.not" then
        do F <- get_ir; visit_condition true F args
      else if negb m_is_inter_proc || fn_isVarArg callee then
        do _ <- havoc_return_value I ty;
        (* havoc all modified nodes by the callee *)
        if bool_decide (getTrackLevel m_mem = ARR) then
          let '(_, mods, _) := getRefModNewArrays m_mem I in
          for_each mods (fun a => add (havoc (symVarArr a)))
        else pure tt
      else
        do scalars <- scalar_actuals args;
        do actuals <-
          (if bool_decide (getTrackLevel m_mem = ARR) then
             let '(refs, mods, news) := getRefModNewArrays m_mem I in
             do ins <- ref_actuals refs;
             pure (scalars ++ ins
                   ++ map (fun a => (symVarArr a, ARR_TYPE)) refs
                   ++ map (fun a => (symVarArr a, ARR_TYPE)) news)
           else pure scalars);
        if negb (bool_decide (getVariableType ty = UNK_TYPE))
           && isTracked (Inst I ty)
           && (negb (LlvmCrabNoPtrArith opts) || isIntegerTy ty)
        then add (callsite (Some (name_for_value I, getVariableType ty))
                    (name_for_function name) actuals)
        else add (callsite None (name_for_function name) actuals)
  end.

(** Base case, if all else fails. *)
Definition visitInstruction (I : ident) (ty : type) : M unit :=
  if negb (isTracked (Inst I ty)) then pure tt
  else havoc_if_included (name_for_value I).

(** [InstVisitor::visit] on one instruction. *)
Definition visit (I : ident) : M unit :=
  do i <- get_inst I;
  match i with
  | None => pure tt
  | Some (PHINode _ _) => pure tt
  | Some (CmpInst _ _ _) => pure tt
  | Some (BinaryOperator op ty op0 op1) => visitBinaryOperator I op ty op0 op1
  | Some (CastInst ZExt ty v) => visitExtInst I ty v
  | Some (CastInst SExt ty v) => visitExtInst I ty v
  | Some (CastInst OtherCast ty v) => visitCastInst I ty v
  | Some (GetElementPtrInst ptr idx) => visitGetElementPtrInst I ptr idx
  | Some (LoadInst ty ptr) => visitLoadInst I ty ptr
  | Some (StoreInst val ptr) => visitStoreInst val ptr
  | Some AllocaInst => visitAllocaInst I
  | Some (SelectInst ty cond tv fv) => visitSelectInst I ty cond tv fv
  | Some (CallInst ty called args) => visitCallInst I ty called args
  | Some (OtherInst ty _) => visitInstruction I ty
  end.

Definition visitTerminator (t : terminator) : M unit :=
  match t with
  | ReturnInst v => visitReturnInst v
  | BranchInst _ | CondBranchInst _ _ _ => pure tt
  | OtherTerminator _ _ => pure tt      (* no tracked result *)
  end.

(** [InstVisitor::visit] on a block: every instruction in order, the
    terminator last. *)
Definition visitBlock (B : basic_block) : M unit :=
  do _ <- for_each (bb_insts B) visit;
  visitTerminator (bb_term B).

End visitor.
End SymExecVisitor.

(** ** The control-flow graph under construction *)

Module CFG.

(** A CFG node is labelled by the basic block it was made for: a block of
    the function, or one of the extra blocks the builder creates (each
    [BasicBlock::Create] yields a block distinct from all others; extra
    blocks are numbered in the order of creation). *)
Inductive basic_block_label :=
| llvm_block (b : bbid)
| extra_block (n : nat).

#[global] Instance basic_block_label_eq_dec : EqDecision basic_block_label.
Proof. solve_decision. Defined.

Record basic_block_t := CfgBlock {
  stmts : list statement;
  insert_point_at_front : bool;
  next_blocks : list basic_block_label;
  prev_blocks : list basic_block_label }.

Definition empty_block : basic_block_t := CfgBlock [] false [] [].

Definition FunctionDecl : Type :=
  VariableType * varname * list (varname * VariableType).

(** Nodes are kept in the order of their insertion. *)
Record cfg_t := Cfg {
  entry : basic_block_label;
  exit : option basic_block_label;
  blocks : list (basic_block_label * basic_block_t);
  func_decl : option FunctionDecl }.

Fixpoint get_node (bs : list (basic_block_label * basic_block_t))
    (l : basic_block_label) : option basic_block_t :=
  match bs with
  | [] => None
  | (l', b) :: rest => if decide (l' = l) then Some b else get_node rest l
  end.

Fixpoint update_node (bs : list (basic_block_label * basic_block_t))
    (l : basic_block_label) (f : basic_block_t -> basic_block_t)
    : list (basic_block_label * basic_block_t) :=
  match bs with
  | [] => []
  | (l', b) :: rest =>
      if decide (l' = l) then (l', f b) :: rest
      else (l', b) :: update_node rest l f
  end.

Definition with_blocks (g : cfg_t)
    (bs : list (basic_block_label * basic_block_t)) : cfg_t :=
  Cfg (entry g) (exit g) bs (func_decl g).

(** [insert]: the node with this label, created empty if there is none. *)
Definition insert (g : cfg_t) (l : basic_block_label) : cfg_t :=
  match get_node (blocks g) l with
  | Some _ => g
  | None => with_blocks g (blocks g ++ [(l, empty_block)])
  end.

Definition set_exit (g : cfg_t) (l : basic_block_label) : cfg_t :=
  Cfg (entry g) (Some l) (blocks g) (func_decl g).

Definition set_func_decl (g : cfg_t) (d : FunctionDecl) : cfg_t :=
  Cfg (entry g) (exit g) (blocks g) (Some d).

Definition insert_adjacent (ls : list basic_block_label)
    (l : basic_block_label) : list basic_block_label :=
  if decide (l ∈ ls) then ls else ls ++ [l].

Definition remove_adjacent (ls : list basic_block_label)
    (l : basic_block_label) : list basic_block_label :=
  filter (fun l' => l' <> l) ls.

(** [src >> dst] *)
Definition add_succ (g : cfg_t) (src dst : basic_block_label) : cfg_t :=
  with_blocks g
    (update_node
       (update_node (blocks g) src
          (fun b => CfgBlock (stmts b) (insert_point_at_front b)
                      (insert_adjacent (next_blocks b) dst) (prev_blocks b)))
       dst
       (fun b => CfgBlock (stmts b) (insert_point_at_front b)
                   (next_blocks b) (insert_adjacent (prev_blocks b) src))).

(** [src -= dst] *)
Definition remove_succ (g : cfg_t) (src dst : basic_block_label) : cfg_t :=
  with_blocks g
    (update_node
       (update_node (blocks g) src
          (fun b => CfgBlock (stmts b) (insert_point_at_front b)
                      (remove_adjacent (next_blocks b) dst) (prev_blocks b)))
       dst
       (fun b => CfgBlock (stmts b) (insert_point_at_front b)
                   (next_blocks b) (remove_adjacent (prev_blocks b) src))).

Definition set_insert_point_front (b : basic_block_t) : basic_block_t :=
  CfgBlock (stmts b) true (next_blocks b) (prev_blocks b).

(** Insertion of a statement: at the front once if the insertion point was
    moved there, at the back otherwise. *)
Definition insert_stmt (b : basic_block_t) (s : statement) : basic_block_t :=
  if insert_point_at_front b
  then CfgBlock (s :: stmts b) false (next_blocks b) (prev_blocks b)
  else CfgBlock (stmts b ++ [s]) false (next_blocks b) (prev_blocks b).

Definition set_stmts (b : basic_block_t) (l : list statement) : basic_block_t :=
  CfgBlock l (insert_point_at_front b) (next_blocks b) (prev_blocks b).

Definition has_edge (g : cfg_t) (src dst : basic_block_label) : Prop :=
  exists b, get_node (blocks g) src = Some b /\ dst ∈ next_blocks b.

Definition is_node (g : cfg_t) (l : basic_block_label) : Prop :=
  is_Some (get_node (blocks g) l).

End CFG.
Export CFG.

(** ** The builder *)

Module CfgBuilder.

(** Initializers of global variables, as far as [doInitializer] tells them
    apart. *)
Inductive initializer :=
| ConstantAggregateZero
| ConstantIntInit
| ConstantDataSequential (elementTy : type) (elements : list Z)
| GlobalAlias (aliasee : initializer)
| OtherInitializer.

Record GlobalVariable := {
  gv_value : value;
  gv_initializer : option initializer }.

Record builder := Builder {
  b_ir : body;
  b_vfac : N;
  b_aborted : bool;
  m_cfg : cfg_t;
  m_bb_map : list bbid;
  m_extra_blks : list basic_block_label }.

Section build.
Context {SE : SymEval} (opts : options) (m_mem : MemAnalysis)
        (m_dl : DataLayout) (globals : list GlobalVariable).
Variable m_func : function.
Variable m_is_inter_proc : bool.

Definition with_cfg (st : builder) (g : cfg_t) : builder :=
  Builder (b_ir st) (b_vfac st) (b_aborted st) g (m_bb_map st) (m_extra_blks st).

Definition builder_assert (st : builder) (b : bool) : builder :=
  Builder (b_ir st) (b_vfac st) (b_aborted st || negb b) (m_cfg st)
    (m_bb_map st) (m_extra_blks st).

(** Run a visitor whose target block [m_bb] is the node [l]. *)
Definition visit_into (l : basic_block_label) (v : M unit) (st : builder)
    : builder :=
  let b := default empty_block (get_node (blocks (m_cfg st)) l) in
  let s := snd (v (State (b_ir st) (b_vfac st) (stmts b) (b_aborted st))) in
  Builder (ir s) (m_vfac s) (aborted s)
    (with_blocks (m_cfg st)
       (update_node (blocks (m_cfg st)) l (fun b => set_stmts b (m_bb s))))
    (m_bb_map st) (m_extra_blks st).

Definition lookup_block (st : builder) (B : bbid) : option basic_block_label :=
  if decide (B ∈ m_bb_map st) then Some (llvm_block B) else None.

Definition add_block (st : builder) (B : basic_block) : builder :=
  let st := builder_assert st (bool_decide (lookup_block st (bb_name B) = None)) in
  Builder (b_ir st) (b_vfac st) (b_aborted st)
    (insert (m_cfg st) (llvm_block (bb_name B)))
    (m_bb_map st ++ [bb_name B]) (m_extra_blks st).

Definition add_block_in_between (st : builder) (src dst bb_id : basic_block_label)
    : builder :=
  let g := insert (m_cfg st) bb_id in
  let g := remove_succ g src dst in
  let g := add_succ g src bb_id in
  let g := add_succ g bb_id dst in
  with_cfg st g.

Definition add_edge (st : builder) (src dst : bbid) : builder :=
  match lookup_block st src, lookup_block st dst with
  | Some SS, Some DD => with_cfg st (add_succ (m_cfg st) SS DD)
  | _, _ => builder_assert st false
  end.

(** [BasicBlock::Create] followed by [m_extra_blks.push_back].  The new
    block is the label of its node; the name [create_bb_name] gives it
    plays no role. *)
Definition create_extra_block (st : builder) : basic_block_label * builder :=
  let bb_id := extra_block (length (m_extra_blks st)) in
  (bb_id,
   Builder (b_ir st) (b_vfac st) (b_aborted st) (m_cfg st) (m_bb_map st)
     (m_extra_blks st ++ [bb_id])).

(** Statements for the condition [c] of a branch, on the edge to [dst]. *)
Definition branch_condition (c : value) (succ0 succ1 dst : bbid) : M unit :=
  match c with
  | ConstantInt _ _ =>
      if (SymExecVisitor.isOne c && negb (bool_decide (succ0 = dst)))
         || (SymExecVisitor.isZero c && negb (bool_decide (succ1 = dst)))
      then add unreachable
      else pure tt
  | Inst x _ =>
      SymExecConditionVisitor.visit opts (f_blocks m_func)
        (bool_decide (succ1 = dst)) x
  | _ =>
      let lhs := symVar c in
      if bool_decide (succ1 = dst)
      then add (assume (cst_eq (exp_var lhs) (exp_cst 0)))
      else add (assume (cst_eq (exp_var lhs) (exp_cst 1)))
  end.

(** Return the new block inserted between [src] and [dst], if any. *)
Definition execBr (st : builder) (src : basic_block) (dst : bbid)
    : option basic_block_label * builder :=
  match bb_term src with
  | CondBranchInst c succ0 succ1 =>
      match lookup_block st (bb_name src), lookup_block st dst with
      | Some Src, Some Dst =>
          let '(bb_id, st) := create_extra_block st in
          let st := add_block_in_between st Src Dst bb_id in
          (Some bb_id, visit_into bb_id (branch_condition c succ0 succ1 dst) st)
      | _, _ => (None, builder_assert st false)
      end
  | BranchInst _ => (None, add_edge st (bb_name src) dst)
  | _ => (None, st)
  end.

Definition find_block (name : bbid) : option basic_block :=
  List.find (fun b => bool_decide (bb_name b = name)) (f_blocks m_func).

(** The body of the loop over the successors of a block. *)
Definition translate_edge (B : basic_block) (BB : basic_block_label)
    (st : builder) (dst : bbid) : builder :=
  let '(mid_bb, st) := execBr st B dst in
  match find_block dst with
  | Some D =>
      visit_into (default BB mid_bb)
        (SymExecPhiVisitor.visitBasicBlock opts (bb_name B) D) st
  | None => st
  end.

Definition isa_ReturnInst (t : terminator) : bool :=
  match t with ReturnInst _ => true | _ => false end.

(** The body of the loop over the blocks of the function. *)
Definition translate_block (acc : builder * list basic_block_label)
    (B : basic_block) : builder * list basic_block_label :=
  let '(st, rets) := acc in
  let BB := llvm_block (bb_name B) in
  let st := builder_assert st (bool_decide (is_Some (lookup_block st (bb_name B)))) in
  let st :=
    visit_into BB
      (SymExecVisitor.visitBlock opts m_mem m_dl m_func m_is_inter_proc B) st in
  if isa_ReturnInst (bb_term B) then (st, rets ++ [BB])
  else (foldl (translate_edge B BB) st (successors (bb_term B)), rets).

(** Unify multiple return blocks. *)
Definition unify_returns (st : builder) (rets : list basic_block_label)
    : builder :=
  match rets with
  | [] => st
  | [r] => with_cfg st (set_exit (m_cfg st) r)
  | _ =>
      let '(unified_ret_id, st) := create_extra_block st in
      let g := insert (m_cfg st) unified_ret_id in
      let g := foldl (fun g r => add_succ g r unified_ret_id) g rets in
      with_cfg st (set_exit g unified_ret_id)
  end.

Fixpoint doInitializer (cst : initializer) (bb : basic_block_t) (a : varname)
    : basic_block_t :=
  match cst with
  | ConstantAggregateZero => insert_stmt bb (assume_array a 0)
  | ConstantIntInit => bb
  | ConstantDataSequential elementTy vals =>
      if isIntegerTy elementTy then insert_stmt bb (array_init a vals) else bb
  | GlobalAlias aliasee => doInitializer aliasee bb a
  | OtherInitializer => bb
  end.

Definition update_entry (st : builder) (f : basic_block_t -> basic_block_t)
    : builder :=
  with_cfg st
    (with_blocks (m_cfg st)
       (update_node (blocks (m_cfg st)) (entry (m_cfg st)) f)).

(** Allocate arrays with initial values. *)
Definition init_globals (st : builder) : builder :=
  foldl (fun st gv =>
           match gv_initializer gv with
           | Some init =>
               let arr_idx := getArrayId m_mem (f_name m_func) (gv_value gv) in
               if arr_idx <? 0 then st
               else update_entry st (fun entry =>
                      doInitializer init (set_insert_point_front entry)
                        (symVarArr arr_idx))
           | None => st
           end) st globals.

Definition init_new_arrays (st : builder) : builder :=
  let '(_, _, news) := getRefModNewArraysFn m_mem (f_name m_func) in
  foldl (fun st n =>
           update_entry st (fun entry =>
             insert_stmt (set_insert_point_front entry)
               (assume_array (symVarArr n) 0))) st news.

Definition scalar_formals : list (varname * VariableType) :=
  omap (fun arg =>
          if negb (isTracked arg) then None
          else if LlvmCrabNoPtrArith opts && negb (isIntegerTy (getType arg))
          then None
          else Some (symVar arg, getVariableType (getType arg)))
       (f_args m_func).

(** One fresh input version per ref array, bound at the front of the entry
    block. *)
Definition ref_formals (st : builder) (refs : list Z)
    : builder * list (varname * VariableType) :=
  foldl (fun acc a =>
           let '(st, params) := acc in
           let a_in := fresh_name (b_vfac st) in
           let st :=
             Builder (b_ir st) (b_vfac st + 1) (b_aborted st) (m_cfg st)
               (m_bb_map st) (m_extra_blks st) in
           (update_entry st (fun entry =>
              insert_stmt (set_insert_point_front entry)
                (assign (symVarArr a) (exp_var a_in))),
            params ++ [(a_in, ARR_TYPE)]))
        (st, []) refs.

Definition add_function_declaration (st : builder) : builder :=
  let st := builder_assert st (negb (f_isVarArg m_func)) in
  let params := scalar_formals in
  let '(st, params) :=
    if bool_decide (getTrackLevel m_mem = ARR)
       && negb (String.eqb (f_name m_func) "main")
    then
      let '(refs, mods, news) := getRefModNewArraysFn m_mem (f_name m_func) in
      let '(st, ins) := ref_formals st refs in
      (st, params ++ ins
           ++ map (fun a => (symVarArr a, ARR_TYPE)) refs
           ++ map (fun a => (symVarArr a, ARR_TYPE)) news)
    else (st, params) in
  let retTy :=
    if negb (LlvmCrabNoPtrArith opts) || isIntegerTy (f_retTy m_func)
    then getVariableType (f_retTy m_func) else UNK_TYPE in
  with_cfg st
    (set_func_decl (m_cfg st) (retTy, name_for_function (f_name m_func), params)).

Definition entry_label : basic_block_label :=
  match f_blocks m_func with
  | B :: _ => llvm_block (bb_name B)
  | [] => llvm_block ""
  end.

(** The builder as its constructor leaves it, for the body [F]. *)
Definition initial (F : body) : builder :=
  Builder F 0 false (Cfg entry_label None [] None) [] [].

(** The two loops of [build_cfg] over the blocks, with the returning blocks
    met on the way. *)
Definition translate_blocks (F : body) : builder * list basic_block_label :=
  let st := foldl add_block (initial F) (f_blocks m_func) in
  foldl translate_block (st, []) (f_blocks m_func).

Definition build_cfg (F : body) : builder :=
  let '(st, rets) := translate_blocks F in
  let st := unify_returns st rets in
  let st :=
    if bool_decide (getTrackLevel m_mem = ARR) then
      let st :=
        if String.eqb (f_name m_func) "main" then init_globals st else st in
      init_new_arrays st
    else st in
  if m_is_inter_proc then add_function_declaration st else st.

End build.
End CfgBuilder.

(** ** The helper as the specification words it *)

(** Refinement target for [AllUsesAreNonTrackMem], following the words of
    the specification: every use is a load or store whose value type is
    not an integer, a call to a shadow-memory or debug function, or a cast
    that satisfies the same property.  Casts form no cycles in SSA, so the
    number of instructions is enough fuel. *)
Fixpoint all_uses_are_non_track_memory (fuel : nat) (F : body)
    (blocks : list basic_block) (v : ident) : bool :=
  match fuel with
  | O => false
  | S fuel =>
      forallb
        (fun U =>
           match U with
           | UInst _ (StoreInst val _) => negb (isIntegerTy (getType val))
           | UInst _ (LoadInst ty _) => negb (isIntegerTy ty)
           | UInst _ (CallInst _ (Some callee) _) =>
               String.prefix "llvm.dbg" (fn_name callee)
               || String.prefix "shadow.mem" (fn_name callee)
           | UInst c (CastInst _ _ _) =>
               all_uses_are_non_track_memory fuel F blocks c
           | _ => false
           end)
        (uses F blocks v)
  end.

(** ** Truth of conditions in a valuation *)

(** The truth value of the compare [i] when its operands take the values
    their expressions have in [rho]. *)
Definition cmp_truth {SE : SymEval} (rho : env) (i : instruction) : option bool :=
  match i with
  | CmpInst p a b =>
      match getType a, lookup a, lookup b with
      | IntegerTy w, Some e1, Some e2 => icmp w p (eval rho e1) (eval rho e2)
      | _, _, _ => None
      end
  | _ => None
  end.

(** The truth value of an OR of two compares. *)
Definition or_truth {SE : SymEval} (rho : env) (F : body) (i : instruction)
    : option bool :=
  match i with
  | BinaryOperator Or _ (Inst x _) (Inst y _) =>
      match F !! x, F !! y with
      | Some c1, Some c2 =>
          match cmp_truth rho c1, cmp_truth rho c2 with
          | Some b1, Some b2 => Some (b1 || b2)
          | _, _ => None
          end
      | _, _ => None
      end
  | _ => None
  end.

(** The constraints a list of statements assumes. *)
Definition assumed (l : list statement) : z_lin_cst_sys :=
  omap (fun s => match s with assume c => Some c | _ => None end) l.

(** The value of a compare instruction on [w]-bit operand values. *)
Definition cmp_value (w : N) (val : value -> Z) (i : instruction) : option bool :=
  match i with
  | CmpInst p a b => icmp w p (val a) (val b)
  | _ => None
  end.

(** ** Vocabulary of the properties *)

(** What the loop of [AllUsesAreNonTrackMem] accepts: loads and stores of
    non-integer values and calls, whatever the called function is. *)
Definition accepted_use (U : user) : bool :=
  match U with
  | UInst _ (StoreInst val _) => negb (isIntegerTy (getType val))
  | UInst _ (LoadInst ty _) => negb (isIntegerTy ty)
  | UInst _ (CallInst _ _ _) => true
  | _ => false
  end.

(** [F'] is [F] with some compares normalized. *)
Definition reoriented (F F' : body) : Prop :=
  forall x, F' !! x = F !! x \/
            F' !! x = SymExecConditionVisitor.normalizeCmp <$> F !! x.

(** A computation all of whose runs relate the state before to the state
    after by the preorder [R]. *)
Definition keeps (R : relation state) {A} (m : M A) : Prop :=
  forall s, R s (snd (m s)).

(** The states whose bodies are related by [reoriented]. *)
Definition ir_reoriented : relation state :=
  fun s s' => reoriented (ir s) (ir s').

(** A computation that only normalizes compares. *)
Abbreviation preserves := (keeps ir_reoriented).

(** The block only grows. *)
Definition appends : relation state :=
  fun s s' => exists l, m_bb s' = m_bb s ++ l.

(** The calls [visitCallInst] treats before it looks at the mode: shadow
    and marker functions, allocation functions in [main], intrinsics and
    the verifier's assumptions. *)
Definition handled_specially (func : function) (c : callee) : bool :=
  String.prefix "shadow.mem" (fn_name c)
  || String.eqb (fn_name c) "seahorn.fn.enter"
  || (fn_isDeclaration c && String.eqb (f_name func) "main"
      && SymExecVisitor.is_alloc_name (fn_name c))
  || fn_isIntrinsic c
  || String.eqb (fn_name c) "verifier.assume"
  || String.eqb (fn_name c) "verifier.assume.not".

(** The nodes of a graph and the successors of a node. *)
Definition labels (g : cfg_t) : list basic_block_label := map fst (blocks g).

Definition succs_of (g : cfg_t) (l : basic_block_label)
    : option (list basic_block_label) :=
  next_blocks <$> get_node (blocks g) l.

(** Two graphs with the same exit, the same nodes and the same edges. *)
Definition same_graph (g g' : cfg_t) : Prop :=
  exit g' = exit g /\ labels g' = labels g /\
  forall l, succs_of g' l = succs_of g l.

Definition blabels (st : CfgBuilder.builder) : list basic_block_label :=
  labels (CfgBuilder.m_cfg st).

(** From [st] to [st'] no node is lost, and the new nodes are extra blocks
    created in between. *)
Definition grows (st st' : CfgBuilder.builder) : Prop :=
  (forall l, l ∈ blabels st -> l ∈ blabels st') /\
  (forall l, l ∈ blabels st' ->
     l ∈ blabels st \/
     exists n, l = extra_block n /\
       (length (CfgBuilder.m_extra_blks st) <= n
        < length (CfgBuilder.m_extra_blks st'))%nat) /\
  (length (CfgBuilder.m_extra_blks st)
   <= length (CfgBuilder.m_extra_blks st'))%nat.

(** The blocks whose terminator is a return, in the order of the function. *)
Definition returning_blocks (m_func : function) : list basic_block_label :=
  map (fun B => llvm_block (bb_name B))
    (List.filter (fun B => CfgBuilder.isa_ReturnInst (bb_term B))
       (f_blocks m_func)).

(** The variable a statement defines. *)
Definition defined_var (st : statement) : option varname :=
  match st with
  | assign x _ | havoc x => Some x
  | _ => None
  end.

Abbreviation phi_t := (ident * type * list (bbid * value))%type.

Section phi_vocabulary.
Import SymExecPhiVisitor.
Context {SE : SymEval} (opts : options) (inc_BB : bbid).

(** Whether the second loop of the PHI visitor translates a PHI node. *)
Definition phi_is_translated (ph : phi_t) : bool :=
  let '(phi, ty, inc) := ph in
  isTracked (Inst phi ty)
  && negb (LlvmCrabNoPtrArith opts && negb (isIntegerTy ty))
  && bool_decide (is_Some (getIncomingValueForBlock inc inc_BB)).

(** The incoming value the first loop saves for a PHI node, with its
    expression, if it saves one. *)
Definition saved_value (F : body) (BB : basic_block) (m : oldValMap_t)
    (ph : phi_t) : option (value * z_lin_exp) :=
  let '(phi, ty, inc) := ph in
  match getIncomingValueForBlock inc inc_BB with
  | Some v =>
      if isTracked v
         && negb (LlvmCrabNoPtrArith opts && negb (isIntegerTy ty))
         && is_phi_of F BB v
      then
        match lookup v, oldValMap_find m v with
        | Some x, None => Some (v, x)
        | _, _ => None
        end
      else None
  | None => None
  end.

(** The statement of the second loop for a PHI node, if there is one. *)
Definition phi_statement (m : oldValMap_t) (ph : phi_t) : option statement :=
  let '(phi, ty, inc) := ph in
  if phi_is_translated ph then
    match getIncomingValueForBlock inc inc_BB with
    | Some v =>
        Some match oldValMap_find m v with
             | Some old => assign (name_for_value phi) old
             | None =>
                 match lookup v with
                 | Some op => assign (name_for_value phi) op
                 | None => havoc (name_for_value phi)
                 end
             end
    | None => None
    end
  else None.

End phi_vocabulary.

(** In [rho], reached from [rho0] by the first loop of the PHI visitor,
    the PHI node [p2] still has its old value, and if the value [v] is
    saved in [m] then it is saved in a fresh name below [n] that holds the
    old value of [p2]. *)
Definition saved (v : value) (p2 : ident) (m : SymExecPhiVisitor.oldValMap_t)
    (n : N) (rho0 rho : env) : Prop :=
  rho (name_for_value p2) = rho0 (name_for_value p2) /\
  forall e, SymExecPhiVisitor.oldValMap_find m v = Some e ->
    exists k, e = exp_var (fresh_name k) /\ (k < n)%N /\
              rho (fresh_name k) = rho0 (name_for_value p2).

(** ** Vocabulary of the further properties *)

(** The values a [w]-bit operand of a compare with predicate [p] stands
    for: the unsigned predicates read it as an unsigned integer, the other
    ones as a signed integer. *)
Definition in_range (w : N) (p : predicate) (x : Z) : Prop :=
  if SymExecConditionVisitor.is_unsigned_predicate p
  then 0 <= x < 2 ^ Z.of_N w
  else - 2 ^ (Z.of_N w - 1) <= x < 2 ^ (Z.of_N w - 1).

(** The compare [c] is an integer compare both of whose operands have an
    expression, with a value in the range of the operand type in [rho]. *)
Definition compare_in_range {SE : SymEval} (rho : env) (c : instruction) : Prop :=
  match c with
  | CmpInst p a b =>
      SymExecConditionVisitor.is_integer_predicate p = true /\
      exists w e1 e2,
        getType a = IntegerTy w /\ lookup a = Some e1 /\ lookup b = Some e2 /\
        in_range w p (eval rho e1) /\ in_range w p (eval rho e2)
  | _ => False
  end.

(** The instructions that are translated only when their result is
    tracked: binary operators, casts, selects, GEPs and the instructions
    of the base case. *)
Definition translated_only_if_tracked (i : instruction) : bool :=
  match i with
  | BinaryOperator _ _ _ _ | CastInst _ _ _ | SelectInst _ _ _ _
  | GetElementPtrInst _ _ | OtherInst _ _ => true
  | _ => false
  end.

(** A computation that only appends statements satisfying [P] to the
    block. *)
Definition emits (P : statement -> Prop) : relation state :=
  fun s s' => exists l, m_bb s' = m_bb s ++ l /\ Forall P l.

(** Every statement of every node of the graph satisfies [P]. *)
Definition all_statements (P : statement -> Prop) (g : cfg_t) : Prop :=
  Forall (fun lb => Forall P (stmts (snd lb))) (blocks g).

(** The statements of the inter-procedural analyses. *)
Definition is_interprocedural (st : statement) : bool :=
  match st with
  | callsite _ _ _ | ret _ _ => true
  | _ => false
  end.

(** The variable a statement writes; the arrays a callsite passes are
    left apart. *)
Definition written_var (st : statement) : option varname :=
  match st with
  | assign x _ | arith _ x _ _ | bitwise _ x _ _ | havoc x
  | select x _ _ _ | select_var x _ _ _ | array_load x _ _ _ => Some x
  | array_store a _ _ _ _ | assume_array a _ | array_init a _ => Some a
  | callsite (Some (r, _)) _ _ => Some r
  | _ => None
  end.

(** The instructions whose translation defines their own result only:
    all but calls, stores and allocas. *)
Definition defines_its_result (i : instruction) : bool :=
  match i with
  | CallInst _ _ _ | StoreInst _ _ | AllocaInst => false
  | _ => true
  end.

(** The variable factory is where it was. *)
Definition same_vfac : relation state :=
  fun s s' => m_vfac s' = m_vfac s.

(** The statements that read or write the cells of an array. *)
Definition is_array_access (st : statement) : bool :=
  match st with
  | array_load _ _ _ _ | array_store _ _ _ _ _ => true
  | _ => false
  end.

(** Two graphs with the same entry and the same function declaration. *)
Definition same_header (g g' : cfg_t) : Prop :=
  entry g' = entry g /\ func_decl g' = func_decl g.

(** The nodes of the builder's graph are the blocks of the function and
    the extra blocks the builder remembers, which are numbered in the
    order of their creation. *)
Definition nodes_are_blocks (m_func : function) (st : CfgBuilder.builder)
    : Prop :=
  (forall l, l ∈ blabels st <->
             (exists B, B ∈ f_blocks m_func /\ l = llvm_block (bb_name B))
             \/ l ∈ CfgBuilder.m_extra_blks st) /\
  CfgBuilder.m_extra_blks st
  = map extra_block (seq 0 (length (CfgBuilder.m_extra_blks st))).

(** What the graph holds for the edge from the block [B] to its successor
    [d]: the edge itself when [B] ends in an unconditional branch, a path
    through an extra block when it ends in a conditional branch. *)
Definition edge_path (g : cfg_t) (B : basic_block) (d : bbid) : Prop :=
  match bb_term B with
  | BranchInst _ => has_edge g (llvm_block (bb_name B)) (llvm_block d)
  | CondBranchInst _ _ _ =>
      exists n, has_edge g (llvm_block (bb_name B)) (extra_block n) /\
                has_edge g (extra_block n) (llvm_block d)
  | _ => True
  end.

(** *** Meaning of the arithmetic statements *)

(** The value of an addition, a subtraction or a multiplication; divisions
    and remainders get no meaning here. *)
Definition arith_value (op : arith_op) (x y : Z) : option Z :=
  match op with
  | OP_ADD => Some (x + y)
  | OP_SUB => Some (x - y)
  | OP_MUL => Some (x * y)
  | _ => None
  end.

(** One step of a statement: a step of [exec], or the step of an
    arithmetic statement that has a value. *)
Inductive run : env -> statement -> env -> Prop :=
| run_exec rho st rho' : exec rho st rho' -> run rho st rho'
| run_arith rho op x e1 e2 n :
    arith_value op (eval rho e1) (eval rho e2) = Some n ->
    run rho (arith op x e1 e2) (update rho x n).

Inductive run_list : env -> list statement -> env -> Prop :=
| run_nil rho : run_list rho [] rho
| run_cons rho1 rho2 rho3 s l :
    run rho1 s rho2 -> run_list rho2 l rho3 -> run_list rho1 (s :: l) rho3.

(** [rho'] is [rho] except on [res] and on the fresh names. *)
Definition agree_off (res : varname) (rho rho' : env) : Prop :=
  forall y, y <> res -> (forall k, y <> fresh_name k) -> rho' y = rho y.

(** The value of [e] depends neither on [res] nor on the fresh names. *)
Definition stable (res : varname) (e : z_lin_exp) : Prop :=
  forall rho rho', agree_off res rho rho' -> eval rho' e = eval rho e.

(** The arithmetic operation of the binary operators that have one of
    their own. *)
Definition arith_of (op : binop) : option arith_op :=
  match op with
  | Add => Some OP_ADD
  | Sub => Some OP_SUB
  | Mul => Some OP_MUL
  | _ => None
  end.




(** *** Parameters of a call and of a declaration *)

(** The type of a scalar argument or formal parameter that is passed;
    untracked values are not passed, and neither are values that are not
    integers when pointer arithmetic is off. *)
Definition passed_type {SE : SymEval} (opts : options) (v : value)
    : option VariableType :=
  if negb (isTracked v) then None
  else if LlvmCrabNoPtrArith opts && negb (isIntegerTy (getType v)) then None
  else Some (getVariableType (getType v)).

(** An argument whose variable type survives [normalizeParam]: an integer
    constant with an expression, a constant of another kind only if its
    type is unknown anyway, or any value that is not a constant. *)
Definition typed_as_passed {SE : SymEval} (a : value) : Prop :=
  match a with
  | ConstantInt _ _ => is_Some (lookup a)
  | OtherConstant _ => getVariableType (getType a) = UNK_TYPE
  | _ => True
  end.

(** *** Initializations at the front of the entry block *)

(** The statement an initializer of a global stands for, if any. *)
Fixpoint initializer_statement (cst : CfgBuilder.initializer) (a : varname)
    : option statement :=
  match cst with
  | CfgBuilder.ConstantAggregateZero => Some (assume_array a 0)
  | CfgBuilder.ConstantDataSequential elementTy vals =>
      if isIntegerTy elementTy then Some (array_init a vals) else None
  | CfgBuilder.GlobalAlias aliasee => initializer_statement aliasee a
  | CfgBuilder.ConstantIntInit | CfgBuilder.OtherInitializer => None
  end.

(** The initializations of the globals that have an initializer and an
    array, in the order of the globals. *)
Definition global_initializations (m_mem : MemAnalysis) (m_func : function)
    (globals : list CfgBuilder.GlobalVariable) : list statement :=
  omap (fun gv =>
          match CfgBuilder.gv_initializer gv with
          | Some init =>
              let arr_idx :=
                getArrayId m_mem (f_name m_func) (CfgBuilder.gv_value gv) in
              if arr_idx <? 0 then None
              else initializer_statement init (symVarArr arr_idx)
          | None => None
          end) globals.

(** [g'] is [g] with the statements [pre] in front of those of the entry
    block. *)
Definition prepended (pre : list statement) (g g' : cfg_t) : Prop :=
  entry g' = entry g /\
  forall l,
    stmts <$> get_node (blocks g') l
    = (fun body => if decide (l = entry g) then pre ++ body else body)
        <$> (stmts <$> get_node (blocks g) l).

(** *** Fresh names *)

(** The factory has handed out the names in [K], and none below [lo]
    since the counter was [lo]. *)
Definition handed_out (lo : N) (K : list N) (s : state) : Prop :=
  (lo <= m_vfac s)%N /\ Forall (fun k => (lo <= k < m_vfac s)%N) K.

(** From a state where the names in [K] are handed out, the counter does
    not go back and every fresh name written by an added statement has
    been handed out since the counter was [lo]. *)
Definition writes_handed_out (lo : N) (K : list N) : relation state :=
  fun s s' =>
    handed_out lo K s ->
    (m_vfac s <= m_vfac s')%N /\
    exists l, m_bb s' = m_bb s ++ l /\
              Forall (fun st => forall k,
                          written_var st = Some (fresh_name k) ->
                          (lo <= k < m_vfac s')%N) l.

(** ** Concrete inputs *)

Module Examples.

Definition i1 := IntegerTy 1.
Definition i32 := IntegerTy 32.
Definition i64 := IntegerTy 64.

Definition opts : options :=
  {| LlvmCrabNoPtrArith := false; LlvmIncludeHavoc := true |}.

(** A memory analysis at track level [lvl] that maps no pointer to an
    array and reports the arrays [rmn] for every call site. *)
Definition mem (lvl : TrackedPrecision) (rmn : list Z * list Z * list Z)
    : MemAnalysis :=
  {| getTrackLevel := lvl;
     getArrayId := fun _ _ => -1;
     getSingleton := fun _ => None;
     getRefModNewArrays := fun _ => rmn;
     getRefModNewArraysFn := fun _ => ([], [], []) |}.

Definition dl : DataLayout :=
  {| accumulateConstantOffset := fun _ => None;
     getTypeAllocSize := fun _ => 4 |}.

Definition start (F : body) : state := State F 0 [] false.

(** [%o1 = icmp eq %a, 0; %o2 = icmp slt %b, 10; %f = or %o1, %o2;
    br %f, T, F] *)
Definition or_body : body :=
  <["o1" := CmpInst ICMP_EQ (Argument "a" i32) (ConstantInt 32 0)]>
  (<["o2" := CmpInst ICMP_SLT (Argument "b" i32) (ConstantInt 32 10)]>
  (<["f" := BinaryOperator Or i1 (Inst "o1" i1) (Inst "o2" i1)]> ∅)).

Definition or_blocks : list basic_block :=
  [BasicBlock "entry" ["o1"; "o2"; "f"] (CondBranchInst (Inst "f" i1) "T" "F")].

Definition rho_of (a b : Z) : env :=
  fun x => if decide (x = name_for_value "a") then a
           else if decide (x = name_for_value "b") then b else 0.

(** [%c = icmp ult %a, %b] *)
Definition ult_body : body :=
  <["c" := CmpInst ICMP_ULT (Argument "a" i32) (Argument "b" i32)]> ∅.

(** [%c = icmp sgt %a, %b; br %c, T, F], with returning successors. *)
Definition sgt_body : body :=
  <["c" := CmpInst ICMP_SGT (Argument "a" i32) (Argument "b" i32)]> ∅.

Definition sgt_func : function :=
  Function "f" false VoidTy [Argument "a" i32; Argument "b" i32]
    [BasicBlock "entry" ["c"] (CondBranchInst (Inst "c" i1) "T" "F");
     BasicBlock "T" [] (ReturnInst None);
     BasicBlock "F" [] (ReturnInst None)].

(** [%r = shl i64 %x, 32] *)
Definition shl_body : body :=
  <["r" := BinaryOperator Shl i64 (Argument "x" i64) (ConstantInt 64 32)]> ∅.

(** [%r = shl i32 %x, %n] *)
Definition shl_var_body : body :=
  <["r" := BinaryOperator Shl i32 (Argument "x" i32) (Argument "n" i32)]> ∅.

Definition empty_func (name : string) (bs : list basic_block) : function :=
  Function name false VoidTy [] bs.

(** [%v = alloca; call void @foo (%v)]: the only use of [%v] is a call to
    a function that is neither a shadow-memory nor a debug function. *)
Definition call_body : body :=
  <["v" := AllocaInst]>
  (<["k" := CallInst VoidTy (Some (Callee "foo" true false false))
             [Inst "v" PointerTy]]> ∅).

Definition call_blocks : list basic_block :=
  [BasicBlock "entry" ["v"; "k"] (ReturnInst None)].

(** [%v = alloca; %w = bitcast %v; %x = load float, %w]: the only use of
    [%v] is a cast whose only use is a load of a non-integer value. *)
Definition cast_body : body :=
  <["v" := AllocaInst]>
  (<["w" := CastInst OtherCast PointerTy (Inst "v" PointerTy)]>
  (<["x" := LoadInst FloatTy (Inst "w" PointerTy)]> ∅)).

Definition cast_blocks : list basic_block :=
  [BasicBlock "entry" ["v"; "w"; "x"] (ReturnInst None)].

(** [%s = select i1 %c, i32 undef, i32 %y] *)
Definition select_body : body :=
  <["s" := SelectInst i32 (Argument "c" i1) (OtherConstant i32)
             (Argument "y" i32)]> ∅.

(** [call void @g ()] in a function that is not [main]. *)
Definition g_call_body : body :=
  <["k" := CallInst VoidTy (Some (Callee "g" false false false)) []]> ∅.

(** The loop block of a swap: [%p1 = phi [%u, entry], [%p2, loop]] and
    [%p2 = phi [%v, entry], [%p1, loop]]. *)
Definition swap_body : body :=
  <["p1" := PHINode i32 [("entry", Argument "u" i32); ("loop", Inst "p2" i32)]]>
  (<["p2" := PHINode i32 [("entry", Argument "v" i32); ("loop", Inst "p1" i32)]]> ∅).

Definition swap_block : basic_block :=
  BasicBlock "loop" ["p1"; "p2"] (BranchInst "loop").

(** Two returning blocks behind a branch. *)
Definition two_returns : function :=
  Function "f" false VoidTy []
    [BasicBlock "entry" [] (BranchInst "a");
     BasicBlock "a" [] (ReturnInst None);
     BasicBlock "b" [] (ReturnInst None)].

(** [%c1 = icmp eq %a, 0; %c2 = icmp slt %b, 10; %f = and %c1, %c2] *)
Definition and_body : body :=
  <["c1" := CmpInst ICMP_EQ (Argument "a" i32) (ConstantInt 32 0)]>
  (<["c2" := CmpInst ICMP_SLT (Argument "b" i32) (ConstantInt 32 10)]>
  (<["f" := BinaryOperator And i1 (Inst "c1" i1) (Inst "c2" i1)]> ∅)).

(** [%c = icmp slt %a, %b; %m = select i1 %c, i32 %a, i32 %b] *)
Definition select_cmp_body : body :=
  <["c" := CmpInst ICMP_SLT (Argument "a" i32) (Argument "b" i32)]>
  (<["m" := SelectInst i32 (Inst "c" i1) (Argument "a" i32) (Argument "b" i32)]> ∅).

(** [%c = icmp sle %a, %b; %z = zext i1 %c to i32;
    call void @verifier.assume (i32 %z)] *)
Definition assume_body : body :=
  <["c" := CmpInst ICMP_SLE (Argument "a" i32) (Argument "b" i32)]>
  (<["z" := CastInst ZExt i32 (Inst "c" i1)]>
  (<["k" := CallInst VoidTy (Some (Callee "verifier.assume" true false false))
             [Inst "z" i32]]> ∅)).

(** A memory analysis at track level ARR in which the pointers [%p] and
    [%q] point into the arrays 1 and 2, no cell is a singleton, and every
    call site and function has the ref, mod and new arrays [rmn]. *)
Definition array_mem (rmn : list Z * list Z * list Z) : MemAnalysis :=
  {| getTrackLevel := ARR;
     getArrayId := fun _ v =>
       if decide (v = Argument "p" PointerTy) then 1
       else if decide (v = Argument "q" PointerTy) then 2 else -1;
     getSingleton := fun _ => None;
     getRefModNewArrays := fun _ => rmn;
     getRefModNewArraysFn := fun _ => rmn |}.

(** [store i32 %x, %p; %ld = load i32, %p] *)
Definition store_load_body : body :=
  <["st" := StoreInst (Argument "x" i32) (Argument "p" PointerTy)]>
  (<["ld" := LoadInst i32 (Argument "p" PointerTy)]> ∅).

(** [call void @llvm.memcpy.p0i8.p0i8.i32 (%p, %q, 16)] *)
Definition memcpy_body : body :=
  <["k" := CallInst VoidTy
             (Some (Callee "llvm.memcpy.p0i8.p0i8.i32" true true false))
             [Argument "p" PointerTy; Argument "q" PointerTy;
              ConstantInt 32 16]]> ∅.

(** [%r = shl i32 %x, 3] *)
Definition shl3_body : body :=
  <["r" := BinaryOperator Shl i32 (Argument "x" i32) (ConstantInt 32 3)]> ∅.

(** [%r = ashr i64 %x, 32] *)
Definition ashr32_body : body :=
  <["r" := BinaryOperator AShr i64 (Argument "x" i64) (ConstantInt 64 32)]> ∅.

(** [%q = getelementptr %p, 1], stepping through elements of 4 bytes. *)
Definition gep_body : body :=
  <["q" := GetElementPtrInst (Argument "p" PointerTy)
             [(ConstantInt 32 1, SequentialStep 4)]]> ∅.


(** [entry: br i1 true, label %T, label %F], with returning successors. *)
Definition const_br_func : function :=
  Function "f" false VoidTy []
    [BasicBlock "entry" [] (CondBranchInst (ConstantInt 1 1) "T" "F");
     BasicBlock "T" [] (ReturnInst None);
     BasicBlock "F" [] (ReturnInst None)].

(** The builder once the blocks of a function are registered. *)
Definition registered (func : function) (F : body) : CfgBuilder.builder :=
  foldl CfgBuilder.add_block (CfgBuilder.initial func F) (f_blocks func).



(** [%r = sub i32 10, %x] *)
Definition sub_const_body : body :=
  <["r" := BinaryOperator Sub i32 (ConstantInt 32 10) (Argument "x" i32)]> ∅.

(** [%k = call i32 @g (i32 %a, i32 7)] *)
Definition g_args_call_body : body :=
  <["k" := CallInst i32 (Some (Callee "g" false false false))
             [Argument "a" i32; ConstantInt 32 7]]> ∅.

(** [define i32 @g (i32 %x, i32 %y)] with a single returning block. *)
Definition g_func : function :=
  Function "g" false i32 [Argument "x" i32; Argument "y" i32]
    [BasicBlock "entry" [] (ReturnInst (Some (Argument "x" i32)))].

(** Two globals with an array: a zero-initialized struct and an array of
    three integers. *)
Definition two_globals : list CfgBuilder.GlobalVariable :=
  [{| CfgBuilder.gv_value := OtherConstant PointerTy;
      CfgBuilder.gv_initializer := Some CfgBuilder.ConstantAggregateZero |};
   {| CfgBuilder.gv_value := Argument "tab" PointerTy;
      CfgBuilder.gv_initializer := Some (CfgBuilder.ConstantDataSequential i32 [1; 2; 3]) |}].

(** A memory analysis at track level ARR that maps the first global to the
    array 1 and the second to the array 2, and reports the new array 9. *)
Definition globals_mem : MemAnalysis :=
  {| getTrackLevel := ARR;
     getArrayId := fun _ v =>
       match v with OtherConstant _ => 1 | Argument _ _ => 2 | _ => -1 end;
     getSingleton := fun _ => None;
     getRefModNewArrays := fun _ => ([], [], []);
     getRefModNewArraysFn := fun _ => ([], [], [9]) |}.

(** [main] with a single block that returns. *)
Definition main_func : function :=
  Function "main" false VoidTy [] [BasicBlock "entry" [] (ReturnInst None)].

(** [entry: %c = icmp sgt %a, %b; br %c, J, F] and [J: %q = phi [%a,
    entry]]: the edge from [entry] to [J] carries the condition and the
    PHI node. *)
Definition phi_edge_body : body :=
  <["q" := PHINode i32 [("entry", Argument "a" i32)]]> sgt_body.

Definition phi_edge_func : function :=
  Function "f" false VoidTy [Argument "a" i32; Argument "b" i32]
    [BasicBlock "entry" ["c"] (CondBranchInst (Inst "c" i1) "J" "F");
     BasicBlock "J" ["q"] (ReturnInst None);
     BasicBlock "F" [] (ReturnInst None)].

End Examples.

(** * Properties *)

(** ** The visitor monad *)

Lemma bind_unfold {A B} (m : M A) (k : A -> M B) (s : state) :
  bind m k s = k (fst (m s)) (snd (m s)).
Proof. unfold bind. destruct (m s); reflexivity. Qed.

Lemma state_eta (s : state) :
  State (ir s) (m_vfac s) (m_bb s) (aborted s) = s.
Proof. destruct s; reflexivity. Qed.

(** ** Compare normalization *)

Import SymExecConditionVisitor.

Lemma swapOperands_involutive (i : instruction) :
  swapOperands (swapOperands i) = i.
Proof. destruct i as [[]| | | | | | | | | |]; reflexivity. Qed.

Lemma normalizeCmp_idempotent (i : instruction) :
  normalizeCmp (normalizeCmp i) = normalizeCmp i.
Proof. destruct i as [[]| | | | | | | | | |]; reflexivity. Qed.

Lemma normalizeCmp_predicate (i : instruction) p a b :
  normalizeCmp i = CmpInst p a b ->
  is_handled_predicate p = true \/ exists c, p = FCMP c.
Proof.
  destruct i as [[]| | | | | | | | | |]; simpl; intros H;
    inversion H; subst; eauto.
Qed.

Lemma normalizeCmpInst_run (I : ident) (s : state) :
  normalizeCmpInst I s =
  (tt, match ir s !! I with
       | Some i => State (<[I := normalizeCmp i]> (ir s)) (m_vfac s) (m_bb s) (aborted s)
       | None => s
       end).
Proof.
  unfold normalizeCmpInst. rewrite bind_unfold. unfold get_inst; simpl.
  destruct (ir s !! I); reflexivity.
Qed.

(** C9.  Compare normalization is idempotent: normalizing a compare twice
    gives the same instruction, and the same function body, as normalizing
    it once; after normalization the predicate of an integer compare is
    one of EQ, NE, ULT, SLT, ULE, SLE. *)
Theorem normalizeCmpInst_idempotent :
  (forall i, normalizeCmp (normalizeCmp i) = normalizeCmp i) /\
  (forall I s,
      snd (normalizeCmpInst I (snd (normalizeCmpInst I s)))
      = snd (normalizeCmpInst I s)) /\
  (forall i p a b,
      normalizeCmp i = CmpInst p a b ->
      is_handled_predicate p = true \/ exists c, p = FCMP c).
Proof.
  split; [exact normalizeCmp_idempotent|].
  split; [|exact normalizeCmp_predicate].
  intros I s. rewrite !normalizeCmpInst_run. simpl.
  destruct (ir s !! I) as [i|] eqn:E; simpl.
  - rewrite lookup_insert_eq, insert_insert_eq, normalizeCmp_idempotent.
    reflexivity.
  - rewrite E. reflexivity.
Qed.

(** The normal form of [icmp sgt %a, %b] has the predicate SLT. *)
Lemma normalizeCmpInst_idempotent_witness :
  is_handled_predicate ICMP_SLT = true \/ exists c, ICMP_SLT = FCMP c.
Proof.
  apply (proj2 (proj2 normalizeCmpInst_idempotent)
           (CmpInst ICMP_SGT (Argument "a" Examples.i32) (Argument "b" Examples.i32))
           ICMP_SLT (Argument "b" Examples.i32) (Argument "a" Examples.i32)).
  reflexivity.
Defined.

(** ** Selects whose operands cannot be looked up *)

Lemma visitSelectInst_no_lookup {SE : SymEval} opts I ty cond tv fv s :
  lookup tv = None \/ lookup fv = None ->
  SymExecVisitor.visitSelectInst opts I ty cond tv fv s = (tt, s).
Proof.
  intros H. unfold SymExecVisitor.visitSelectInst.
  destruct (negb (isTracked (Inst I ty))); [reflexivity|].
  destruct (LlvmCrabNoPtrArith opts && _); [reflexivity|].
  destruct H as [-> | H]; [reflexivity|].
  rewrite H. destruct (lookup tv); reflexivity.
Qed.

(** C10.  A tracked select one of whose value operands has no expression
    is translated to nothing: the block, the variable factory and the IR
    are left as they were, whatever the options are (so no assignment, no
    select and no havoc of the destination is added, also with
    [LlvmIncludeHavoc] set). *)
Theorem select_without_lookup_emits_nothing :
  forall (SE : SymEval) opts m_mem m_dl func interproc I ty cond tv fv s,
    ir s !! I = Some (SelectInst ty cond tv fv) ->
    isTracked (Inst I ty) = true ->
    lookup tv = None \/ lookup fv = None ->
    SymExecVisitor.visit opts m_mem m_dl func interproc I s = (tt, s).
Proof.
  intros SE opts m_mem m_dl func interproc I ty cond tv fv s HI _ H.
  unfold SymExecVisitor.visit. rewrite bind_unfold.
  unfold get_inst; simpl. rewrite HI.
  apply visitSelectInst_no_lookup, H.
Qed.

(** [select i1 %c, i32 undef, i32 %y]: nothing is added. *)
Lemma select_without_lookup_emits_nothing_witness :
  SymExecVisitor.visit (SE := spec_SymEval REGISTERS) Examples.opts
    (Examples.mem REGISTERS ([], [], [])) Examples.dl
    (Examples.empty_func "f" []) false "s" (Examples.start Examples.select_body)
  = (tt, Examples.start Examples.select_body).
Proof.
  apply (select_without_lookup_emits_nothing (spec_SymEval REGISTERS)
           Examples.opts (Examples.mem REGISTERS ([], [], [])) Examples.dl
           (Examples.empty_func "f" []) false "s" Examples.i32
           (Argument "c" Examples.i1) (OtherConstant Examples.i32)
           (Argument "y" Examples.i32)).
  all: try reflexivity.
  left; reflexivity.
Defined.

(** ** Shifts *)

Lemma factor_loop_spec (n : nat) (f : Z) :
  0 <= f < 2 ^ 32 ->
  SymExecVisitor.factor_loop n f = (f * 2 ^ Z.of_nat n) mod 2 ^ 32.
Proof.
  revert f. induction n as [|n IH]; intros f Hf.
  - simpl. rewrite Z.mul_1_r, Z.mod_small; [reflexivity|exact Hf].
  - simpl SymExecVisitor.factor_loop.
    rewrite IH by (apply Z.mod_pos_bound; lia).
    rewrite Nat2Z.inj_succ, Z.pow_succ_r by lia.
    rewrite Z.mul_mod_idemp_l by lia. f_equal. lia.
Qed.

(** For shifts below 32 the factor is the power of two. *)
Lemma factor_loop_small (k : Z) :
  0 <= k < 32 -> SymExecVisitor.factor_loop (Z.to_nat k) 1 = 2 ^ k.
Proof.
  intros Hk. rewrite factor_loop_spec by lia.
  rewrite Z2Nat.id, Z.mul_1_l by lia. apply Z.mod_small.
  split; [apply Z.pow_nonneg; lia|]. apply Z.pow_lt_mono_r; lia.
Qed.

(** From 32 on the 32-bit factor has wrapped around to zero. *)
Lemma factor_loop_large (k : Z) :
  32 <= k -> SymExecVisitor.factor_loop (Z.to_nat k) 1 = 0.
Proof.
  intros Hk. rewrite factor_loop_spec by lia.
  rewrite Z2Nat.id, Z.mul_1_l by lia.
  replace k with (k - 32 + 32) by lia.
  rewrite Z.pow_add_r by lia. apply Z.mod_mul. lia.
Qed.

(** C8.  [shl i64 %x, 32]: the statement added for a shift by the constant
    32 multiplies by 0, the 32-bit factor having wrapped around, and not
    by 2^32; no assertion fails on the way.  With a shift that is not a
    constant the destination is havocked when [LlvmIncludeHavoc] is set. *)
Theorem shl_by_32_multiplies_by_zero :
  SymExecVisitor.visit (SE := spec_SymEval REGISTERS) Examples.opts
    (Examples.mem REGISTERS ([], [], [])) Examples.dl
    (Examples.empty_func "f" []) false "r" (Examples.start Examples.shl_body)
  = (tt, State Examples.shl_body 0
           [arith OP_MUL (name_for_value "r")
              (exp_var (name_for_value "x")) (exp_cst 0)] false)
  /\ exp_cst 0 <> exp_cst (2 ^ 32)
  /\ m_bb (snd (SymExecVisitor.visit (SE := spec_SymEval REGISTERS)
                  Examples.opts (Examples.mem REGISTERS ([], [], []))
                  Examples.dl (Examples.empty_func "f" []) false "r"
                  (Examples.start Examples.shl_var_body)))
     = [havoc (name_for_value "r")].
Proof.
  split; [vm_compute; reflexivity|].
  split; [discriminate|vm_compute; reflexivity].
Qed.

(** A shift by a constant [k] that fits the conversions multiplies by
    [2^k] modulo [2^32]: by [2^k] exactly below 32. *)
Lemma doArithmetic_shl_constant {SE : SymEval} opts lhs v1 v2 e1 e2 s :
  lookup v1 = Some e1 -> lookup v2 = Some e2 ->
  is_constant e2 = true -> 0 <= constant e2 < 2 ^ 31 ->
  SymExecVisitor.doArithmetic opts lhs Shl v1 v2 s
  = (tt, State (ir s) (m_vfac s)
           (m_bb s ++ [arith OP_MUL lhs e1 (exp_cst (2 ^ constant e2 mod 2 ^ 32))])
           (aborted s)).
Proof.
  intros H1 H2 Hc Hk. unfold SymExecVisitor.doArithmetic.
  rewrite H1, H2, Hc. unfold SymExecVisitor.shift_factor.
  rewrite !bind_unfold. unfold assert, pure, add; simpl.
  assert (SymExecVisitor.fits_int (constant e2) = true) as ->.
  { unfold SymExecVisitor.fits_int. apply andb_true_iff; split; lia. }
  assert ((0 <=? constant e2) = true) as -> by lia.
  simpl. rewrite !orb_false_r.
  rewrite (Z.mod_small (constant e2)) by lia.
  rewrite factor_loop_spec by lia.
  rewrite Z2Nat.id, Z.mul_1_l by lia. reflexivity.
Qed.

(** A shift by an amount that is not a constant havocs the destination
    when havocs are included, and adds nothing otherwise. *)
Lemma doArithmetic_shl_not_constant {SE : SymEval} opts lhs v1 v2 e1 e2 :
  lookup v1 = Some e1 -> lookup v2 = Some e2 -> is_constant e2 = false ->
  SymExecVisitor.doArithmetic opts lhs Shl v1 v2
  = when (LlvmIncludeHavoc opts) (add (havoc lhs)).
Proof.
  intros H1 H2 Hc. unfold SymExecVisitor.doArithmetic.
  rewrite H1, H2, Hc. reflexivity.
Qed.

(** ** Uses that are non-trackable memory accesses *)

Lemma AllUsesAreNonTrackMem_loop_forallb (us : list user) :
  AllUsesAreNonTrackMem_loop us = forallb accepted_use us.
Proof.
  induction us as [|U us IH]; [reflexivity|].
  destruct U as [x i|t]; [|reflexivity].
  destruct i; simpl; rewrite ?IH; try reflexivity.
  - destruct called as [c|]; [|reflexivity].
    destruct (String.prefix _ _ || String.prefix _ _); reflexivity.
  - destruct (isIntegerTy ty); reflexivity.
  - destruct (isIntegerTy (getType val)); reflexivity.
Qed.

(** C7.  [%v] is only used by a call to [foo], which is neither a
    shadow-memory nor a debug function: the helper answers true, where
    the property as the specification words it is false.  And when the
    only use of [%v] is a cast whose only use is a load of a non-integer
    value the helper answers false, where the worded property is true. *)
Theorem AllUsesAreNonTrackMem_accepts_any_call :
  AllUsesAreNonTrackMem Examples.call_body Examples.call_blocks "v" = true /\
  all_uses_are_non_track_memory 2 Examples.call_body Examples.call_blocks "v"
  = false /\
  AllUsesAreNonTrackMem Examples.cast_body Examples.cast_blocks "v" = false /\
  all_uses_are_non_track_memory 3 Examples.cast_body Examples.cast_blocks "v"
  = true.
Proof. repeat split; vm_compute; reflexivity. Qed.

(** ** Constraints of a compare *)

Lemma eval_terms_app rho l1 l2 :
  eval_terms rho (l1 ++ l2) = eval_terms rho l1 + eval_terms rho l2.
Proof.
  unfold eval_terms. induction l1 as [|t l1 IH]; simpl; [lia|].
  rewrite IH. lia.
Qed.

Lemma eval_terms_neg rho l :
  eval_terms rho (map (fun t => (- fst t, snd t)) l) = - eval_terms rho l.
Proof.
  unfold eval_terms. induction l as [|t l IH]; simpl; [lia|].
  rewrite IH. lia.
Qed.

Lemma eval_cst rho c : eval rho (exp_cst c) = c.
Proof. reflexivity. Qed.

Lemma eval_var rho x : eval rho (exp_var x) = rho x.
Proof. unfold eval, exp_var, eval_terms; simpl. lia. Qed.

Lemma eval_add rho e1 e2 :
  eval rho (exp_add e1 e2) = eval rho e1 + eval rho e2.
Proof. unfold eval, exp_add; simpl. rewrite eval_terms_app. lia. Qed.

Lemma eval_neg rho e : eval rho (exp_neg e) = - eval rho e.
Proof. unfold eval, exp_neg; simpl. rewrite eval_terms_neg. lia. Qed.

Lemma eval_sub rho e1 e2 :
  eval rho (exp_sub e1 e2) = eval rho e1 - eval rho e2.
Proof. unfold exp_sub. rewrite eval_add, eval_neg. lia. Qed.

Lemma holds_cst_eq rho e1 e2 : holds rho (cst_eq e1 e2) <-> eval rho e1 = eval rho e2.
Proof. unfold holds, cst_eq; simpl. rewrite eval_sub. lia. Qed.

Lemma holds_cst_ne rho e1 e2 : holds rho (cst_ne e1 e2) <-> eval rho e1 <> eval rho e2.
Proof. unfold holds, cst_ne; simpl. rewrite eval_sub. lia. Qed.

Lemma holds_cst_le rho e1 e2 : holds rho (cst_le e1 e2) <-> eval rho e1 <= eval rho e2.
Proof. unfold holds, cst_le; simpl. rewrite eval_sub. lia. Qed.

Lemma holds_cst_ge rho e1 e2 : holds rho (cst_ge e1 e2) <-> eval rho e1 >= eval rho e2.
Proof. unfold holds, cst_ge; simpl. rewrite eval_sub. lia. Qed.

(** [negate] is the logical negation. *)
Lemma holds_negate rho c : holds rho (negate c) <-> ~ holds rho c.
Proof.
  destruct c as [e []]; unfold holds, negate; simpl.
  - tauto.
  - lia.
  - rewrite eval_add, eval_neg, eval_cst. lia.
Qed.

Lemma holds_all_cons rho c cs :
  holds_all rho (c :: cs) <-> holds rho c /\ holds_all rho cs.
Proof. unfold holds_all. apply Forall_cons. Qed.

Lemma holds_all_nil rho : holds_all rho [] <-> True.
Proof. unfold holds_all. split; [tauto|constructor]. Qed.

Lemma holds_all_app rho cs1 cs2 :
  holds_all rho (cs1 ++ cs2) <-> holds_all rho cs1 /\ holds_all rho cs2.
Proof. unfold holds_all. apply Forall_app. Qed.

(** The constraints [gen_assertion] returns for a compare. *)
Lemma gen_assertion_fst {SE : SymEval} neg I p v0 v1 s :
  ir s !! I = Some (CmpInst p v0 v1) ->
  fst (gen_assertion neg I s) =
  match normalizeCmp (CmpInst p v0 v1) with
  | CmpInst p' a b =>
      match lookup a, lookup b with
      | Some op1, Some op2 => gen_assertion_switch neg p' op1 op2
      | _, _ => []
      end
  | _ => []
  end.
Proof.
  intros HI. unfold gen_assertion. rewrite bind_unfold, normalizeCmpInst_run.
  simpl. rewrite HI, bind_unfold. unfold get_inst; simpl.
  rewrite lookup_insert_eq.
  destruct p; simpl; repeat (destruct (lookup _)); reflexivity.
Qed.

(** The body after [gen_assertion]. *)
Lemma gen_assertion_ir {SE : SymEval} neg I s :
  ir (snd (gen_assertion neg I s)) =
  match ir s !! I with
  | Some i => <[I := normalizeCmp i]> (ir s)
  | None => ir s
  end.
Proof.
  unfold gen_assertion. rewrite bind_unfold, normalizeCmpInst_run.
  simpl. rewrite bind_unfold. unfold get_inst; simpl.
  destruct (ir s !! I) as [i|] eqn:E; simpl.
  - rewrite lookup_insert_eq.
    destruct (normalizeCmp i); try reflexivity.
    repeat (destruct (lookup _)); reflexivity.
  - rewrite E. reflexivity.
Qed.

(** C2, counterexample.  For [icmp ult %a, %b] the two constraint sets are
    not each other's negations: with [a = -1] and [b = 0] neither the
    set generated with negated polarity nor the one generated with plain
    polarity holds. *)
Lemma ult_polarities_are_not_negations :
  exists rho,
    ~ holds_all rho (fst (gen_assertion (SE := spec_SymEval REGISTERS) true "c"
                            (Examples.start Examples.ult_body)))
    /\ ~ holds_all rho (fst (gen_assertion (SE := spec_SymEval REGISTERS) false "c"
                               (Examples.start Examples.ult_body))).
Proof.
  exists (Examples.rho_of (-1) 0).
  split; intros Hall; apply Forall_inv in Hall; vm_compute in Hall;
    apply Hall; reflexivity.
Qed.

(** C2, amended.  For an integer compare whose operands both have an
    expression, the constraints generated with negated polarity hold
    exactly when those generated with plain polarity do not, in every
    valuation that gives a non-negative value to the variable operands of
    an unsigned compare; for the equality and signed predicates this is
    every valuation. *)
Theorem gen_assertion_polarities_are_negations :
  forall (SE : SymEval) s I p v0 v1 e1 e2 rho,
    ir s !! I = Some (CmpInst p v0 v1) ->
    is_integer_predicate p = true ->
    lookup v0 = Some e1 -> lookup v1 = Some e2 ->
    (is_unsigned_predicate p && isVar e1 = true -> 0 <= eval rho e1) ->
    (is_unsigned_predicate p && isVar e2 = true -> 0 <= eval rho e2) ->
    holds_all rho (fst (gen_assertion true I s))
    <-> ~ holds_all rho (fst (gen_assertion false I s)).
Proof.
  intros SE s I p v0 v1 e1 e2 rho HI Hp H0 H1 Hu1 Hu2.
  rewrite !(gen_assertion_fst _ I p v0 v1 s HI).
  destruct p; try discriminate Hp;
    cbn [normalizeCmp swapOperands getSwappedPredicate];
    rewrite ?H0, ?H1; unfold gen_assertion_switch; cbn [negb];
    cbn [is_unsigned_predicate andb] in Hu1, Hu2;
    repeat match goal with
           | |- context [isVar ?e] => destruct (isVar e) eqn:?
           end;
    cbn [app];
    rewrite ?holds_all_cons, ?holds_all_nil, ?holds_cst_eq, ?holds_cst_ne,
      ?holds_cst_le, ?holds_cst_ge, ?eval_sub, ?eval_add, ?eval_cst;
    try (specialize (Hu1 eq_refl)); try (specialize (Hu2 eq_refl)); lia.
Qed.

(** [icmp ult %a, %b] with [a = 1] and [b = 2]. *)
Lemma gen_assertion_polarities_are_negations_witness :
  holds_all (Examples.rho_of 1 2)
    (fst (gen_assertion (SE := spec_SymEval REGISTERS) true "c"
            (Examples.start Examples.ult_body)))
  <-> ~ holds_all (Examples.rho_of 1 2)
        (fst (gen_assertion (SE := spec_SymEval REGISTERS) false "c"
                (Examples.start Examples.ult_body))).
Proof.
  apply (gen_assertion_polarities_are_negations (spec_SymEval REGISTERS)
           (Examples.start Examples.ult_body) "c" ICMP_ULT
           (Argument "a" Examples.i32) (Argument "b" Examples.i32)
           (exp_var (name_for_value "a")) (exp_var (name_for_value "b"))
           (Examples.rho_of 1 2)).
  - reflexivity.
  - reflexivity.
  - reflexivity.
  - reflexivity.
  - intros _. vm_compute. discriminate.
  - intros _. vm_compute. discriminate.
Defined.

(** ** The false edge of a branch on an OR of two compares *)

(** C1.  [%f = or %o1, %o2] with [%o1 = icmp eq %a, 0] and
    [%o2 = icmp slt %b, 10], lowered with negated polarity: each compare
    is first generated negated and then negated again, so the edge assumes
    [a = 0] and [b <= 9].  With [a = 0], [b = 0] the disjunction is true
    and yet every assumed constraint holds; with [a = 1], [b = 10] the
    disjunction is false and the assumed constraints do not hold.  The
    assumed constraints are therefore not the negation of the
    disjunction. *)
Theorem or_negated_assumes_the_compares_themselves :
  let out :=
    m_bb (snd (visit (SE := spec_SymEval REGISTERS) Examples.opts
                 Examples.or_blocks true "f" (Examples.start Examples.or_body))) in
  let f := BinaryOperator Or Examples.i1 (Inst "o1" Examples.i1)
             (Inst "o2" Examples.i1) in
  out = [assume (negate (cst_ne (exp_var (name_for_value "a")) (exp_cst 0)));
         assume (negate (cst_ge (exp_var (name_for_value "b")) (exp_cst 10)))]
  /\ (or_truth (SE := spec_SymEval REGISTERS) (Examples.rho_of 0 0)
        Examples.or_body f = Some true
      /\ holds_all (Examples.rho_of 0 0) (assumed out))
  /\ (or_truth (SE := spec_SymEval REGISTERS) (Examples.rho_of 1 10)
        Examples.or_body f = Some false
      /\ ~ holds_all (Examples.rho_of 1 10) (assumed out)).
Proof.
  cbv zeta. split; [vm_compute; reflexivity|]. split; split.
  - vm_compute; reflexivity.
  - repeat constructor; vm_compute; congruence.
  - vm_compute; reflexivity.
  - intros H. apply Forall_inv in H. vm_compute in H. discriminate H.
Qed.

(** ** What the translation does to the IR *)

Lemma reoriented_refl F : reoriented F F.
Proof. intros x; left; reflexivity. Qed.

Lemma reoriented_trans F1 F2 F3 :
  reoriented F1 F2 -> reoriented F2 F3 -> reoriented F1 F3.
Proof.
  intros H12 H23 x. destruct (H12 x) as [E12|E12], (H23 x) as [E23|E23];
    rewrite E23, E12; auto.
  right. destruct (F1 !! x); simpl; [|reflexivity].
  rewrite normalizeCmp_idempotent. reflexivity.
Qed.

Lemma reoriented_insert F I i :
  F !! I = Some i -> reoriented F (<[I := normalizeCmp i]> F).
Proof.
  intros HI x. destruct (decide (I = x)) as [<-|Hne].
  - right. rewrite lookup_insert_eq, HI. reflexivity.
  - left. apply lookup_insert_ne, Hne.
Qed.

Section keeps.
Context (R : relation state) `{!PreOrder R}.

Lemma keeps_pure {A} (a : A) : keeps R (pure a).
Proof. intros s. reflexivity. Qed.

Lemma keeps_bind {A B} (m : M A) (k : A -> M B) :
  keeps R m -> (forall a, keeps R (k a)) -> keeps R (bind m k).
Proof.
  intros Hm Hk s. rewrite bind_unfold.
  transitivity (snd (m s)); [apply Hm|apply Hk].
Qed.

Lemma keeps_when b m : keeps R m -> keeps R (when b m).
Proof. intros H. destruct b; [exact H|apply keeps_pure]. Qed.

Lemma keeps_for_each {A} (l : list A) (k : A -> M unit) :
  (forall a, keeps R (k a)) -> keeps R (for_each l k).
Proof.
  intros Hk. induction l as [|a l IH]; simpl.
  - apply keeps_pure.
  - apply keeps_bind; [apply Hk|intros _; exact IH].
Qed.

Lemma keeps_foldl {A B} (f : M B -> A -> M B) (l : list A) (acc : M B) :
  (forall acc a, keeps R acc -> keeps R (f acc a)) ->
  keeps R acc -> keeps R (foldl f acc l).
Proof.
  intros Hf. revert acc. induction l as [|a l IH]; intros acc Hacc; simpl.
  - exact Hacc.
  - apply IH, Hf, Hacc.
Qed.

End keeps.

Create HintDb keeps.

#[local] Hint Resolve keeps_pure : keeps.

(** Decompose a computation along its binds, branches and loops. *)
Ltac keeps_step :=
  match goal with
  | |- keeps _ (bind _ _) => apply keeps_bind; [typeclasses eauto| |intros ?]
  | |- keeps _ (when _ _) => apply keeps_when; [typeclasses eauto|]
  | |- keeps _ (for_each _ _) => apply keeps_for_each; [typeclasses eauto|intros ?]
  | |- keeps _ (foldl _ _ _) => apply keeps_foldl; [intros ? ? ?|]
  | |- keeps _ (if ?b then _ else _) => destruct b
  | |- keeps _ (match ?x with _ => _ end) => destruct x
  | |- keeps _ (let '(_, _) := ?x in _) => destruct x
  | |- keeps _ _ => solve [auto with keeps typeclass_instances]
  end.

Ltac keeps_tac := repeat keeps_step.

#[local] Instance ir_reoriented_preorder : PreOrder ir_reoriented.
Proof.
  split.
  - intros s. apply reoriented_refl.
  - intros s1 s2 s3. apply reoriented_trans.
Qed.

Lemma preserves_add st : preserves (add st).
Proof. intros s. apply reoriented_refl. Qed.

Lemma preserves_vfac_get : preserves vfac_get.
Proof. intros s. apply reoriented_refl. Qed.

Lemma preserves_assert b : preserves (assert b).
Proof. intros s. apply reoriented_refl. Qed.

Lemma preserves_get_inst I : preserves (get_inst I).
Proof. intros s. apply reoriented_refl. Qed.

Lemma preserves_get_ir : preserves get_ir.
Proof. intros s. apply reoriented_refl. Qed.

Lemma preserves_normalizeCmpInst I : preserves (normalizeCmpInst I).
Proof.
  intros s. rewrite normalizeCmpInst_run. simpl.
  destruct (ir s !! I) as [i|] eqn:E; simpl.
  - apply reoriented_insert, E.
  - apply reoriented_refl.
Qed.

#[local] Hint Resolve preserves_add preserves_vfac_get
  preserves_assert preserves_get_inst preserves_get_ir
  preserves_normalizeCmpInst : keeps.

Section preserves_visitors.
Context {SE : SymEval} (opts : options) (m_mem : MemAnalysis)
        (m_dl : DataLayout) (func : function) (interproc : bool).

Lemma preserves_gen_assertion neg I : preserves (gen_assertion neg I).
Proof. unfold gen_assertion. keeps_tac. Qed.

Lemma preserves_assume_each neg cs : preserves (assume_each neg cs).
Proof. unfold assume_each. keeps_tac. Qed.

Hint Resolve preserves_gen_assertion preserves_assume_each : keeps.

Lemma preserves_cond_visit bs neg I :
  preserves (SymExecConditionVisitor.visit opts bs neg I).
Proof.
  unfold SymExecConditionVisitor.visit, visitCmpInst, visitBinaryOperator.
  keeps_tac.
Qed.

Hint Resolve preserves_cond_visit : keeps.

Lemma preserves_phi_save inc F BB phis m :
  preserves (SymExecPhiVisitor.save_old_values opts inc F BB phis m).
Proof.
  revert m. induction phis as [|[[phi ty] incoming] phis IH]; intros m; simpl.
  - apply keeps_pure; typeclasses eauto.
  - keeps_tac; apply IH.
Qed.

Lemma preserves_phi_assign inc phis m :
  preserves (SymExecPhiVisitor.assign_phis opts inc phis m).
Proof.
  induction phis as [|[[phi ty] incoming] phis IH]; simpl.
  - apply keeps_pure; typeclasses eauto.
  - keeps_tac; apply IH.
Qed.

Lemma preserves_phi_visit inc BB :
  preserves (SymExecPhiVisitor.visitBasicBlock opts inc BB).
Proof.
  unfold SymExecPhiVisitor.visitBasicBlock.
  keeps_tac; auto using preserves_phi_save, preserves_phi_assign.
Qed.

Lemma preserves_inst_visit I :
  preserves (SymExecVisitor.visit opts m_mem m_dl func interproc I).
Proof.
  unfold SymExecVisitor.visit.
  apply keeps_bind; [typeclasses eauto|auto with keeps|intros [i|]; [|auto with keeps]].
  destruct i; [..|unfold SymExecVisitor.visitInstruction,
                      SymExecVisitor.havoc_if_included; keeps_tac].
  - auto with keeps.
  - unfold SymExecVisitor.visitBinaryOperator, SymExecVisitor.doArithmetic,
      SymExecVisitor.doBitwise, SymExecVisitor.unsigned_arith,
      SymExecVisitor.arith_const_left, SymExecVisitor.shift_factor,
      SymExecVisitor.havoc_if_included.
    keeps_tac.
  - unfold SymExecVisitor.visitExtInst, SymExecVisitor.visitCastInst,
      SymExecVisitor.doCast, SymExecVisitor.havoc_if_included.
    keeps_tac.
  - unfold SymExecVisitor.visitSelectInst. keeps_tac.
  - auto with keeps.
  - unfold SymExecVisitor.visitCallInst, SymExecVisitor.havoc_return_value,
      SymExecVisitor.visit_condition, SymExecVisitor.scalar_actuals,
      SymExecVisitor.ref_actuals, SymExecVisitor.normalizeParam.
    keeps_tac.
  - unfold SymExecVisitor.visitLoadInst, SymExecVisitor.havoc_if_included.
    keeps_tac.
  - unfold SymExecVisitor.visitStoreInst. keeps_tac.
  - unfold SymExecVisitor.visitAllocaInst. keeps_tac.
  - unfold SymExecVisitor.visitGetElementPtrInst, SymExecVisitor.gep_index,
      SymExecVisitor.havoc_if_included.
    keeps_tac.
Qed.

Lemma preserves_visitBlock B :
  preserves (SymExecVisitor.visitBlock opts m_mem m_dl func interproc B).
Proof.
  unfold SymExecVisitor.visitBlock, SymExecVisitor.visitTerminator,
    SymExecVisitor.visitReturnInst.
  keeps_tac. apply preserves_inst_visit.
Qed.

End preserves_visitors.

Lemma foldl_invariant {A B} (P : A -> Prop) (f : A -> B -> A) (l : list B) (a : A) :
  (forall a b, P a -> P (f a b)) -> P a -> P (foldl f a l).
Proof.
  intros Hf. revert a. induction l as [|b l IH]; intros a Ha; simpl; auto.
Qed.

Section preserves_builder.
Import CfgBuilder.
Context {SE : SymEval} (opts : options) (m_mem : MemAnalysis)
        (m_dl : DataLayout) (globals : list GlobalVariable)
        (m_func : function) (interproc : bool).

Lemma visit_into_ir l v st :
  preserves v -> reoriented (b_ir st) (b_ir (visit_into l v st)).
Proof. intros Hv. unfold visit_into; simpl. apply (Hv (State _ _ _ _)). Qed.

Lemma execBr_ir st src dst :
  reoriented (b_ir st) (b_ir (snd (execBr opts m_func st src dst))).
Proof.
  unfold execBr. destruct (bb_term src); simpl; try apply reoriented_refl.
  - unfold add_edge. repeat (destruct (lookup_block _ _)); apply reoriented_refl.
  - repeat (destruct (lookup_block _ _)); simpl; try apply reoriented_refl.
    apply (visit_into_ir _ _ (add_block_in_between _ _ _ _)).
    unfold branch_condition. keeps_tac. apply preserves_cond_visit.
Qed.

Lemma translate_edge_ir B BB st dst :
  reoriented (b_ir st) (b_ir (translate_edge opts m_func B BB st dst)).
Proof.
  unfold translate_edge.
  pose proof (execBr_ir st B dst) as H.
  destruct (execBr opts m_func st B dst) as [mid st']. simpl in H.
  destruct (find_block m_func dst); [|exact H].
  eapply reoriented_trans; [exact H|].
  apply visit_into_ir, preserves_phi_visit.
Qed.

Lemma translate_block_ir F acc B :
  reoriented F (b_ir (fst acc)) ->
  reoriented F (b_ir (fst (translate_block opts m_mem m_dl m_func interproc acc B))).
Proof.
  destruct acc as [st rets]. simpl. intros H.
  unfold translate_block.
  set (st1 := visit_into _ _ _).
  assert (H1 : reoriented F (b_ir st1)).
  { eapply reoriented_trans; [exact H|].
    apply (visit_into_ir _ _ (builder_assert st _)), preserves_visitBlock. }
  destruct (isa_ReturnInst (bb_term B)); simpl; [exact H1|].
  apply foldl_invariant; [|exact H1].
  intros a b Ha. eapply reoriented_trans; [exact Ha|apply translate_edge_ir].
Qed.

Lemma translate_blocks_ir F :
  reoriented F (b_ir (fst (translate_blocks opts m_mem m_dl m_func interproc F))).
Proof.
  unfold translate_blocks.
  apply (foldl_invariant (fun acc => reoriented F (b_ir (fst acc)))).
  - intros acc B. apply translate_block_ir.
  - simpl.
    apply (foldl_invariant (fun st => reoriented F (b_ir st)));
      [intros a b Ha; exact Ha|apply reoriented_refl].
Qed.

Lemma unify_returns_ir st rets : b_ir (unify_returns st rets) = b_ir st.
Proof. destruct rets as [|r [|r' rets]]; reflexivity. Qed.

Lemma init_globals_ir st : b_ir (init_globals m_mem globals m_func st) = b_ir st.
Proof.
  unfold init_globals.
  apply (foldl_invariant (fun st' => b_ir st' = b_ir st)); [|reflexivity].
  intros a gv Ha. destruct (gv_initializer gv); [|exact Ha].
  destruct (_ <? 0); exact Ha.
Qed.

Lemma init_new_arrays_ir st : b_ir (init_new_arrays m_mem m_func st) = b_ir st.
Proof.
  unfold init_new_arrays.
  destruct (getRefModNewArraysFn m_mem (f_name m_func)) as [[refs mods] news].
  apply (foldl_invariant (fun st' => b_ir st' = b_ir st)); [|reflexivity].
  intros a n Ha. exact Ha.
Qed.

Lemma ref_formals_ir st refs : b_ir (fst (ref_formals st refs)) = b_ir st.
Proof.
  unfold ref_formals.
  apply (foldl_invariant (fun acc => b_ir (fst acc) = b_ir st)); [|reflexivity].
  intros [a ps] n Ha. exact Ha.
Qed.

Lemma add_function_declaration_ir st :
  b_ir (add_function_declaration opts m_mem m_func st) = b_ir st.
Proof.
  unfold add_function_declaration.
  destruct (bool_decide _ && _); [|reflexivity].
  destruct (getRefModNewArraysFn m_mem (f_name m_func)) as [[refs mods] news].
  pose proof (ref_formals_ir (builder_assert st (negb (f_isVarArg m_func))) refs) as H.
  destruct (ref_formals _ refs) as [st' ins]. exact H.
Qed.

Lemma build_cfg_ir F :
  reoriented F (b_ir (build_cfg opts m_mem m_dl globals m_func interproc F)).
Proof.
  unfold build_cfg.
  pose proof (translate_blocks_ir F) as H.
  destruct (translate_blocks opts m_mem m_dl m_func interproc F) as [st rets].
  simpl in H.
  destruct interproc; rewrite ?add_function_declaration_ir;
    destruct (bool_decide (getTrackLevel m_mem = ARR));
    rewrite ?init_new_arrays_ir;
    destruct (String.eqb (f_name m_func) "main");
    rewrite ?init_globals_ir, ?unify_returns_ir; exact H.
Qed.

End preserves_builder.

Lemma normalizeCmp_cases p a b :
  normalizeCmp (CmpInst p a b) =
  match p with
  | ICMP_UGT | ICMP_SGT | ICMP_UGE | ICMP_SGE =>
      CmpInst (getSwappedPredicate p) b a
  | _ => CmpInst p a b
  end.
Proof. destruct p; reflexivity. Qed.

Lemma normalizeCmp_value w val i :
  cmp_value w val (normalizeCmp i) = cmp_value w val i.
Proof. destruct i as [[]| | | | | | | | | |]; reflexivity. Qed.

Lemma normalizeCmp_other i :
  (forall p a b, i <> CmpInst p a b) -> normalizeCmp i = i.
Proof. destruct i; try reflexivity. intros H. destruct (H p op0 op1 eq_refl). Qed.

(** C6, counterexample.  Translating a function whose branch is on
    [%c = icmp sgt %a, %b] leaves [icmp slt %b, %a] in its place: the
    instruction is not the one it was. *)
Lemma translation_reorients_sgt :
  let F' := CfgBuilder.b_ir
              (CfgBuilder.build_cfg (SE := spec_SymEval REGISTERS) Examples.opts
                 (Examples.mem REGISTERS ([], [], [])) Examples.dl []
                 Examples.sgt_func false Examples.sgt_body) in
  Examples.sgt_body !! "c"
  = Some (CmpInst ICMP_SGT (Argument "a" Examples.i32) (Argument "b" Examples.i32))
  /\ F' !! "c"
     = Some (CmpInst ICMP_SLT (Argument "b" Examples.i32) (Argument "a" Examples.i32))
  /\ F' !! "c" <> Examples.sgt_body !! "c".
Proof.
  cbv zeta. split; [reflexivity|]. split; [vm_compute; reflexivity|].
  intros H. vm_compute in H. discriminate H.
Qed.

(** C6, amended.  The translation changes the IR only by normalizing
    compares: after translating a function every instruction is the one
    it was, or the normal form of the compare it was.  Normalizing keeps
    every instruction that is not a compare and every compare whose
    predicate is not UGT, SGT, UGE or SGE; it replaces the others by the
    compare with swapped operands and swapped predicate, which has the
    same value on all operand values.  Generating the constraints of a
    compare changes that compare only, to its normal form. *)
Theorem translation_only_normalizes_compares :
  (forall (SE : SymEval) opts m_mem m_dl globals m_func interproc F x,
      let F' := CfgBuilder.b_ir
                  (CfgBuilder.build_cfg opts m_mem m_dl globals m_func interproc F) in
      F' !! x = F !! x \/ F' !! x = normalizeCmp <$> F !! x) /\
  (forall i, (forall p a b, i <> CmpInst p a b) -> normalizeCmp i = i) /\
  (forall p a b,
      normalizeCmp (CmpInst p a b) =
      match p with
      | ICMP_UGT | ICMP_SGT | ICMP_UGE | ICMP_SGE =>
          CmpInst (getSwappedPredicate p) b a
      | _ => CmpInst p a b
      end) /\
  (forall w val i, cmp_value w val (normalizeCmp i) = cmp_value w val i) /\
  (forall (SE : SymEval) neg I i s,
      ir s !! I = Some i ->
      ir (snd (gen_assertion neg I s)) = <[I := normalizeCmp i]> (ir s)).
Proof.
  split; [intros; apply build_cfg_ir|].
  split; [exact normalizeCmp_other|].
  split; [exact normalizeCmp_cases|].
  split; [exact normalizeCmp_value|].
  intros SE neg I i s HI. rewrite gen_assertion_ir, HI. reflexivity.
Qed.

(** Generating the constraints of [icmp sgt %a, %b] normalizes it. *)
Lemma translation_only_normalizes_compares_witness :
  ir (snd (gen_assertion (SE := spec_SymEval REGISTERS) false "c"
             (Examples.start Examples.sgt_body)))
  = <["c" := normalizeCmp
               (CmpInst ICMP_SGT (Argument "a" Examples.i32)
                  (Argument "b" Examples.i32))]>
      (ir (Examples.start Examples.sgt_body)).
Proof.
  apply (proj2 (proj2 (proj2 (proj2 translation_only_normalizes_compares)))
           (spec_SymEval REGISTERS) false "c").
  reflexivity.
Defined.

(** ** Calls and the arrays they modify *)

#[local] Instance appends_preorder : PreOrder appends.
Proof.
  split.
  - intros s. exists []. symmetry. apply app_nil_r.
  - intros s1 s2 s3 [l1 H1] [l2 H2]. exists (l1 ++ l2).
    rewrite H2, H1, app_assoc. reflexivity.
Qed.

Lemma appends_add st : keeps appends (add st).
Proof. intros s. exists [st]. reflexivity. Qed.

Lemma appends_vfac_get : keeps appends vfac_get.
Proof. intros s. exists []. simpl. symmetry. apply app_nil_r. Qed.

Lemma appends_assert b : keeps appends (assert b).
Proof. intros s. exists []. simpl. symmetry. apply app_nil_r. Qed.

Lemma appends_get_inst I : keeps appends (get_inst I).
Proof. intros s. exists []. simpl. symmetry. apply app_nil_r. Qed.

Lemma appends_get_ir : keeps appends get_ir.
Proof. intros s. exists []. simpl. symmetry. apply app_nil_r. Qed.

Lemma appends_normalizeCmpInst I : keeps appends (normalizeCmpInst I).
Proof.
  intros s. rewrite normalizeCmpInst_run. simpl.
  destruct (ir s !! I); simpl; exists []; symmetry; apply app_nil_r.
Qed.

#[local] Hint Resolve appends_add appends_vfac_get appends_assert
  appends_get_inst appends_get_ir appends_normalizeCmpInst : keeps.

Lemma for_each_add {A} (f : A -> statement) (l : list A) (s : state) :
  for_each l (fun a => add (f a)) s
  = (tt, State (ir s) (m_vfac s) (m_bb s ++ map f l) (aborted s)).
Proof.
  revert s. induction l as [|a l IH]; intros s; simpl.
  - unfold pure. rewrite app_nil_r, state_eta. reflexivity.
  - rewrite bind_unfold, IH. unfold add; simpl.
    rewrite <- app_assoc. reflexivity.
Qed.

Lemma havoc_return_value_run {SE : SymEval} opts I ty s :
  SymExecVisitor.havoc_return_value opts I ty s
  = (tt, State (ir s) (m_vfac s)
           (m_bb s ++
            if isTracked (Inst I ty) && negb (isVoidTy ty) && LlvmIncludeHavoc opts
            then [havoc (name_for_value I)] else [])
           (aborted s)).
Proof.
  unfold SymExecVisitor.havoc_return_value, when.
  destruct (isTracked (Inst I ty)), (negb (isVoidTy ty)), (LlvmIncludeHavoc opts);
    simpl; unfold pure, add; simpl; rewrite ?app_nil_r, ?state_eta; reflexivity.
Qed.

Lemma visitCallInst_ordinary {SE : SymEval} opts m_mem func interproc
    I ty c args :
  handled_specially func c = false ->
  SymExecVisitor.visitCallInst opts m_mem func interproc I ty (Some c) args
  = if negb interproc || fn_isVarArg c then
      do _ <- SymExecVisitor.havoc_return_value opts I ty;
      if bool_decide (getTrackLevel m_mem = ARR) then
        let '(_, mods, _) := getRefModNewArrays m_mem I in
        for_each mods (fun a => add (havoc (symVarArr a)))
      else pure tt
    else
      do scalars <- SymExecVisitor.scalar_actuals opts args;
      do actuals <-
        (if bool_decide (getTrackLevel m_mem = ARR) then
           let '(refs, mods, news) := getRefModNewArrays m_mem I in
           do ins <- SymExecVisitor.ref_actuals refs;
           pure (scalars ++ ins
                 ++ map (fun a => (symVarArr a, ARR_TYPE)) refs
                 ++ map (fun a => (symVarArr a, ARR_TYPE)) news)
         else pure scalars);
      if negb (bool_decide (getVariableType ty = UNK_TYPE))
         && isTracked (Inst I ty)
         && (negb (LlvmCrabNoPtrArith opts) || isIntegerTy ty)
      then add (callsite (Some (name_for_value I, getVariableType ty))
                  (name_for_function (fn_name c)) actuals)
      else add (callsite None (name_for_function (fn_name c)) actuals).
Proof.
  unfold handled_specially, SymExecVisitor.visitCallInst.
  intros H. repeat (apply orb_false_iff in H; destruct H as [H ?]).
  rewrite H.
  repeat match goal with E : _ = false |- _ => rewrite E; clear E end.
  reflexivity.
Qed.

Lemma appends_scalar_actuals {SE : SymEval} opts args :
  keeps appends (SymExecVisitor.scalar_actuals opts args).
Proof.
  unfold SymExecVisitor.scalar_actuals, SymExecVisitor.normalizeParam.
  keeps_tac.
Qed.

Lemma appends_ref_actuals refs :
  keeps appends (SymExecVisitor.ref_actuals refs).
Proof. unfold SymExecVisitor.ref_actuals. keeps_tac. Qed.

(** C4, counterexample.  In ARRAYS mode and inter-procedural mode, a call
    to [g] whose mod-set is the array 7 is translated to the callsite
    statement alone: no havoc of the array follows it. *)
Lemma interproc_call_does_not_havoc_mods :
  let m := Examples.mem ARR ([], [7], []) in
  let out :=
    m_bb (snd (SymExecVisitor.visit (SE := spec_SymEval ARR) Examples.opts m
                 Examples.dl (Examples.empty_func "f" []) true "k"
                 (Examples.start Examples.g_call_body))) in
  getTrackLevel m = ARR
  /\ snd (fst (getRefModNewArrays m "k")) = [7]
  /\ out = [callsite None (name_for_function "g") []]
  /\ havoc (symVarArr 7) ∉ out.
Proof.
  cbv zeta. split; [reflexivity|]. split; [reflexivity|].
  split; [vm_compute; reflexivity|].
  intros H. vm_compute in H. apply list_elem_of_In in H.
  destruct H as [H|[]]. discriminate H.
Qed.

(** C4, amended.  In ARRAYS mode, for a call to a known function that is
    not handled specially: when the call is not translated to a callsite
    statement (inter-procedural mode off, or variadic callee) the block
    receives the havoc of the returned value, if any, and then a havoc of
    every array of the mod-set of the call, in order; otherwise the block
    receives statements that end with the callsite statement, so that no
    havoc follows it. *)
Theorem call_havocs_mods_or_ends_with_callsite :
  forall (SE : SymEval) opts m_mem m_dl func interproc I ty c args s,
    ir s !! I = Some (CallInst ty (Some c) args) ->
    getTrackLevel m_mem = ARR ->
    handled_specially func c = false ->
    let s' := snd (SymExecVisitor.visit opts m_mem m_dl func interproc I s) in
    let mods := snd (fst (getRefModNewArrays m_mem I)) in
    if negb interproc || fn_isVarArg c then
      m_bb s' =
      m_bb s
      ++ (if isTracked (Inst I ty) && negb (isVoidTy ty) && LlvmIncludeHavoc opts
          then [havoc (name_for_value I)] else [])
      ++ map (fun a => havoc (symVarArr a)) mods
    else
      exists pre r actuals,
        m_bb s' =
        m_bb s ++ pre ++ [callsite r (name_for_function (fn_name c)) actuals].
Proof.
  intros SE opts m_mem m_dl func interproc I ty c args s HI HARR Hc.
  cbv zeta. unfold SymExecVisitor.visit. rewrite bind_unfold.
  unfold get_inst at 1 2; simpl. rewrite HI.
  rewrite (visitCallInst_ordinary _ _ _ _ _ _ _ _ Hc).
  destruct (negb interproc || fn_isVarArg c).
  - rewrite bind_unfold, havoc_return_value_run.
    rewrite HARR, bool_decide_eq_true_2 by reflexivity. simpl.
    destruct (getRefModNewArrays m_mem I) as [[refs mods] news]. simpl.
    rewrite for_each_add. simpl. rewrite <- app_assoc. reflexivity.
  - rewrite bind_unfold.
    destruct (appends_scalar_actuals opts args s) as [l1 H1].
    set (s1 := snd (SymExecVisitor.scalar_actuals opts args s)) in *.
    set (scalars := fst (SymExecVisitor.scalar_actuals opts args s)).
    rewrite bind_unfold.
    match goal with
    | |- context [snd (?m s1)] =>
        assert (Hs2 : appends s1 (snd (m s1)));
        [|set (s2 := snd (m s1)) in *; set (actuals := fst (m s1))]
    end.
    { rewrite HARR, bool_decide_eq_true_2 by reflexivity.
      destruct (getRefModNewArrays m_mem I) as [[refs mods] news].
      apply keeps_bind; [typeclasses eauto|apply appends_ref_actuals|].
      intros ins. apply keeps_pure. typeclasses eauto. }
    destruct Hs2 as [l2 H2].
    destruct (negb _ && _ && _); unfold add; simpl;
      eexists (l1 ++ l2), _, actuals;
      rewrite H2, H1, <- !app_assoc; reflexivity.
Qed.

(** A call to [g] with mod-set [7], not in inter-procedural mode. *)
Lemma call_havocs_mods_or_ends_with_callsite_witness :
  m_bb (snd (SymExecVisitor.visit (SE := spec_SymEval ARR) Examples.opts
               (Examples.mem ARR ([], [7], [])) Examples.dl
               (Examples.empty_func "f" []) false "k"
               (Examples.start Examples.g_call_body)))
  = [] ++ [] ++ [havoc (symVarArr 7)].
Proof.
  apply (call_havocs_mods_or_ends_with_callsite (spec_SymEval ARR)
           Examples.opts (Examples.mem ARR ([], [7], [])) Examples.dl
           (Examples.empty_func "f" []) false "k" VoidTy
           (Callee "g" false false false) [] (Examples.start Examples.g_call_body)).
  - reflexivity.
  - reflexivity.
  - reflexivity.
Defined.

(** ** Nodes and edges of the graph *)

Lemma get_node_None bs l : get_node bs l = None <-> l ∉ map fst bs.
Proof.
  induction bs as [|[l' b] bs IH]; simpl.
  - split; [intros _; apply not_elem_of_nil|reflexivity].
  - rewrite not_elem_of_cons. destruct (decide (l' = l)) as [->|Hne].
    + split; [discriminate|intros [H _]; destruct (H eq_refl)].
    + rewrite IH. split; [intros H; split; [congruence|exact H]|intros [_ H]; exact H].
Qed.

Lemma get_node_is_Some bs l : is_Some (get_node bs l) <-> l ∈ map fst bs.
Proof.
  rewrite <- not_eq_None_Some, get_node_None.
  destruct (decide (l ∈ map fst bs)); tauto.
Qed.

Lemma labels_update_node bs l f : map fst (update_node bs l f) = map fst bs.
Proof.
  induction bs as [|[l' b] bs IH]; simpl; [reflexivity|].
  destruct (decide (l' = l)); simpl; [reflexivity|]. rewrite IH. reflexivity.
Qed.

Lemma get_node_update_node bs l f l' :
  get_node (update_node bs l f) l' =
  if decide (l = l') then f <$> get_node bs l' else get_node bs l'.
Proof.
  induction bs as [|[l0 b] bs IH]; simpl.
  - destruct (decide (l = l')); reflexivity.
  - destruct (decide (l0 = l)) as [E1|E1]; simpl;
      destruct (decide (l0 = l')) as [E2|E2];
      destruct (decide (l = l')) as [E3|E3];
      try congruence; try reflexivity.
    all: rewrite IH;
      first [rewrite decide_True by assumption
            |rewrite decide_False by assumption]; reflexivity.
Qed.

Lemma labels_insert g l l' :
  l' ∈ labels (insert g l) <-> l' ∈ labels g \/ l' = l.
Proof.
  unfold insert, labels. destruct (get_node (blocks g) l) eqn:E; simpl.
  - assert (l ∈ map fst (blocks g)) by (apply get_node_is_Some; eauto).
    split; [auto|intros [H'| ->]; assumption].
  - rewrite map_app, elem_of_app. simpl. rewrite list_elem_of_singleton.
    reflexivity.
Qed.

Lemma labels_add_succ g a b : labels (add_succ g a b) = labels g.
Proof. unfold add_succ, labels; simpl. rewrite !labels_update_node. reflexivity. Qed.

Lemma labels_remove_succ g a b : labels (remove_succ g a b) = labels g.
Proof. unfold remove_succ, labels; simpl. rewrite !labels_update_node. reflexivity. Qed.

Lemma is_node_labels g l : is_node g l <-> l ∈ labels g.
Proof. apply get_node_is_Some. Qed.

Lemma has_edge_succs g a b :
  has_edge g a b <-> exists ns, succs_of g a = Some ns /\ b ∈ ns.
Proof.
  unfold has_edge, succs_of. split.
  - intros [n [-> Hb]]. eauto.
  - intros [ns [H Hb]]. destruct (get_node (blocks g) a) as [n|]; [|discriminate].
    inversion H; subst. eauto.
Qed.

Lemma elem_of_insert_adjacent ls l l' :
  l' ∈ insert_adjacent ls l <-> l' ∈ ls \/ l' = l.
Proof.
  unfold insert_adjacent. destruct (decide (l ∈ ls)).
  - split; [auto|intros [H| ->]; assumption].
  - rewrite elem_of_app, list_elem_of_singleton. reflexivity.
Qed.

Lemma succs_of_add_succ g a b l :
  succs_of (add_succ g a b) l =
  if decide (a = l) then (fun ns => insert_adjacent ns b) <$> succs_of g l
  else succs_of g l.
Proof.
  unfold succs_of, add_succ; simpl. rewrite !get_node_update_node.
  destruct (decide (b = l)), (decide (a = l));
    destruct (get_node (blocks g) l); reflexivity.
Qed.

Lemma has_edge_add_succ g a b :
  a ∈ labels g -> has_edge (add_succ g a b) a b.
Proof.
  intros Ha. apply has_edge_succs. rewrite succs_of_add_succ, decide_True by reflexivity.
  apply get_node_is_Some in Ha. destruct Ha as [n Hn].
  unfold succs_of. rewrite Hn. simpl. eexists; split; [reflexivity|].
  apply elem_of_insert_adjacent. auto.
Qed.

Lemma has_edge_add_succ_mono g a b c d :
  has_edge g c d -> has_edge (add_succ g a b) c d.
Proof.
  rewrite !has_edge_succs. intros [ns [H Hd]]. rewrite succs_of_add_succ.
  destruct (decide (a = c)); [|eauto].
  rewrite H. simpl. eexists; split; [reflexivity|].
  apply elem_of_insert_adjacent. auto.
Qed.

(** ** Nodes of the builder's graph during the translation *)

Section builder_nodes.
Import CfgBuilder.
Context {SE : SymEval} (opts : options) (m_mem : MemAnalysis)
        (m_dl : DataLayout) (globals : list GlobalVariable)
        (m_func : function) (interproc : bool).

Lemma grows_refl st : grows st st.
Proof. split; [auto|]. split; [auto|lia]. Qed.

Lemma grows_trans st1 st2 st3 : grows st1 st2 -> grows st2 st3 -> grows st1 st3.
Proof.
  intros (A1 & B1 & C1) (A2 & B2 & C2). split; [auto|]. split; [|lia].
  intros l Hl. destruct (B2 l Hl) as [H2|(n & -> & Hn)].
  - destruct (B1 l H2) as [H1|(n & -> & Hn)]; [auto|].
    right. exists n. split; [reflexivity|lia].
  - right. exists n. split; [reflexivity|lia].
Qed.

Lemma grows_same st st' :
  blabels st' = blabels st -> m_extra_blks st' = m_extra_blks st -> grows st st'.
Proof.
  intros Hl He. unfold grows. rewrite Hl, He.
  split; [auto|]. split; [auto|lia].
Qed.

Lemma grows_visit_into l v st : grows st (visit_into l v st).
Proof.
  apply grows_same; [|reflexivity].
  unfold blabels, visit_into, labels; simpl. apply labels_update_node.
Qed.

Lemma grows_add_edge st a b : grows st (add_edge st a b).
Proof.
  unfold add_edge. destruct (lookup_block st a), (lookup_block st b);
    apply grows_same; try reflexivity.
  unfold blabels; simpl. apply labels_add_succ.
Qed.

Lemma grows_execBr st src dst : grows st (snd (execBr opts m_func st src dst)).
Proof.
  unfold execBr. destruct (bb_term src); simpl; try apply grows_refl.
  - apply grows_add_edge.
  - destruct (lookup_block st (bb_name src)) as [Src|]; simpl;
      [|apply grows_same; reflexivity].
    destruct (lookup_block st dst) as [Dst|]; simpl;
      [|apply grows_same; reflexivity].
    eapply grows_trans; [|apply grows_visit_into].
    unfold grows, blabels, add_block_in_between; simpl.
    rewrite !labels_add_succ, labels_remove_succ, length_app. simpl.
    split; [|split; [|lia]].
    + intros l Hl. apply labels_insert. auto.
    + intros l Hl. apply labels_insert in Hl. destruct Hl as [Hl| ->]; [auto|].
      right. eexists; split; [reflexivity|lia].
Qed.

Lemma grows_translate_edge B BB st dst :
  grows st (translate_edge opts m_func B BB st dst).
Proof.
  unfold translate_edge.
  pose proof (grows_execBr st B dst) as H.
  destruct (execBr opts m_func st B dst) as [mid st']. simpl in H.
  destruct (find_block m_func dst); [|exact H].
  eapply grows_trans; [exact H|apply grows_visit_into].
Qed.

Lemma grows_translate_block acc B :
  grows (fst acc)
    (fst (translate_block opts m_mem m_dl m_func interproc acc B)).
Proof.
  destruct acc as [st rets]. simpl. unfold translate_block.
  set (st1 := visit_into _ _ _).
  assert (H1 : grows st st1).
  { eapply grows_trans; [|apply grows_visit_into].
    apply grows_same; reflexivity. }
  destruct (isa_ReturnInst (bb_term B)); simpl; [exact H1|].
  apply (foldl_invariant (fun st' => grows st st')); [|exact H1].
  intros a b Ha. eapply grows_trans; [exact Ha|apply grows_translate_edge].
Qed.

Lemma translate_block_rets acc B :
  snd (translate_block opts m_mem m_dl m_func interproc acc B)
  = snd acc ++ (if isa_ReturnInst (bb_term B) then [llvm_block (bb_name B)] else []).
Proof.
  destruct acc as [st rets]. unfold translate_block; simpl.
  destruct (isa_ReturnInst (bb_term B)); simpl; [reflexivity|].
  rewrite app_nil_r. reflexivity.
Qed.

Lemma foldl_translate_block bs acc :
  let r := foldl (translate_block opts m_mem m_dl m_func interproc) acc bs in
  grows (fst acc) (fst r) /\
  snd r = snd acc ++ map (fun B => llvm_block (bb_name B))
                       (List.filter (fun B => isa_ReturnInst (bb_term B)) bs).
Proof.
  revert acc. induction bs as [|B bs IH]; intros acc; simpl.
  - split; [apply grows_refl|]. rewrite app_nil_r. reflexivity.
  - destruct (IH (translate_block opts m_mem m_dl m_func interproc acc B))
      as [Hg Hr].
    split.
    + eapply grows_trans; [apply grows_translate_block|exact Hg].
    + rewrite Hr, translate_block_rets, <- app_assoc.
      destruct (isa_ReturnInst (bb_term B)); reflexivity.
Qed.

Lemma foldl_add_block bs st :
  let st' := foldl add_block st bs in
  (forall l, l ∈ blabels st' <->
             l ∈ blabels st \/ exists B, B ∈ bs /\ l = llvm_block (bb_name B)) /\
  m_extra_blks st' = m_extra_blks st.
Proof.
  revert st. induction bs as [|B bs IH]; intros st; simpl.
  - split; [|reflexivity]. intros l. split; [auto|].
    intros [H|(B & HB & _)]; [exact H|]. apply elem_of_nil in HB. destruct HB.
  - destruct (IH (add_block st B)) as [Hl He]. split; [|exact He].
    intros l. rewrite Hl. unfold blabels at 1, add_block at 1. simpl.
    rewrite labels_insert. split.
    + intros [[H| ->]|(B' & HB' & ->)]; [auto| |].
      * right. exists B. split; [apply list_elem_of_here|reflexivity].
      * right. exists B'. split; [apply list_elem_of_further, HB'|reflexivity].
    + intros [H|(B' & HB' & ->)]; [auto|].
      apply elem_of_cons in HB'. destruct HB' as [->|HB']; [auto|].
      right. exists B'. auto.
Qed.

(** After the two loops every block of the function is a node, every
    extra node is one of the extra blocks created so far, and the returning
    blocks are the ones collected. *)
Lemma translate_blocks_nodes F :
  let r := translate_blocks opts m_mem m_dl m_func interproc F in
  (forall B, B ∈ f_blocks m_func -> llvm_block (bb_name B) ∈ blabels (fst r)) /\
  (forall n, extra_block n ∈ blabels (fst r) ->
             (n < length (m_extra_blks (fst r)))%nat) /\
  snd r = returning_blocks m_func.
Proof.
  unfold translate_blocks.
  destruct (foldl_add_block (f_blocks m_func) (initial m_func F)) as [Hl He].
  destruct (foldl_translate_block (f_blocks m_func)
              (foldl add_block (initial m_func F) (f_blocks m_func), []))
    as [(G1 & G2 & G3) Hr].
  simpl in *. split; [|split; [|exact Hr]].
  - intros B HB. apply G1, Hl. right. eauto.
  - intros n Hn. destruct (G2 _ Hn) as [H|(n' & E & Hlt)].
    + apply Hl in H. destruct H as [H|(B & _ & E)]; [|discriminate E].
      apply elem_of_nil in H. destruct H.
    + inversion E; subst. lia.
Qed.

End builder_nodes.

(** ** The exit of the graph *)

Section exit.
Import CfgBuilder.
Context {SE : SymEval} (opts : options) (m_mem : MemAnalysis)
        (m_dl : DataLayout) (globals : list GlobalVariable)
        (m_func : function) (interproc : bool).

Lemma same_graph_refl g : same_graph g g.
Proof. repeat split. Qed.

Lemma same_graph_trans g1 g2 g3 :
  same_graph g1 g2 -> same_graph g2 g3 -> same_graph g1 g3.
Proof.
  intros (A1 & B1 & C1) (A2 & B2 & C2).
  split; [congruence|]. split; [congruence|].
  intros l. rewrite C2. apply C1.
Qed.

Lemma same_graph_update_entry st f :
  (forall b, next_blocks (f b) = next_blocks b) ->
  same_graph (m_cfg st) (m_cfg (update_entry st f)).
Proof.
  intros Hf. unfold update_entry, same_graph, labels, succs_of; simpl.
  split; [reflexivity|]. split; [apply labels_update_node|].
  intros l. rewrite get_node_update_node.
  destruct (decide (entry (m_cfg st) = l)); [|reflexivity].
  destruct (get_node (blocks (m_cfg st)) l); simpl; [|reflexivity].
  rewrite Hf. reflexivity.
Qed.

Lemma next_blocks_insert_stmt b s : next_blocks (insert_stmt b s) = next_blocks b.
Proof. unfold insert_stmt. destruct (insert_point_at_front b); reflexivity. Qed.

Lemma next_blocks_doInitializer init b a :
  next_blocks (doInitializer init b a) = next_blocks b.
Proof.
  induction init; simpl; try reflexivity.
  - apply next_blocks_insert_stmt.
  - destruct (isIntegerTy elementTy); [apply next_blocks_insert_stmt|reflexivity].
  - exact IHinit.
Qed.

Lemma same_graph_init_globals st :
  same_graph (m_cfg st) (m_cfg (init_globals m_mem globals m_func st)).
Proof.
  unfold init_globals.
  apply (foldl_invariant (fun st' => same_graph (m_cfg st) (m_cfg st')));
    [|apply same_graph_refl].
  intros a gv Ha. destruct (gv_initializer gv); [|exact Ha].
  destruct (_ <? 0); [exact Ha|].
  eapply same_graph_trans; [exact Ha|]. apply same_graph_update_entry.
  intros b. rewrite next_blocks_doInitializer. reflexivity.
Qed.

Lemma same_graph_init_new_arrays st :
  same_graph (m_cfg st) (m_cfg (init_new_arrays m_mem m_func st)).
Proof.
  unfold init_new_arrays.
  destruct (getRefModNewArraysFn m_mem (f_name m_func)) as [[refs mods] news].
  apply (foldl_invariant (fun st' => same_graph (m_cfg st) (m_cfg st')));
    [|apply same_graph_refl].
  intros a n Ha. eapply same_graph_trans; [exact Ha|].
  apply same_graph_update_entry. intros b.
  rewrite next_blocks_insert_stmt. reflexivity.
Qed.

Lemma same_graph_ref_formals st refs :
  same_graph (m_cfg st) (m_cfg (fst (ref_formals st refs))).
Proof.
  unfold ref_formals.
  apply (foldl_invariant (fun acc => same_graph (m_cfg st) (m_cfg (fst acc))));
    [|apply same_graph_refl].
  intros [a ps] n Ha. simpl in *. eapply same_graph_trans; [exact Ha|].
  apply (same_graph_update_entry
           (Builder (b_ir a) (b_vfac a + 1) (b_aborted a) (m_cfg a)
              (m_bb_map a) (m_extra_blks a))).
  intros b. rewrite next_blocks_insert_stmt. reflexivity.
Qed.

Lemma same_graph_add_function_declaration st :
  same_graph (m_cfg st) (m_cfg (add_function_declaration opts m_mem m_func st)).
Proof.
  unfold add_function_declaration.
  destruct (bool_decide _ && _); [|repeat split].
  destruct (getRefModNewArraysFn m_mem (f_name m_func)) as [[refs mods] news].
  pose proof (same_graph_ref_formals
                (builder_assert st (negb (f_isVarArg m_func))) refs) as H.
  destruct (ref_formals _ refs) as [st' ins]. simpl in H.
  eapply same_graph_trans; [exact H|]. repeat split.
Qed.

(** The statements added after the returns are unified leave the exit,
    the nodes and the edges as they are. *)
Lemma build_cfg_graph F :
  let r := translate_blocks opts m_mem m_dl m_func interproc F in
  same_graph (m_cfg (unify_returns (fst r) (snd r)))
    (m_cfg (build_cfg opts m_mem m_dl globals m_func interproc F)).
Proof.
  cbv zeta. unfold build_cfg.
  destruct (translate_blocks opts m_mem m_dl m_func interproc F) as [st rets].
  simpl. set (st1 := unify_returns st rets).
  assert (H2 : same_graph (m_cfg st1)
                 (m_cfg (if bool_decide (getTrackLevel m_mem = ARR)
                         then init_new_arrays m_mem m_func
                                (if String.eqb (f_name m_func) "main"
                                 then init_globals m_mem globals m_func st1
                                 else st1)
                         else st1))).
  { destruct (bool_decide _); [|apply same_graph_refl].
    eapply same_graph_trans; [|apply same_graph_init_new_arrays].
    destruct (String.eqb _ _);
      [apply same_graph_init_globals|apply same_graph_refl]. }
  destruct interproc; [|exact H2].
  eapply same_graph_trans; [exact H2|apply same_graph_add_function_declaration].
Qed.

Lemma foldl_add_succ_labels l rets g :
  labels (foldl (fun g r => add_succ g r l) g rets) = labels g.
Proof.
  revert g. induction rets as [|r rets IH]; intros g; simpl; [reflexivity|].
  rewrite IH. apply labels_add_succ.
Qed.

Lemma foldl_add_succ_mono l rets g a b :
  has_edge g a b -> has_edge (foldl (fun g r => add_succ g r l) g rets) a b.
Proof.
  revert g. induction rets as [|r rets IH]; intros g H; simpl; [exact H|].
  apply IH, has_edge_add_succ_mono, H.
Qed.

Lemma foldl_add_succ_edges l rets g :
  (forall r, r ∈ rets -> r ∈ labels g) ->
  forall r, r ∈ rets ->
    has_edge (foldl (fun g r => add_succ g r l) g rets) r l.
Proof.
  revert g. induction rets as [|r0 rets IH]; intros g Hn r Hr; simpl.
  - apply elem_of_nil in Hr. destruct Hr.
  - apply elem_of_cons in Hr. destruct Hr as [->|Hr].
    + apply foldl_add_succ_mono, has_edge_add_succ, Hn, list_elem_of_here.
    + apply IH; [|exact Hr]. intros r' Hr'. rewrite labels_add_succ.
      apply Hn, list_elem_of_further, Hr'.
Qed.

Lemma has_edge_same_graph g g' a b :
  same_graph g g' -> has_edge g a b -> has_edge g' a b.
Proof.
  intros (_ & _ & Hs). rewrite !has_edge_succs, Hs. auto.
Qed.

Lemma returning_blocks_are_blocks r :
  r ∈ returning_blocks m_func ->
  exists B, B ∈ f_blocks m_func /\ r = llvm_block (bb_name B).
Proof.
  unfold returning_blocks. intros H. apply list_elem_of_fmap in H.
  destruct H as (B & -> & HB). exists B. split; [|reflexivity].
  apply list_elem_of_In in HB. apply filter_In in HB.
  apply list_elem_of_In, HB.
Qed.

(** C5.  A function with at least one returning block gets exactly one
    exit, which is a node of the graph: with a single returning block the
    exit is that block; with two or more it is an extra block that was not
    a node before the returns were unified, and every returning block has
    an edge to it. *)
Theorem build_cfg_has_one_exit :
  forall F,
    let rets := returning_blocks m_func in
    let before :=
      m_cfg (fst (translate_blocks opts m_mem m_dl m_func interproc F)) in
    let g := m_cfg (build_cfg opts m_mem m_dl globals m_func interproc F) in
    (1 <= length rets)%nat ->
    exists l,
      exit g = Some l /\ is_node g l /\
      match rets with
      | [r] => l = r
      | _ =>
          (exists n, l = extra_block n) /\ ~ is_node before l /\
          forall r, r ∈ rets -> has_edge g r l
      end.
Proof.
  intros F rets before g Hlen.
  destruct (translate_blocks_nodes opts m_mem m_dl m_func interproc F)
    as (Hblocks & Hextra & Hrets).
  pose proof (build_cfg_graph F) as Hsame. cbv zeta in Hsame.
  fold g in Hsame. rewrite Hrets in Hsame. fold rets in Hsame.
  set (st := fst (translate_blocks opts m_mem m_dl m_func interproc F)) in *.
  assert (Hin : forall r, r ∈ rets -> r ∈ blabels st).
  { intros r Hr. apply returning_blocks_are_blocks in Hr.
    destruct Hr as (B & HB & ->). apply Hblocks, HB. }
  destruct Hsame as (Hexit & Hlabels & Hsuccs).
  destruct rets as [|r1 [|r2 rets']] eqn:Erets; simpl in Hlen; [lia| |].
  - exists r1. simpl in Hexit, Hlabels. split; [exact Hexit|].
    split; [|reflexivity].
    apply is_node_labels. rewrite Hlabels. apply Hin, list_elem_of_here.
  - set (l := extra_block (length (m_extra_blks st))).
    set (g1 := foldl (fun g r => add_succ g r l) (insert (m_cfg st) l)
                 (r1 :: r2 :: rets')).
    assert (Hg1 : m_cfg (unify_returns st (r1 :: r2 :: rets')) = set_exit g1 l)
      by reflexivity.
    rewrite Hg1 in Hexit, Hlabels, Hsuccs.
    exists l. split; [exact Hexit|].
    split; [|split; [eexists; reflexivity|split]].
    + apply is_node_labels. rewrite Hlabels. unfold labels, set_exit; simpl.
      fold (labels g1). unfold g1. rewrite foldl_add_succ_labels.
      apply labels_insert. auto.
    + intros Hnode. apply is_node_labels in Hnode.
      apply Hextra in Hnode. lia.
    + intros r Hr. apply has_edge_succs. rewrite Hsuccs.
      apply (has_edge_succs g1). unfold g1.
      apply foldl_add_succ_edges; [|exact Hr].
      intros r' Hr'. apply labels_insert. left. apply Hin, Hr'.
Qed.

End exit.

(** A function with two returning blocks. *)
Lemma build_cfg_has_one_exit_witness :
  let rets := returning_blocks Examples.two_returns in
  let before :=
    CfgBuilder.m_cfg
      (fst (CfgBuilder.translate_blocks (SE := spec_SymEval REGISTERS)
              Examples.opts (Examples.mem REGISTERS ([], [], [])) Examples.dl
              Examples.two_returns false ∅)) in
  let g :=
    CfgBuilder.m_cfg
      (CfgBuilder.build_cfg (SE := spec_SymEval REGISTERS) Examples.opts
         (Examples.mem REGISTERS ([], [], [])) Examples.dl []
         Examples.two_returns false ∅) in
  exists l,
    exit g = Some l /\ is_node g l /\
    (exists n, l = extra_block n) /\ ~ is_node before l /\
    forall r, r ∈ rets -> has_edge g r l.
Proof.
  apply (build_cfg_has_one_exit (SE := spec_SymEval REGISTERS) Examples.opts
           (Examples.mem REGISTERS ([], [], [])) Examples.dl []
           Examples.two_returns false ∅).
  vm_compute. lia.
Defined.

(** ** Parallel PHI nodes *)

Lemma exec_frame rho st rho' y :
  exec rho st rho' -> defined_var st <> Some y -> rho' y = rho y.
Proof.
  intros H Hy. destruct H; simpl in Hy; try reflexivity;
    unfold update; rewrite decide_False; congruence.
Qed.

Lemma exec_list_frame rho l rho' y :
  exec_list rho l rho' ->
  Forall (fun st => defined_var st <> Some y) l -> rho' y = rho y.
Proof.
  induction 1 as [|rho1 rho2 rho3 st l H1 H2 IH]; intros Hl; [reflexivity|].
  apply Forall_cons in Hl. destruct Hl as [Hst Hl].
  rewrite IH by exact Hl. eapply exec_frame; eassumption.
Qed.

Lemma exec_list_app rho l1 l2 rho' :
  exec_list rho (l1 ++ l2) rho' <->
  exists rho1, exec_list rho l1 rho1 /\ exec_list rho1 l2 rho'.
Proof.
  revert rho. induction l1 as [|st l1 IH]; intros rho; simpl.
  - split.
    + intros H. exists rho. split; [constructor|exact H].
    + intros (rho1 & H1 & H2). inversion H1; subst. exact H2.
  - split.
    + intros H. inversion H; subst.
      apply IH in H5. destruct H5 as (rho1 & H1 & H2).
      exists rho1. split; [econstructor; eassumption|exact H2].
    + intros (rho1 & H1 & H2). inversion H1; subst.
      econstructor; [eassumption|]. apply IH. eauto.
Qed.

(** Assignments and havocs can always be run. *)
Lemma exec_list_total rho l :
  Forall (fun st => is_Some (defined_var st)) l -> exists rho', exec_list rho l rho'.
Proof.
  revert rho. induction l as [|st l IH]; intros rho Hl.
  - exists rho. constructor.
  - apply Forall_cons in Hl. destruct Hl as [[x Hst] Hl].
    destruct st; try discriminate Hst.
    + destruct (IH (update rho lhs (eval rho rhs)) Hl) as [rho' H].
      exists rho'. econstructor; [constructor|exact H].
    + destruct (IH (update rho lhs 0) Hl) as [rho' H].
      exists rho'. econstructor; [constructor|exact H].
Qed.

Import SymExecPhiVisitor.

Lemma oldValMap_find_app m v e v' :
  oldValMap_find (m ++ [(v, e)]) v' =
  match oldValMap_find m v' with
  | Some x => Some x
  | None => if decide (v = v') then Some e else None
  end.
Proof.
  unfold oldValMap_find. induction m as [|[v0 e0] m IH]; simpl.
  - destruct (decide (v = v')) as [->|Hne].
    + rewrite bool_decide_eq_true_2 by reflexivity. reflexivity.
    + rewrite bool_decide_eq_false_2 by exact Hne. reflexivity.
  - destruct (bool_decide (v0 = v')); [reflexivity|exact IH].
Qed.

Lemma leading_phis_prefix F insts :
  exists rest, insts = map (fun p => fst (fst p)) (leading_phis F insts) ++ rest.
Proof.
  induction insts as [|x insts [rest IH]]; simpl; [exists []; reflexivity|].
  destruct (F !! x) as [[]|]; try (eexists; reflexivity).
  simpl. exists rest. f_equal. exact IH.
Qed.

Lemma leading_phis_lookup F insts p ty inc :
  (p, ty, inc) ∈ leading_phis F insts ->
  F !! p = Some (PHINode ty inc) /\ p ∈ insts.
Proof.
  induction insts as [|x insts IH]; simpl.
  - intros H. apply elem_of_nil in H. destruct H.
  - destruct (F !! x) as [[]|] eqn:E;
      try (intros H; apply elem_of_nil in H; destruct H).
    intros H. apply elem_of_cons in H. destruct H as [H|H].
    + inversion H; subst. split; [exact E|apply list_elem_of_here].
    + destruct (IH H) as [H1 H2]. split; [exact H1|apply list_elem_of_further, H2].
Qed.

Lemma leading_phis_NoDup F insts :
  NoDup insts -> NoDup (map (fun p => fst (fst p)) (leading_phis F insts)).
Proof.
  intros H. destruct (leading_phis_prefix F insts) as [rest E].
  rewrite E in H. apply NoDup_app in H. apply H.
Qed.

Section parallel_phis.
Context {SE : SymEval} (opts : options) (inc_BB : bbid) (F : body)
        (BB : basic_block).

Lemma save_old_values_cons ph phis m :
  save_old_values opts inc_BB F BB (ph :: phis) m =
  match saved_value opts inc_BB F BB m ph with
  | Some (v, x) =>
      do oldVal <- vfac_get;
      do _ <- add (assign oldVal x);
      save_old_values opts inc_BB F BB phis (m ++ [(v, exp_var oldVal)])
  | None => save_old_values opts inc_BB F BB phis m
  end.
Proof.
  destruct ph as [[phi ty] inc]. simpl.
  destruct (getIncomingValueForBlock inc inc_BB) as [v|]; [|reflexivity].
  destruct (isTracked v); simpl; [|reflexivity].
  destruct (LlvmCrabNoPtrArith opts && negb (isIntegerTy ty)); simpl; [reflexivity|].
  destruct (is_phi_of F BB v); [|reflexivity].
  destruct (lookup v); [|reflexivity].
  destruct (oldValMap_find m v); reflexivity.
Qed.

Lemma assign_phis_run phis m s :
  assign_phis opts inc_BB phis m s =
  (tt, State (ir s) (m_vfac s) (m_bb s ++ omap (phi_statement opts inc_BB m) phis) (aborted s)).
Proof.
  revert s. induction phis as [|[[phi ty] inc] phis IH]; intros s.
  - simpl. unfold pure. rewrite app_nil_r, state_eta. reflexivity.
  - cbn [assign_phis omap list_omap phi_statement phi_is_translated].
    destruct (isTracked (Inst phi ty)); cbn [negb andb]; [|apply IH].
    destruct (LlvmCrabNoPtrArith opts && negb (isIntegerTy ty));
      cbn [negb andb]; [apply IH|].
    destruct (getIncomingValueForBlock inc inc_BB) as [v|].
    + rewrite bool_decide_eq_true_2 by eauto.
      rewrite bind_unfold.
      assert (Hadd : forall st, add st s
                = (tt, State (ir s) (m_vfac s) (m_bb s ++ [st]) (aborted s)))
        by reflexivity.
      destruct (oldValMap_find m v) as [old|]; [|destruct (lookup v)];
        rewrite Hadd; cbn [fst snd]; rewrite IH; cbn [ir m_vfac m_bb aborted];
        rewrite <- app_assoc; reflexivity.
    + rewrite bool_decide_eq_false_2 by (intros [? ?]; discriminate).
      apply IH.
Qed.

Lemma phi_statement_defines m ph st :
  phi_statement opts inc_BB m ph = Some st ->
  defined_var st = Some (name_for_value (fst (fst ph))).
Proof.
  destruct ph as [[phi ty] inc]. unfold phi_statement.
  destruct (phi_is_translated _); [|discriminate].
  destruct (getIncomingValueForBlock inc inc_BB) as [v|]; [|discriminate].
  intros H. inversion H; subst.
  destruct (oldValMap_find m v); [reflexivity|].
  destruct (lookup v); reflexivity.
Qed.

Lemma phi_statement_translated m ph :
  is_Some (phi_statement opts inc_BB m ph) <-> phi_is_translated opts inc_BB ph = true.
Proof.
  destruct ph as [[phi ty] inc]. unfold phi_statement.
  destruct (phi_is_translated opts inc_BB (phi, ty, inc)) eqn:E.
  - split; [reflexivity|intros _].
    unfold phi_is_translated in E.
    apply andb_true_iff in E. destruct E as [_ E].
    apply bool_decide_eq_true in E. destruct E as [v ->]. eauto.
  - split; [intros [? ?]; discriminate|discriminate].
Qed.

(** The variables the second loop defines, in order. *)
Lemma omap_phi_statement_defined m phis :
  map defined_var (omap (phi_statement opts inc_BB m) phis)
  = map (fun ph => Some (name_for_value (fst (fst ph))))
      (List.filter (phi_is_translated opts inc_BB) phis).
Proof.
  induction phis as [|ph phis IH]; [reflexivity|].
  cbn [omap list_omap List.filter].
  pose proof (phi_statement_translated m ph) as Ht.
  destruct (phi_statement opts inc_BB m ph) as [st|] eqn:E.
  - rewrite (proj1 Ht) by eauto. simpl. rewrite IH.
    rewrite (phi_statement_defines m ph st E). reflexivity.
  - destruct (phi_is_translated opts inc_BB ph); [|exact IH].
    destruct (proj2 Ht eq_refl) as [? ?]. discriminate.
Qed.

(** The first loop takes its snapshots in the order of the PHI nodes: the
    snapshot number [k] saves the incoming value of the PHI node at the
    position [idx !! k], and these positions increase. *)
Lemma save_old_values_order phis :
  forall m s,
  exists m' snaps idx,
    save_old_values opts inc_BB F BB phis m s
    = (m', State (ir s) (m_vfac s + N.of_nat (length snaps))
             (m_bb s ++ snaps) (aborted s)) /\
    length idx = length snaps /\
    (forall k k' i i',
        (k < k')%nat -> idx !! k = Some i -> idx !! k' = Some i' ->
        (i < i')%nat) /\
    (forall k i,
        idx !! k = Some i ->
        exists phi ty inc v x,
          phis !! i = Some (phi, ty, inc) /\
          getIncomingValueForBlock inc inc_BB = Some v /\
          lookup v = Some x /\
          snaps !! k = Some (assign (fresh_name (m_vfac s + N.of_nat k)) x)).
Proof.
  induction phis as [|ph phis IH]; intros m s.
  - exists m, [], []. simpl. unfold pure.
    rewrite N.add_0_r, app_nil_r, state_eta.
    split; [reflexivity|]. split; [reflexivity|].
    split; intros; discriminate.
  - rewrite save_old_values_cons.
    destruct (saved_value opts inc_BB F BB m ph) as [[v0 x]|] eqn:Esv.
    + rewrite !bind_unfold. cbn [vfac_get add fst snd ir m_vfac m_bb aborted].
      set (a := assign (fresh_name (m_vfac s)) x).
      destruct (IH (m ++ [(v0, exp_var (fresh_name (m_vfac s)))])
                  (State (ir s) (m_vfac s + 1) (m_bb s ++ [a]) (aborted s)))
        as (m' & snaps & idx & Hrun & Hlen & Hinc & Hsnap).
      cbn [ir m_vfac m_bb aborted] in *.
      assert (Hsaved : exists ty inc phi,
                 ph = (phi, ty, inc) /\
                 getIncomingValueForBlock inc inc_BB = Some v0 /\
                 lookup v0 = Some x).
      { destruct ph as [[phi ty] inc]. exists ty, inc, phi.
        unfold saved_value in Esv.
        destruct (getIncomingValueForBlock inc inc_BB) as [v1|]; [|discriminate].
        destruct (_ && _ && _); [|discriminate].
        destruct (lookup v1) as [x1|] eqn:El; [|discriminate].
        destruct (oldValMap_find m v1) eqn:E1; [discriminate|].
        inversion Esv; subst. auto. }
      destruct Hsaved as (ty0 & inc0 & phi0 & -> & Hinc0 & Hx).
      exists m', (a :: snaps), (0%nat :: (S <$> idx)). rewrite Hrun.
      split; [|split; [|split]].
      * replace (m_vfac s + N.of_nat (length (a :: snaps)))%N
          with (m_vfac s + 1 + N.of_nat (length snaps))%N by (cbn [length]; lia).
        rewrite <- app_assoc. reflexivity.
      * cbn [length]. rewrite length_fmap, Hlen. reflexivity.
      * intros k k' i i' Hk Hi Hi'.
        destruct k' as [|k']; [lia|].
        change ((S <$> idx) !! k' = Some i') in Hi'.
        rewrite list_lookup_fmap in Hi'.
        destruct (idx !! k') as [j'|] eqn:Ej'; [|discriminate].
        cbn in Hi'. inversion Hi'; subst i'.
        destruct k as [|k].
        -- inversion Hi; subst. lia.
        -- change ((S <$> idx) !! k = Some i) in Hi.
           rewrite list_lookup_fmap in Hi.
           destruct (idx !! k) as [j|] eqn:Ej; [|discriminate].
           cbn in Hi. inversion Hi; subst i.
           assert (j < j')%nat by (apply (Hinc k k'); [lia|assumption..]). lia.
      * intros k i Hi. destruct k as [|k].
        -- inversion Hi; subst i. exists phi0, ty0, inc0, v0, x.
           cbn. rewrite N.add_0_r. auto.
        -- change ((S <$> idx) !! k = Some i) in Hi.
           rewrite list_lookup_fmap in Hi.
           destruct (idx !! k) as [j|] eqn:Ej; [|discriminate].
           cbn in Hi. inversion Hi; subst i.
           destruct (Hsnap k j Ej) as (phi & ty & inc & v & x' & H1 & H2 & H3 & H4).
           exists phi, ty, inc, v, x'. cbn.
           replace (m_vfac s + N.of_nat (S k))%N
             with (m_vfac s + 1 + N.of_nat k)%N by lia.
           auto.
    + destruct (IH m s) as (m' & snaps & idx & Hrun & Hlen & Hinc & Hsnap).
      exists m', snaps, (S <$> idx). rewrite Hrun.
      split; [reflexivity|]. split; [rewrite length_fmap; exact Hlen|]. split.
      * intros k k' i i' Hk Hi Hi'. rewrite list_lookup_fmap in Hi, Hi'.
        destruct (idx !! k) as [j|] eqn:Ej; [|discriminate].
        destruct (idx !! k') as [j'|] eqn:Ej'; [|discriminate].
        cbn in Hi, Hi'. inversion Hi; inversion Hi'; subst.
        assert (j < j')%nat by (apply (Hinc k k'); assumption). lia.
      * intros k i Hi. rewrite list_lookup_fmap in Hi.
        destruct (idx !! k) as [j|] eqn:Ej; [|discriminate].
        cbn in Hi. inversion Hi; subst i.
        destruct (Hsnap k j Ej) as (phi & ty & inc & v & x' & H1 & H2 & H3 & H4).
        exists phi, ty, inc, v, x'. cbn. auto.
Qed.

End parallel_phis.

Section phi_snapshot.
Context {SE : SymEval} (opts : options) (inc_BB : bbid) (F : body)
        (BB : basic_block).
(** The incoming PHI node [v], named [p2], whose old value is wanted. *)
Variables (v : value) (p2 : ident).
Hypothesis lookup_v : lookup v = Some (exp_var (name_for_value p2)).

Lemma saved_snapshot m n rho0 rho v0 x :
  saved v p2 m n rho0 rho ->
  oldValMap_find m v0 = None -> lookup v0 = Some x ->
  saved v p2 (m ++ [(v0, exp_var (fresh_name n))]) (n + 1) rho0
    (update rho (fresh_name n) (eval rho x)).
Proof.
  intros [H1 H2] Hnone Hx. split.
  - unfold update. rewrite decide_False by discriminate. exact H1.
  - intros e. rewrite oldValMap_find_app.
    destruct (oldValMap_find m v) as [e'|] eqn:E.
    + intros He. inversion He; subst.
      destruct (H2 e eq_refl) as (k & -> & Hk & Hval).
      exists k. split; [reflexivity|]. split; [lia|].
      unfold update. rewrite decide_False; [exact Hval|].
      intros Heq. inversion Heq. lia.
    + destruct (decide (v0 = v)) as [->|Hne]; [|discriminate].
      intros He. inversion He; subst.
      exists n. split; [reflexivity|]. split; [lia|].
      unfold update. rewrite decide_True by reflexivity.
      rewrite lookup_v in Hx. inversion Hx; subst.
      rewrite eval_var. exact H1.
Qed.

Lemma save_old_values_spec phis :
  forall m s,
  exists m' snaps,
    save_old_values opts inc_BB F BB phis m s
    = (m', State (ir s) (m_vfac s + N.of_nat (length snaps))
             (m_bb s ++ snaps) (aborted s)) /\
    map defined_var snaps
    = map (fun i => Some (fresh_name (m_vfac s + N.of_nat i)))
        (seq 0 (length snaps)) /\
    (forall rho0 rho rho',
        saved v p2 m (m_vfac s) rho0 rho -> exec_list rho snaps rho' ->
        saved v p2 m' (m_vfac s + N.of_nat (length snaps)) rho0 rho') /\
    (is_Some (oldValMap_find m v) -> is_Some (oldValMap_find m' v)) /\
    (forall phi ty inc,
        (phi, ty, inc) ∈ phis ->
        getIncomingValueForBlock inc inc_BB = Some v ->
        isTracked v = true ->
        LlvmCrabNoPtrArith opts && negb (isIntegerTy ty) = false ->
        is_phi_of F BB v = true ->
        is_Some (oldValMap_find m' v)).
Proof.
  induction phis as [|ph phis IH]; intros m s.
  - exists m, []. simpl. unfold pure.
    rewrite N.add_0_r, app_nil_r, state_eta.
    split; [reflexivity|]. split; [reflexivity|].
    split; [intros rho0 rho rho' H Hex; inversion Hex; subst; exact H|].
    split; [auto|].
    intros phi ty inc H. apply elem_of_nil in H. destruct H.
  - rewrite save_old_values_cons.
    destruct (saved_value opts inc_BB F BB m ph) as [[v0 x]|] eqn:Esv.
    + (* a snapshot is taken *)
      rewrite !bind_unfold. cbn [vfac_get add fst snd ir m_vfac m_bb aborted].
      set (a := assign (fresh_name (m_vfac s)) x).
      destruct (IH (m ++ [(v0, exp_var (fresh_name (m_vfac s)))])
                  (State (ir s) (m_vfac s + 1) (m_bb s ++ [a]) (aborted s)))
        as (m' & snaps & Hrun & Hdef & Hsem & Hmono & Hcov).
      cbn [ir m_vfac m_bb aborted] in *.
      assert (Hsaved : exists ty inc phi,
                 ph = (phi, ty, inc) /\
                 getIncomingValueForBlock inc inc_BB = Some v0 /\
                 lookup v0 = Some x /\ oldValMap_find m v0 = None).
      { destruct ph as [[phi ty] inc]. exists ty, inc, phi.
        unfold saved_value in Esv.
        destruct (getIncomingValueForBlock inc inc_BB) as [v1|]; [|discriminate].
        destruct (_ && _ && _); [|discriminate].
        destruct (lookup v1) as [x1|] eqn:El; [|discriminate].
        destruct (oldValMap_find m v1) eqn:E1; [discriminate|].
        inversion Esv; subst. auto. }
      destruct Hsaved as (ty0 & inc0 & phi0 & -> & Hinc0 & Hx & Hnone).
      exists m', (a :: snaps). rewrite Hrun.
      split; [|split; [|split; [|split]]].
      * replace (m_vfac s + N.of_nat (length (a :: snaps)))%N
          with (m_vfac s + 1 + N.of_nat (length snaps))%N by (cbn [length]; lia).
        rewrite <- app_assoc. reflexivity.
      * cbn [length seq map]. rewrite N.add_0_r. f_equal.
        rewrite Hdef, <- seq_shift, map_map.
        apply map_ext. intros i. do 2 f_equal. lia.
      * intros rho0 rho rho' Hs Hex. inversion Hex; subst.
        match goal with H : exec _ a _ |- _ => inversion H; subst end.
        replace (m_vfac s + N.of_nat (length (a :: snaps)))%N
          with (m_vfac s + 1 + N.of_nat (length snaps))%N by (cbn [length]; lia).
        eapply Hsem; [|eassumption].
        apply saved_snapshot; assumption.
      * intros Hm. apply Hmono. rewrite oldValMap_find_app.
        destruct Hm as [e ->]. eauto.
      * intros phi ty inc Hin Hinc Ht Hp Hphi.
        apply elem_of_cons in Hin. destruct Hin as [Heq|Hin];
          [|eapply Hcov; eassumption].
        inversion Heq; subst. rewrite Hinc0 in Hinc. inversion Hinc; subst.
        apply Hmono. rewrite oldValMap_find_app, Hnone.
        rewrite decide_True by reflexivity. eauto.
    + (* nothing to save for this node *)
      destruct (IH m s) as (m' & snaps & Hrun & Hdef & Hsem & Hmono & Hcov).
      exists m', snaps. rewrite Hrun.
      split; [reflexivity|]. split; [exact Hdef|]. split; [exact Hsem|].
      split; [exact Hmono|].
      intros phi ty inc Hin Hinc Ht Hp Hphi.
      apply elem_of_cons in Hin. destruct Hin as [Heq|Hin];
        [|eapply Hcov; eassumption].
      subst ph. apply Hmono.
      unfold saved_value in Esv. rewrite Hinc, Ht, Hp, Hphi, lookup_v in Esv.
      cbn [negb andb] in Esv.
      destruct (oldValMap_find m v); [eauto|discriminate].
Qed.

End phi_snapshot.

Lemma defined_of_map {A} (l : list statement) (l' : list A) (g : A -> varname) :
  map defined_var l = map (fun a => Some (g a)) l' ->
  Forall (fun st => is_Some (defined_var st)) l.
Proof.
  revert l'. induction l as [|st l IH]; intros l' H; [constructor|].
  destruct l' as [|a l']; [discriminate|]. simpl in H. inversion H.
  constructor; [eauto|]. eapply IH; eassumption.
Qed.

Lemma omap_phi_statement_names {SE : SymEval} opts inc_BB m phis :
  Forall (fun st => exists ph, ph ∈ phis /\
                      defined_var st = Some (name_for_value (fst (fst ph))))
    (omap (phi_statement opts inc_BB m) phis).
Proof.
  induction phis as [|ph phis IH]; [constructor|].
  cbn [omap list_omap].
  assert (IH' : Forall (fun st => exists ph', ph' ∈ ph :: phis /\
                   defined_var st = Some (name_for_value (fst (fst ph'))))
                  (omap (phi_statement opts inc_BB m) phis)).
  { eapply Forall_impl; [exact IH|]. intros st (ph' & Hin & Hd).
    exists ph'. split; [apply list_elem_of_further, Hin|exact Hd]. }
  destruct (phi_statement opts inc_BB m ph) as [st|] eqn:E; [|exact IH'].
  constructor; [|exact IH'].
  exists ph. split; [apply list_elem_of_here|].
  eapply phi_statement_defines, E.
Qed.

(** C3.  Let [p1] and [p2] be PHI nodes at the head of a block, [p1]
    with incoming value [p2] for the predecessor at hand, both tracked
    and translated.  The statements the PHI visitor adds to the edge block
    are snapshots into consecutive fresh names followed by one assignment
    or havoc per translated PHI node in the order of the block.  The
    snapshots follow the order of the PHI nodes too: the snapshot number
    [k] saves the incoming value of the PHI node at a position [idx !! k]
    of the block, and these positions increase with [k].  The statements
    can always be run, and after any run of them the variable of [p1]
    holds the value the variable of [p2] had before the first of them. *)
Theorem parallel_phi_takes_old_value :
  forall (SE : SymEval) opts inc_BB BB s i1 i2 p1 p2 ty1 ty2 inc1 inc2 t,
    let phis := leading_phis (ir s) (bb_insts BB) in
    NoDup (bb_insts BB) ->
    phis !! i1 = Some (p1, ty1, inc1) ->
    phis !! i2 = Some (p2, ty2, inc2) ->
    getIncomingValueForBlock inc1 inc_BB = Some (Inst p2 t) ->
    isTracked (Inst p1 ty1) = true ->
    isTracked (Inst p2 t) = true ->
    LlvmCrabNoPtrArith opts && negb (isIntegerTy ty1) = false ->
    lookup (Inst p2 t) = Some (exp_var (name_for_value p2)) ->
    exists snaps assigns,
      m_bb (snd (visitBasicBlock opts inc_BB BB s)) = m_bb s ++ snaps ++ assigns /\
      map defined_var snaps
      = map (fun i => Some (fresh_name (m_vfac s + N.of_nat i)))
          (seq 0 (length snaps)) /\
      (exists idx : list nat,
          length idx = length snaps /\
          (forall k k' i i',
              (k < k')%nat -> idx !! k = Some i -> idx !! k' = Some i' ->
              (i < i')%nat) /\
          (forall k i,
              idx !! k = Some i ->
              exists phi ty inc v x,
                phis !! i = Some (phi, ty, inc) /\
                getIncomingValueForBlock inc inc_BB = Some v /\
                lookup v = Some x /\
                snaps !! k
                = Some (assign (fresh_name (m_vfac s + N.of_nat k)) x))) /\
      map defined_var assigns
      = map (fun ph => Some (name_for_value (fst (fst ph))))
          (List.filter (phi_is_translated opts inc_BB) phis) /\
      (forall rho, exists rho', exec_list rho (snaps ++ assigns) rho') /\
      (forall rho rho',
          exec_list rho (snaps ++ assigns) rho' ->
          rho' (name_for_value p1) = rho (name_for_value p2)).
Proof.
  intros SE opts inc_BB BB s i1 i2 p1 p2 ty1 ty2 inc1 inc2 t phis
    Hnodup H1 H2 Hinc Ht1 Ht2 Hptr Hlookup.
  destruct (save_old_values_spec opts inc_BB (ir s) BB (Inst p2 t) p2 Hlookup
              phis [] s) as (m' & snaps & Hrun & Hdef & Hsem & _ & Hcov).
  assert (Horder : exists idx : list nat,
             length idx = length snaps /\
             (forall k k' i i',
                 (k < k')%nat -> idx !! k = Some i -> idx !! k' = Some i' ->
                 (i < i')%nat) /\
             (forall k i,
                 idx !! k = Some i ->
                 exists phi ty inc v x,
                   phis !! i = Some (phi, ty, inc) /\
                   getIncomingValueForBlock inc inc_BB = Some v /\
                   lookup v = Some x /\
                   snaps !! k
                   = Some (assign (fresh_name (m_vfac s + N.of_nat k)) x))).
  { destruct (save_old_values_order opts inc_BB (ir s) BB phis [] s)
      as (m2 & snaps2 & idx & Hrun2 & Hlen & Hincr & Hsnap).
    rewrite Hrun in Hrun2.
    assert (Hbb : m_bb s ++ snaps = m_bb s ++ snaps2)
      by exact (f_equal (fun r => m_bb (snd r)) Hrun2).
    apply app_inv_head in Hbb. subst snaps2. exists idx. auto. }
  set (assigns := omap (phi_statement opts inc_BB m') phis).
  pose proof (omap_phi_statement_defined opts inc_BB m' phis) as Hdef2.
  fold assigns in Hdef2.
  exists snaps, assigns.
  split; [|split; [exact Hdef|split; [exact Horder|split; [exact Hdef2|split]]]].
  - unfold visitBasicBlock. rewrite bind_unfold. cbn [get_ir fst snd].
    fold phis. rewrite bind_unfold, Hrun. cbn [fst snd].
    rewrite assign_phis_run. cbn [snd m_bb]. fold assigns.
    rewrite <- app_assoc. reflexivity.
  - intros rho. apply exec_list_total, Forall_app. split.
    + eapply defined_of_map, Hdef.
    + eapply defined_of_map, Hdef2.
  - intros rho rho' Hex. apply exec_list_app in Hex.
    destruct Hex as (rho1 & Hex1 & Hex2).
    (* the first loop has saved the old value of [p2] *)
    assert (Hs0 : saved (Inst p2 t) p2 [] (m_vfac s) rho rho).
    { split; [reflexivity|]. intros e He. discriminate He. }
    pose proof (Hsem rho rho rho1 Hs0 Hex1) as [_ Hs1].
    assert (Hin1 : (p1, ty1, inc1) ∈ phis) by (eapply list_elem_of_lookup_2, H1).
    assert (Hin2 : (p2, ty2, inc2) ∈ phis) by (eapply list_elem_of_lookup_2, H2).
    assert (Hphi : is_phi_of (ir s) BB (Inst p2 t) = true).
    { apply leading_phis_lookup in Hin2. destruct Hin2 as [E Hin2].
      unfold is_phi_of. rewrite E. apply bool_decide_eq_true_2, Hin2. }
    destruct (Hcov p1 ty1 inc1 Hin1 Hinc Ht2 Hptr Hphi) as [e He].
    destruct (Hs1 e He) as (k & -> & _ & Hk).
    (* the second loop assigns the saved value to [p1] *)
    assert (Hst : phi_statement opts inc_BB m' (p1, ty1, inc1)
                  = Some (assign (name_for_value p1) (exp_var (fresh_name k)))).
    { unfold phi_statement, phi_is_translated. rewrite Ht1, Hptr, Hinc, He.
      rewrite bool_decide_eq_true_2 by eauto. reflexivity. }
    pose proof (take_drop_middle phis i1 _ H1) as Hsplit.
    assert (Hnd : NoDup (map (fun ph => fst (fst ph)) phis))
      by apply leading_phis_NoDup, Hnodup.
    unfold assigns in Hex2. rewrite <- Hsplit in Hex2, Hnd.
    rewrite omap_app in Hex2. cbn [omap list_omap] in Hex2. rewrite Hst in Hex2.
    apply exec_list_app in Hex2. destruct Hex2 as (rhoa & Hexa & Hex2).
    inversion Hex2 as [|? rhob ? ? ? Hassign Hexb]; subst.
    inversion Hassign; subst.
    rewrite map_app in Hnd. apply NoDup_app in Hnd.
    destruct Hnd as (_ & _ & Hnd). cbn [map fst] in Hnd.
    apply NoDup_cons in Hnd. destruct Hnd as [Hnotin _].
    rewrite (exec_list_frame _ _ _ (name_for_value p1) Hexb).
    + unfold update at 1. rewrite decide_True by reflexivity.
      rewrite eval_var, <- Hk.
      apply (exec_list_frame _ _ _ (fresh_name k) Hexa).
      eapply Forall_impl; [apply omap_phi_statement_names|].
      intros st (ph & _ & Hd). rewrite Hd. discriminate.
    + eapply Forall_impl; [apply omap_phi_statement_names|].
      intros st (ph & Hin & Hd). rewrite Hd. intros Heq. inversion Heq as [Hp].
      apply Hnotin. rewrite <- Hp. apply list_elem_of_fmap. eauto.
Qed.

(** The swap [p1 = phi [p2, loop]], [p2 = phi [p1, loop]]: [p2] is assigned
    after [p1] and still takes the value [p1] had before. *)
Lemma parallel_phi_takes_old_value_witness :
  let phis := leading_phis Examples.swap_body ["p1"; "p2"] in
  exists snaps assigns,
    m_bb (snd (visitBasicBlock (SE := spec_SymEval REGISTERS) Examples.opts
                 "loop" Examples.swap_block (Examples.start Examples.swap_body)))
    = [] ++ snaps ++ assigns /\
    map defined_var snaps
    = map (fun i => Some (fresh_name (0 + N.of_nat i))) (seq 0 (length snaps)) /\
    (exists idx : list nat,
        length idx = length snaps /\
        (forall k k' i i',
            (k < k')%nat -> idx !! k = Some i -> idx !! k' = Some i' ->
            (i < i')%nat) /\
        (forall k i,
            idx !! k = Some i ->
            exists phi ty inc v x,
              phis !! i = Some (phi, ty, inc) /\
              getIncomingValueForBlock inc "loop" = Some v /\
              lookup (SymEval := spec_SymEval REGISTERS) v = Some x /\
              snaps !! k = Some (assign (fresh_name (0 + N.of_nat k)) x))) /\
    map defined_var assigns
    = map (fun ph => Some (name_for_value (fst (fst ph))))
        (List.filter (phi_is_translated (SE := spec_SymEval REGISTERS)
                        Examples.opts "loop") phis) /\
    (forall rho, exists rho', exec_list rho (snaps ++ assigns) rho') /\
    (forall rho rho',
        exec_list rho (snaps ++ assigns) rho' ->
        rho' (name_for_value "p2") = rho (name_for_value "p1")).
Proof.
  apply (parallel_phi_takes_old_value (spec_SymEval REGISTERS) Examples.opts
           "loop" Examples.swap_block (Examples.start Examples.swap_body)
           1%nat 0%nat "p2" "p1" Examples.i32 Examples.i32
           [("entry", Argument "v" Examples.i32); ("loop", Inst "p1" Examples.i32)]
           [("entry", Argument "u" Examples.i32); ("loop", Inst "p2" Examples.i32)]
           Examples.i32).
  - apply (bool_decide_unpack _). vm_compute. exact I.
  - reflexivity.
  - reflexivity.
  - reflexivity.
  - reflexivity.
  - reflexivity.
  - reflexivity.
  - reflexivity.
Defined.

(** ** The scenarios of the specification *)

Section scenarios.
Import Examples.

Let run_block (lvl : TrackedPrecision) (m_mem : MemAnalysis) (m_dl : DataLayout)
    (F : body) (B : basic_block) : list statement :=
  m_bb (snd (SymExecVisitor.visitBlock (SE := spec_SymEval lvl) opts m_mem m_dl
               (empty_func "f" [B]) false B (start F))).

Let x32 := exp_var (name_for_value "x").

(** Straight-line add: [r = add i32 %x, 3]. *)
Example scenario_add :
  run_block REGISTERS (mem REGISTERS ([], [], [])) dl
    (<["r" := BinaryOperator Add i32 (Argument "x" i32) (ConstantInt 32 3)]> ∅)
    (BasicBlock "entry" ["r"] (ReturnInst None))
  = [arith OP_ADD (name_for_value "r") x32 (exp_cst 3)].
Proof. vm_compute. reflexivity. Qed.

(** Subtraction from a constant: [r = sub i32 5, %x]. *)
Example scenario_sub_from_constant :
  run_block REGISTERS (mem REGISTERS ([], [], [])) dl
    (<["r" := BinaryOperator Sub i32 (ConstantInt 32 5) (Argument "x" i32)]> ∅)
    (BasicBlock "entry" ["r"] (ReturnInst None))
  = [assign (name_for_value "r") (exp_cst 5);
     arith OP_SUB (name_for_value "r") (exp_var (name_for_value "r")) x32].
Proof. vm_compute. reflexivity. Qed.

(** Signed less-than driving a branch: the true edge assumes [a <= b - 1],
    the false edge [a >= b]. *)
Example scenario_slt_branch :
  let F : body :=
    <["c" := CmpInst ICMP_SLT (Argument "a" i32) (Argument "b" i32)]> ∅ in
  let bs := [BasicBlock "entry" ["c"] (CondBranchInst (Inst "c" i1) "T" "F")] in
  let a := exp_var (name_for_value "a") in
  let b := exp_var (name_for_value "b") in
  m_bb (snd (SymExecConditionVisitor.visit (SE := spec_SymEval REGISTERS)
               opts bs false "c" (start F)))
  = [assume (cst_le a (exp_sub b (exp_cst 1)))]
  /\ m_bb (snd (SymExecConditionVisitor.visit (SE := spec_SymEval REGISTERS)
                  opts bs true "c" (start F)))
     = [assume (cst_ge a b)].
Proof. split; vm_compute; reflexivity. Qed.

(** AND of two compares in a branch: both constraints on the true edge,
    none on the false edge. *)
Example scenario_and_branch :
  let F : body :=
    <["c1" := CmpInst ICMP_EQ (Argument "a" i32) (ConstantInt 32 0)]>
    (<["c2" := CmpInst ICMP_SLT (Argument "b" i32) (ConstantInt 32 10)]>
    (<["f" := BinaryOperator And i1 (Inst "c1" i1) (Inst "c2" i1)]> ∅)) in
  let bs := [BasicBlock "entry" ["c1"; "c2"; "f"]
               (CondBranchInst (Inst "f" i1) "T" "F")] in
  m_bb (snd (SymExecConditionVisitor.visit (SE := spec_SymEval REGISTERS)
               opts bs false "f" (start F)))
  = [assume (cst_eq (exp_var (name_for_value "a")) (exp_cst 0));
     assume (cst_le (exp_var (name_for_value "b"))
               (exp_sub (exp_cst 10) (exp_cst 1)))]
  /\ m_bb (snd (SymExecConditionVisitor.visit (SE := spec_SymEval REGISTERS)
                  opts bs true "f" (start F)))
     = [].
Proof. split; vm_compute; reflexivity. Qed.

(** PHI swap: two snapshots, then the two assignments. *)
Example scenario_phi_swap :
  m_bb (snd (SymExecPhiVisitor.visitBasicBlock (SE := spec_SymEval REGISTERS)
               opts "loop" swap_block (start swap_body)))
  = [assign (fresh_name 0) (exp_var (name_for_value "p2"));
     assign (fresh_name 1) (exp_var (name_for_value "p1"));
     assign (name_for_value "p1") (exp_var (fresh_name 0));
     assign (name_for_value "p2") (exp_var (fresh_name 1))].
Proof. vm_compute. reflexivity. Qed.

(** GEP with a constant offset: [q = gep %p, 0, 2] with field offset 8,
    read through by an integer load. *)
Example scenario_gep_constant :
  run_block REGISTERS (mem REGISTERS ([], [], []))
    {| accumulateConstantOffset := fun _ => Some 8;
       getTypeAllocSize := fun _ => 4 |}
    (<["q" := GetElementPtrInst (Argument "p" PointerTy)
                [(ConstantInt 32 0, SequentialStep 12);
                 (ConstantInt 32 2, StructStep [0; 4; 8])]]>
     (<["l" := LoadInst i32 (Inst "q" PointerTy)]> ∅))
    (BasicBlock "entry" ["q"; "l"] (ReturnInst None))
  = [arith OP_ADD (name_for_value "q") (exp_var (name_for_value "p")) (exp_cst 8);
     havoc (name_for_value "l")].
Proof. vm_compute. reflexivity. Qed.

(** memcpy between two regions with array identifiers 1 and 2. *)
Example scenario_memcpy :
  run_block ARR
    {| getTrackLevel := ARR;
       getArrayId := fun _ v =>
         if decide (v = Argument "dst" PointerTy) then 1
         else if decide (v = Argument "src" PointerTy) then 2 else -1;
       getSingleton := fun _ => None;
       getRefModNewArrays := fun _ => ([], [], []);
       getRefModNewArraysFn := fun _ => ([], [], []) |} dl
    (<["k" := CallInst VoidTy
                (Some (Callee "llvm.memcpy.p0i8.p0i8.i32" true true false))
                [Argument "dst" PointerTy; Argument "src" PointerTy;
                 ConstantInt 32 16]]> ∅)
    (BasicBlock "entry" ["k"] (ReturnInst None))
  = [havoc (symVarArr 1); assign (symVarArr 1) (exp_var (symVarArr 2))].
Proof. vm_compute. reflexivity. Qed.

End scenarios.

(** * Further properties of the translation *)

(** ** Constraints of a compare and the value of the compare *)

Lemma unsigned_in_range w x : 0 <= x < 2 ^ Z.of_N w -> unsigned w x = x.
Proof. intros H. apply Z.mod_small, H. Qed.

Lemma signed_in_range w x :
  - 2 ^ (Z.of_N w - 1) <= x < 2 ^ (Z.of_N w - 1) -> signed w x = x.
Proof.
  intros H. unfold signed, unsigned.
  assert (Hw : 0 < Z.of_N w).
  { destruct (Z.of_N w) eqn:E; [simpl in H|reflexivity|]; lia. }
  set (h := 2 ^ (Z.of_N w - 1)) in *.
  assert (Hh : 0 < h) by (apply Z.pow_pos_nonneg; lia).
  assert (E : 2 ^ Z.of_N w = 2 * h).
  { unfold h. rewrite <- Z.pow_succ_r by lia. f_equal. lia. }
  rewrite E. destruct (Z.neg_nonneg_cases x) as [Hx|Hx].
  - replace (x mod (2 * h)) with (x + 2 * h).
    + destruct (Z.ltb_spec (x + 2 * h) h); lia.
    + apply (Z.mod_unique_pos x (2 * h) (-1)); lia.
  - rewrite Z.mod_small by lia. destruct (Z.ltb_spec x h); lia.
Qed.

Lemma unsigned_eqb_in_range w x y :
  - 2 ^ (Z.of_N w - 1) <= x < 2 ^ (Z.of_N w - 1) ->
  - 2 ^ (Z.of_N w - 1) <= y < 2 ^ (Z.of_N w - 1) ->
  (unsigned w x =? unsigned w y) = (x =? y).
Proof.
  intros Hx Hy.
  pose proof (signed_in_range w x Hx) as Sx.
  pose proof (signed_in_range w y Hy) as Sy.
  destruct (Z.eqb_spec x y) as [->|Hne]; [apply Z.eqb_refl|].
  apply Z.eqb_neq. intros E. apply Hne.
  rewrite <- Sx, <- Sy. unfold signed. rewrite E. reflexivity.
Qed.

(** The constraints of the switch of [gen_assertion] hold exactly when
    the compare has the value the polarity asks for. *)
Lemma gen_assertion_switch_sound neg w p e1 e2 rho :
  is_handled_predicate p = true ->
  in_range w p (eval rho e1) -> in_range w p (eval rho e2) ->
  holds_all rho (gen_assertion_switch neg p e1 e2) <->
  icmp w p (eval rho e1) (eval rho e2) = Some (negb neg).
Proof.
  intros Hp H1 H2.
  destruct p; try discriminate Hp; unfold in_range in H1, H2;
    cbn [is_unsigned_predicate] in H1, H2; unfold icmp;
    rewrite ?unsigned_eqb_in_range, ?(unsigned_in_range w (eval rho e1)),
      ?(unsigned_in_range w (eval rho e2)), ?(signed_in_range w (eval rho e1)),
      ?(signed_in_range w (eval rho e2)) by assumption;
    unfold gen_assertion_switch; destruct neg; cbn [negb];
    repeat match goal with
           | |- context [isVar ?e] => destruct (isVar e)
           end;
    cbn [app];
    rewrite ?holds_all_cons, ?holds_all_nil, ?holds_cst_eq, ?holds_cst_ne,
      ?holds_cst_le, ?holds_cst_ge, ?eval_sub, ?eval_add, ?eval_cst;
    match goal with
    | |- context [?a =? ?b] => destruct (Z.eqb_spec a b)
    | |- context [?a <? ?b] => destruct (Z.ltb_spec a b)
    | |- context [?a <=? ?b] => destruct (Z.leb_spec a b)
    end;
    cbn [negb]; split; intros; try reflexivity; try discriminate; try lia.
Qed.

(** X1.  The constraints [gen_assertion] returns for an integer compare
    decide the compare: when both operands have an expression whose value
    lies in the range of the operand type (unsigned for the unsigned
    predicates, signed for the others), the constraints generated with
    plain polarity hold exactly when the compare is true, and those
    generated with negated polarity exactly when it is false.  This
    includes the predicates UGT, UGE, SGT and SGE, which are first turned
    into ULT, ULE, SLT and SLE on swapped operands. *)
Theorem gen_assertion_decides_compare :
  forall (SE : SymEval) s I p v0 v1 w e1 e2 rho neg,
    ir s !! I = Some (CmpInst p v0 v1) ->
    is_integer_predicate p = true ->
    getType v0 = IntegerTy w ->
    lookup v0 = Some e1 -> lookup v1 = Some e2 ->
    in_range w p (eval rho e1) -> in_range w p (eval rho e2) ->
    holds_all rho (fst (gen_assertion neg I s))
    <-> cmp_truth rho (CmpInst p v0 v1) = Some (negb neg).
Proof.
  intros SE s I p v0 v1 w e1 e2 rho neg HI Hp Hty H0 H1 R1 R2.
  rewrite (gen_assertion_fst _ I p v0 v1 s HI).
  unfold cmp_truth. rewrite Hty, H0, H1.
  destruct p; try discriminate Hp;
    cbn [normalizeCmp swapOperands getSwappedPredicate]; rewrite ?H0, ?H1;
    (rewrite (gen_assertion_switch_sound neg w); [reflexivity|reflexivity|..]);
    assumption.
Qed.

(** [icmp sgt %a, %b] with [a = 5] and [b = 3]. *)
Lemma gen_assertion_decides_compare_witness :
  holds_all (Examples.rho_of 5 3)
    (fst (gen_assertion (SE := spec_SymEval REGISTERS) false "c"
            (Examples.start Examples.sgt_body)))
  <-> cmp_truth (SE := spec_SymEval REGISTERS) (Examples.rho_of 5 3)
        (CmpInst ICMP_SGT (Argument "a" Examples.i32) (Argument "b" Examples.i32))
      = Some (negb false).
Proof.
  apply (gen_assertion_decides_compare (spec_SymEval REGISTERS)
           (Examples.start Examples.sgt_body) "c" ICMP_SGT
           (Argument "a" Examples.i32) (Argument "b" Examples.i32) 32
           (exp_var (name_for_value "a")) (exp_var (name_for_value "b"))
           (Examples.rho_of 5 3) false).
  - reflexivity.
  - reflexivity.
  - reflexivity.
  - reflexivity.
  - reflexivity.
  - vm_compute. split; [discriminate|reflexivity].
  - vm_compute. split; [discriminate|reflexivity].
Defined.

(** ** Conditions made of compares *)

Lemma gen_assertion_holds {SE : SymEval} neg I s i c rho :
  ir s !! I = Some i -> i = c \/ i = normalizeCmp c ->
  compare_in_range rho c ->
  holds_all rho (fst (gen_assertion neg I s))
  <-> cmp_truth rho c = Some (negb neg).
Proof.
  intros HI Hi Hc.
  destruct c as [p a b| | | | | | | | | |]; try (destruct Hc; fail).
  destruct Hc as (Hp & w & e1 & e2 & Hty & H0 & H1 & R1 & R2).
  assert (Hn : exists p' a' b',
             i = CmpInst p' a' b' /\
             normalizeCmp i = normalizeCmp (CmpInst p a b)).
  { destruct Hi as [->| ->]; [eauto|].
    rewrite normalizeCmp_idempotent, normalizeCmp_cases. destruct p; eauto. }
  destruct Hn as (p' & a' & b' & -> & Hn).
  rewrite (gen_assertion_fst _ I p' a' b' s HI), Hn.
  unfold cmp_truth. rewrite Hty, H0, H1.
  destruct p; try discriminate Hp;
    cbn [normalizeCmp swapOperands getSwappedPredicate]; rewrite ?H0, ?H1;
    (rewrite (gen_assertion_switch_sound neg w); [reflexivity|reflexivity|..]);
    assumption.
Qed.

(** [gen_assertion] touches neither the block nor the variable factory. *)
Lemma gen_assertion_snd {SE : SymEval} neg I s :
  exists ab,
    snd (gen_assertion neg I s)
    = State (match ir s !! I with
             | Some i => <[I := normalizeCmp i]> (ir s)
             | None => ir s
             end) (m_vfac s) (m_bb s) ab.
Proof.
  unfold gen_assertion. rewrite bind_unfold, normalizeCmpInst_run.
  simpl. rewrite bind_unfold. unfold get_inst; simpl.
  destruct (ir s !! I) as [i|] eqn:E; simpl.
  - rewrite lookup_insert_eq.
    destruct (normalizeCmp i); try (eexists; reflexivity).
    repeat (destruct (lookup _)); eexists; reflexivity.
  - rewrite E. destruct s; eexists; reflexivity.
Qed.

Lemma assume_each_run neg cs s :
  assume_each neg cs s
  = (tt, State (ir s) (m_vfac s)
           (m_bb s ++ map (fun c => assume (if neg then negate c else c)) cs)
           (aborted s)).
Proof.
  unfold assume_each. revert s. induction cs as [|c cs IH]; intros s.
  - simpl. unfold pure. rewrite app_nil_r, state_eta. reflexivity.
  - cbn [for_each]. rewrite bind_unfold, IH.
    destruct neg; unfold add; simpl; rewrite <- app_assoc; reflexivity.
Qed.

(** X2.  The true edge of a branch on [%f = and %c1, %c2], both operands
    being integer compares in range: the statements added are assumptions
    of constraints that hold exactly when both compares are true; the
    false edge receives nothing and leaves the state as it is. *)
Theorem and_true_edge_assumes_both_compares :
  forall (SE : SymEval) opts blocks s I ty x1 t1 x2 t2 c1 c2 rho,
    ir s !! I = Some (BinaryOperator And ty (Inst x1 t1) (Inst x2 t2)) ->
    isIntegerTy t1 = true -> isIntegerTy t2 = true ->
    ir s !! x1 = Some c1 -> ir s !! x2 = Some c2 ->
    compare_in_range rho c1 -> compare_in_range rho c2 ->
    (exists cs,
      m_bb (snd (visit opts blocks false I s)) = m_bb s ++ map assume cs /\
      (holds_all rho cs
       <-> cmp_truth rho c1 = Some true /\ cmp_truth rho c2 = Some true)) /\
    snd (visit opts blocks true I s) = s.
Proof.
  intros SE opts blocks s I ty x1 t1 x2 t2 c1 c2 rho HI Ht1 Ht2 H1 H2 R1 R2.
  assert (Hc1 : exists p a b, c1 = CmpInst p a b)
    by (destruct c1; try destruct R1; eauto).
  assert (Hc2 : exists p a b, c2 = CmpInst p a b)
    by (destruct c2; try destruct R2; eauto).
  destruct Hc1 as (p1 & a1 & b1 & ->). destruct Hc2 as (p2 & a2 & b2 & ->).
  unfold visit. rewrite !bind_unfold. unfold get_inst at 1 2 3 4. cbn [fst snd].
  rewrite HI. unfold visitBinaryOperator.
  rewrite !bind_unfold. cbn [get_ir fst snd getType negb pure].
  rewrite Ht1, Ht2. unfold dyn_cast_CmpInst. rewrite H1, H2.
  split.
  2: { destruct s; reflexivity. }
  rewrite bind_unfold.
  destruct (gen_assertion_snd false x1 s) as [ab1 E1]. rewrite H1 in E1.
  set (cs1 := fst (gen_assertion false x1 s)).
  rewrite E1, bind_unfold, assume_each_run. cbn [fst snd ir m_vfac m_bb aborted].
  set (s1 := State _ _ _ _).
  assert (Hx2 : exists i, ir s1 !! x2 = Some i /\
                  (i = CmpInst p2 a2 b2 \/ i = normalizeCmp (CmpInst p2 a2 b2))).
  { unfold s1; cbn [ir]. destruct (decide (x1 = x2)) as [<-|Hne].
    - rewrite lookup_insert_eq. rewrite H1 in H2. inversion H2; subst. eauto.
    - rewrite lookup_insert_ne by exact Hne. eauto. }
  destruct Hx2 as (i2 & Hi2 & Hor).
  rewrite bind_unfold.
  destruct (gen_assertion_snd false x2 s1) as [ab2 E2].
  set (cs2 := fst (gen_assertion false x2 s1)).
  rewrite E2, assume_each_run. cbn [snd ir m_vfac m_bb aborted].
  exists (cs1 ++ cs2). split.
  - unfold s1; cbn [m_bb]. rewrite map_app, <- app_assoc. reflexivity.
  - rewrite holds_all_app. unfold cs1, cs2.
    rewrite (gen_assertion_holds false x1 s _ _ rho H1 (or_introl eq_refl) R1).
    rewrite (gen_assertion_holds false x2 s1 _ _ rho Hi2 Hor R2).
    reflexivity.
Qed.

(** [and (icmp eq %a, 0), (icmp slt %b, 10)] with [a = 0] and [b = 3]. *)
Lemma and_true_edge_assumes_both_compares_witness :
  (exists cs,
      m_bb (snd (visit (SE := spec_SymEval REGISTERS) Examples.opts [] false "f"
                   (Examples.start Examples.and_body)))
      = [] ++ map assume cs /\
      (holds_all (Examples.rho_of 0 3) cs
       <-> cmp_truth (SE := spec_SymEval REGISTERS) (Examples.rho_of 0 3)
             (CmpInst ICMP_EQ (Argument "a" Examples.i32) (ConstantInt 32 0))
           = Some true /\
           cmp_truth (SE := spec_SymEval REGISTERS) (Examples.rho_of 0 3)
             (CmpInst ICMP_SLT (Argument "b" Examples.i32) (ConstantInt 32 10))
           = Some true)) /\
  snd (visit (SE := spec_SymEval REGISTERS) Examples.opts [] true "f"
         (Examples.start Examples.and_body))
  = Examples.start Examples.and_body.
Proof.
  apply (and_true_edge_assumes_both_compares (spec_SymEval REGISTERS)
           Examples.opts [] (Examples.start Examples.and_body) "f"
           Examples.i1 "c1" Examples.i1 "c2" Examples.i1
           (CmpInst ICMP_EQ (Argument "a" Examples.i32) (ConstantInt 32 0))
           (CmpInst ICMP_SLT (Argument "b" Examples.i32) (ConstantInt 32 10))
           (Examples.rho_of 0 3)).
  - reflexivity.
  - reflexivity.
  - reflexivity.
  - reflexivity.
  - reflexivity.
  - split; [reflexivity|].
    exists 32%N, (exp_var (name_for_value "a")), (exp_cst 0).
    repeat split; vm_compute; first [discriminate|reflexivity].
  - split; [reflexivity|].
    exists 32%N, (exp_var (name_for_value "b")), (exp_cst 10).
    repeat split; vm_compute; first [discriminate|reflexivity].
Defined.

(** ** Selects on a compare *)

(** X3.  A tracked select whose condition is an integer compare with an
    equality or signed predicate, in range, and whose two values have an
    expression and, when pointer arithmetic is off, are both integers, is
    translated to one select statement on a constraint, and that
    constraint holds exactly when the compare is true. *)
Theorem select_on_compare_uses_its_constraint :
  forall (SE : SymEval) opts m_mem m_dl func interproc s I ty x t tv fv
         p a b op0 op1 rho,
    ir s !! I = Some (SelectInst ty (Inst x t) tv fv) ->
    isTracked (Inst I ty) = true ->
    LlvmCrabNoPtrArith opts
    && (negb (isIntegerTy (getType tv)) || negb (isIntegerTy (getType fv)))
    = false ->
    lookup tv = Some op0 -> lookup fv = Some op1 ->
    ir s !! x = Some (CmpInst p a b) ->
    is_unsigned_predicate p = false ->
    compare_in_range rho (CmpInst p a b) ->
    exists cst,
      m_bb (snd (SymExecVisitor.visit opts m_mem m_dl func interproc I s))
      = m_bb s ++ [select (name_for_value I) cst op0 op1] /\
      (holds rho cst <-> cmp_truth rho (CmpInst p a b) = Some true).
Proof.
  intros SE opts m_mem m_dl func interproc s I ty x t tv fv p a b op0 op1 rho
    HI Ht Hptr H0 H1 Hx Hu R.
  unfold SymExecVisitor.visit. rewrite bind_unfold.
  unfold get_inst at 1 2. cbn [fst snd]. rewrite HI.
  unfold SymExecVisitor.visitSelectInst. rewrite Ht, Hptr, H0, H1.
  cbn [negb SymExecVisitor.isOne SymExecVisitor.isZero].
  rewrite !bind_unfold. cbn [get_ir fst snd]. unfold dyn_cast_CmpInst.
  rewrite Hx. rewrite !bind_unfold.
  pose proof (gen_assertion_holds false x s _ _ rho Hx (or_introl eq_refl) R) as Hsound.
  destruct (gen_assertion_snd false x s) as [ab E]. rewrite Hx in E.
  assert (Hone : exists cst, fst (gen_assertion false x s) = [cst]).
  { rewrite (gen_assertion_fst _ x p a b s Hx).
    destruct R as (Hp & w & e1 & e2 & _ & L1 & L2 & _).
    destruct p; try discriminate Hp; try discriminate Hu;
      cbn [normalizeCmp swapOperands getSwappedPredicate]; rewrite ?L1, ?L2;
      eexists; reflexivity. }
  destruct Hone as [cst Hcst]. rewrite Hcst in *.
  rewrite bind_unfold, E. unfold add; cbn.
  exists cst. split; [reflexivity|].
  rewrite <- Hsound, holds_all_cons, holds_all_nil. tauto.
Qed.

(** [select (icmp slt %a, %b), %a, %b] with [a = 1] and [b = 2]. *)
Lemma select_on_compare_uses_its_constraint_witness :
  exists cst,
    m_bb (snd (SymExecVisitor.visit (SE := spec_SymEval REGISTERS) Examples.opts
                 (Examples.mem REGISTERS ([], [], [])) Examples.dl
                 (Examples.empty_func "f" []) false "m"
                 (Examples.start Examples.select_cmp_body)))
    = [] ++ [select (name_for_value "m") cst (exp_var (name_for_value "a"))
               (exp_var (name_for_value "b"))] /\
    (holds (Examples.rho_of 1 2) cst
     <-> cmp_truth (SE := spec_SymEval REGISTERS) (Examples.rho_of 1 2)
           (CmpInst ICMP_SLT (Argument "a" Examples.i32) (Argument "b" Examples.i32))
         = Some true).
Proof.
  apply (select_on_compare_uses_its_constraint (spec_SymEval REGISTERS)
           Examples.opts (Examples.mem REGISTERS ([], [], [])) Examples.dl
           (Examples.empty_func "f" []) false
           (Examples.start Examples.select_cmp_body) "m" Examples.i32 "c"
           Examples.i1 (Argument "a" Examples.i32) (Argument "b" Examples.i32)
           ICMP_SLT (Argument "a" Examples.i32) (Argument "b" Examples.i32)).
  - reflexivity.
  - reflexivity.
  - reflexivity.
  - reflexivity.
  - reflexivity.
  - reflexivity.
  - reflexivity.
  - split; [reflexivity|].
    exists 32%N, (exp_var (name_for_value "a")), (exp_var (name_for_value "b")).
    repeat split; vm_compute; first [discriminate|reflexivity].
Defined.

(** ** Assumptions of the verifier *)

Lemma visitCmpInst_run {SE : SymEval} opts blocks neg x op0 op1 s :
  LlvmCrabNoPtrArith opts
  && (negb (isIntegerTy (getType op0)) || negb (isIntegerTy (getType op1)))
  = false ->
  exists flag,
    m_bb (snd (visitCmpInst opts blocks neg x op0 op1 s))
    = m_bb s ++ map assume (fst (gen_assertion neg x s)) ++ flag /\
    (flag = [] \/
     flag = [assume (cst_eq (exp_var (name_for_value x))
                       (exp_cst (if neg then 0 else 1)))]).
Proof.
  intros Hptr. unfold visitCmpInst. rewrite Hptr, !bind_unfold.
  destruct (gen_assertion_snd neg x s) as [ab E]. rewrite E.
  rewrite for_each_add. cbn [get_ir fst snd ir m_vfac m_bb aborted].
  destruct (hasNUsesOrMore _ _ _ _).
  - eexists. split; [|right; reflexivity].
    destruct neg; unfold add; cbn; rewrite <- app_assoc; reflexivity.
  - exists []. split; [|left; reflexivity].
    unfold pure; cbn. rewrite app_nil_r. reflexivity.
Qed.

(** X4.  A call to [verifier.assume] (to [verifier.assume.not]) whose
    argument is an integer compare in range, with both operands of the
    same type, possibly behind a zext, adds assumptions of constraints
    that hold exactly when the compare is true (is false), followed at
    most by the assumption that the flag of the compare is 1 (is 0); it
    adds nothing else, whatever the options. *)
Theorem verifier_assume_assumes_the_compare :
  forall (SE : SymEval) opts m_mem m_dl func interproc s I ty c args
         (neg : bool) x t p a b rho,
    ir s !! I = Some (CallInst ty (Some c) args) ->
    fn_name c = (if neg then "verifier.assume.not" else "verifier.assume") ->
    fn_isIntrinsic c = false ->
    SymExecVisitor.assumed_condition (ir s) args = Some (Inst x t) ->
    ir s !! x = Some (CmpInst p a b) ->
    getType b = getType a ->
    compare_in_range rho (CmpInst p a b) ->
    exists cs flag,
      m_bb (snd (SymExecVisitor.visit opts m_mem m_dl func interproc I s))
      = m_bb s ++ map assume cs ++ flag /\
      (flag = [] \/
       flag = [assume (cst_eq (exp_var (name_for_value x))
                         (exp_cst (if neg then 0 else 1)))]) /\
      (holds_all rho cs <-> cmp_truth rho (CmpInst p a b) = Some (negb neg)).
Proof.
  intros SE opts m_mem m_dl func interproc s I ty c args neg x t p a b rho
    HI Hname Hintr Hcond Hx Hty R.
  unfold SymExecVisitor.visit. rewrite bind_unfold.
  unfold get_inst at 1 2. cbn [fst snd]. rewrite HI.
  assert (Hcall :
    SymExecVisitor.visitCallInst opts m_mem func interproc I ty (Some c) args s
    = visit opts (f_blocks func) neg x s).
  { unfold SymExecVisitor.visitCallInst. rewrite Hname, Hintr.
    destruct neg; cbn -[SymExecVisitor.visit_condition];
      rewrite ?andb_false_r, bind_unfold; cbn [get_ir fst snd];
      unfold SymExecVisitor.visit_condition; rewrite Hcond; reflexivity. }
  rewrite Hcall. unfold visit. rewrite bind_unfold.
  unfold get_inst at 1 2. cbn [fst snd]. rewrite Hx.
  destruct (visitCmpInst_run opts (f_blocks func) neg x a b s) as (flag & Hrun & Hflag).
  { destruct R as (_ & w & _ & _ & Hw & _). rewrite Hty, Hw.
    apply andb_false_r. }
  exists (fst (gen_assertion neg x s)), flag.
  split; [exact Hrun|]. split; [exact Hflag|].
  apply (gen_assertion_holds neg x s _ _ rho Hx (or_introl eq_refl) R).
Qed.

(** [call @verifier.assume (zext (icmp sle %a, %b))] with [a = 1], [b = 2]. *)
Lemma verifier_assume_assumes_the_compare_witness :
  exists cs flag,
    m_bb (snd (SymExecVisitor.visit (SE := spec_SymEval REGISTERS) Examples.opts
                 (Examples.mem REGISTERS ([], [], [])) Examples.dl
                 (Examples.empty_func "f" []) false "k"
                 (Examples.start Examples.assume_body)))
    = [] ++ map assume cs ++ flag /\
    (flag = [] \/
     flag = [assume (cst_eq (exp_var (name_for_value "c")) (exp_cst 1))]) /\
    (holds_all (Examples.rho_of 1 2) cs
     <-> cmp_truth (SE := spec_SymEval REGISTERS) (Examples.rho_of 1 2)
           (CmpInst ICMP_SLE (Argument "a" Examples.i32) (Argument "b" Examples.i32))
         = Some (negb false)).
Proof.
  apply (verifier_assume_assumes_the_compare (spec_SymEval REGISTERS)
           Examples.opts (Examples.mem REGISTERS ([], [], [])) Examples.dl
           (Examples.empty_func "f" []) false
           (Examples.start Examples.assume_body) "k" VoidTy
           (Callee "verifier.assume" true false false) [Inst "z" Examples.i32]
           false "c" Examples.i1 ICMP_SLE
           (Argument "a" Examples.i32) (Argument "b" Examples.i32)).
  - reflexivity.
  - reflexivity.
  - reflexivity.
  - reflexivity.
  - reflexivity.
  - reflexivity.
  - split; [reflexivity|].
    exists 32%N, (exp_var (name_for_value "a")), (exp_var (name_for_value "b")).
    repeat split; vm_compute; first [discriminate|reflexivity].
Defined.

(** ** Memory accesses through the same pointer *)

(** X5.  At track level ARR, a store of an integer value that has an
    expression, through a pointer that has an array and an expression of
    its own, followed by a load of the same type through the same
    pointer: when the cell is a singleton, the two statements added can
    always be run and after any run of them the loaded variable holds the
    value stored; otherwise they are an array store and an array load on
    the same array, the same index and the same element size. *)
Theorem load_after_store_reads_the_stored_value :
  forall (SE : SymEval) opts m_mem m_dl func interproc s St Ld val ptr idx e,
    ir s !! St = Some (StoreInst val ptr) ->
    ir s !! Ld = Some (LoadInst (getType val) ptr) ->
    getTrackLevel m_mem = ARR ->
    isIntegerTy (getType val) = true ->
    0 <= getArrayId m_mem (f_name func) ptr ->
    lookup ptr = Some idx -> lookup val = Some e ->
    let a := getArrayId m_mem (f_name func) ptr in
    let visit := SymExecVisitor.visit opts m_mem m_dl func interproc in
    let s' := snd (visit Ld (snd (visit St s))) in
    match getSingleton m_mem a with
    | Some c =>
        exists l,
          m_bb s' = m_bb s ++ l /\
          (forall rho, exists rho', exec_list rho l rho') /\
          (forall rho rho',
              exec_list rho l rho' -> rho' (name_for_value Ld) = eval rho e)
    | None =>
        m_bb s' =
        m_bb s ++ [array_store (symVarArr a) idx e
                     (getTypeAllocSize m_dl (getType val)) false;
                   array_load (name_for_value Ld) (symVarArr a) idx
                     (getTypeAllocSize m_dl (getType val))]
    end.
Proof.
  intros SE opts m_mem m_dl func interproc s St Ld val ptr idx e
    HS HL Hlvl Hty Ha Hidx He a visit s'.
  assert (Hneg : (a <? 0) = false) by (apply Z.ltb_ge; exact Ha).
  assert (Hst : visit St s
                = (tt, State (ir s) (m_vfac s)
                         (m_bb s ++
                          [match getSingleton m_mem a with
                           | Some c => assign (symVar c) e
                           | None => array_store (symVarArr a) idx e
                                       (getTypeAllocSize m_dl (getType val)) false
                           end]) (aborted s))).
  { unfold visit, SymExecVisitor.visit. rewrite bind_unfold.
    unfold get_inst at 1 2. cbn [fst snd]. rewrite HS.
    unfold SymExecVisitor.visitStoreInst.
    rewrite Hty, Hlvl, bool_decide_eq_true_2 by reflexivity. cbn [andb].
    fold a. rewrite Hneg, Hidx, He.
    destruct (getSingleton m_mem a); reflexivity. }
  unfold s'. rewrite Hst. cbn [snd].
  unfold visit, SymExecVisitor.visit. rewrite bind_unfold.
  unfold get_inst. cbn [fst snd ir]. rewrite HL.
  unfold SymExecVisitor.visitLoadInst.
  rewrite Hty, Hlvl, bool_decide_eq_true_2 by reflexivity. cbn [andb].
  fold a. rewrite Hneg, Hidx. cbn [negb].
  destruct (getSingleton m_mem a) as [c|]; unfold add; cbn [snd m_bb].
  - eexists. split; [rewrite <- app_assoc; reflexivity|]. split.
    + intros rho. eexists. repeat econstructor.
    + intros rho rho' Hex.
      inversion Hex as [|? rho1 ? ? ? Hs1 Hex1]; subst.
      inversion Hs1; subst.
      inversion Hex1 as [|? rho2 ? ? ? Hs2 Hex2]; subst.
      inversion Hs2; subst. inversion Hex2; subst.
      unfold update at 1. rewrite decide_True by reflexivity.
      rewrite eval_var. unfold update. rewrite decide_True by reflexivity.
      reflexivity.
  - rewrite <- app_assoc. reflexivity.
Qed.

(** [store i32 %x, %p; %ld = load i32, %p], with [%p] in the array 1. *)
Lemma load_after_store_reads_the_stored_value_witness :
  let visit :=
    SymExecVisitor.visit (SE := spec_SymEval ARR) Examples.opts
      (Examples.array_mem ([], [], [])) Examples.dl
      (Examples.empty_func "f" []) false in
  m_bb (snd (visit "ld" (snd (visit "st" (Examples.start Examples.store_load_body)))))
  = [] ++ [array_store (symVarArr 1) (exp_var (name_for_value "p"))
             (exp_var (name_for_value "x")) 4 false;
           array_load (name_for_value "ld") (symVarArr 1)
             (exp_var (name_for_value "p")) 4].
Proof.
  apply (load_after_store_reads_the_stored_value (spec_SymEval ARR)
           Examples.opts (Examples.array_mem ([], [], [])) Examples.dl
           (Examples.empty_func "f" []) false
           (Examples.start Examples.store_load_body) "st" "ld"
           (Argument "x" Examples.i32) (Argument "p" PointerTy)
           (exp_var (name_for_value "p")) (exp_var (name_for_value "x"))).
  - reflexivity.
  - reflexivity.
  - reflexivity.
  - reflexivity.
  - vm_compute. discriminate.
  - reflexivity.
  - reflexivity.
Defined.

(** ** Memory intrinsics *)

(** X6.  A call to an [llvm.memcpy] intrinsic whose destination and source
    have two different arrays adds statements that can always be run, and
    after any run of them the variable of the destination array holds the
    value the variable of the source array had, all other variables being
    unchanged. *)
Theorem memcpy_copies_the_source_array :
  forall (SE : SymEval) opts m_mem m_dl func interproc s I ty c suffix
         dest src rest,
    ir s !! I = Some (CallInst ty (Some c) (dest :: src :: rest)) ->
    fn_name c = ("llvm.memcpy" ++ suffix)%string ->
    fn_isIntrinsic c = true ->
    let d := getArrayId m_mem (f_name func) dest in
    let a := getArrayId m_mem (f_name func) src in
    0 <= d -> 0 <= a -> d <> a ->
    exists l,
      m_bb (snd (SymExecVisitor.visit opts m_mem m_dl func interproc I s))
      = m_bb s ++ l /\
      (forall rho, exists rho', exec_list rho l rho') /\
      (forall rho rho',
          exec_list rho l rho' ->
          rho' (symVarArr d) = rho (symVarArr a) /\
          forall y, y <> symVarArr d -> rho' y = rho y).
Proof.
  intros SE opts m_mem m_dl func interproc s I ty c suffix dest src rest
    HI Hname Hintr d a Hd Ha Hne.
  unfold SymExecVisitor.visit. rewrite bind_unfold.
  unfold get_inst. cbn [fst snd]. rewrite HI.
  unfold SymExecVisitor.visitCallInst. rewrite Hname, Hintr.
  assert (String.prefix "shadow.mem" ("llvm.memcpy" ++ suffix)%string = false)
    as -> by reflexivity.
  assert (String.eqb ("llvm.memcpy" ++ suffix)%string "seahorn.fn.enter" = false)
    as -> by reflexivity.
  assert (SymExecVisitor.is_alloc_name ("llvm.memcpy" ++ suffix)%string = false)
    as -> by reflexivity.
  assert (String.prefix "llvm.memset" ("llvm.memcpy" ++ suffix)%string = false)
    as -> by reflexivity.
  assert (String.prefix "llvm.memcpy" ("llvm.memcpy" ++ suffix)%string = true)
    as -> by (destruct suffix; reflexivity).
  rewrite andb_false_r. fold d a.
  assert ((d <? 0) = false) as -> by (apply Z.ltb_ge; exact Hd).
  assert ((a <? 0) = false) as -> by (apply Z.ltb_ge; exact Ha).
  cbn. eexists. split; [rewrite <- app_assoc; reflexivity|]. split.
  - intros rho. eexists. econstructor; [apply (exec_havoc _ _ 0)|].
    repeat econstructor.
  - intros rho rho' Hex.
    inversion Hex as [|? rho1 ? ? ? Hs1 Hex1]; subst. inversion Hs1; subst.
    inversion Hex1 as [|? rho2 ? ? ? Hs2 Hex2]; subst. inversion Hs2; subst.
    inversion Hex2; subst. split.
    + unfold update at 1. rewrite decide_True by reflexivity.
      rewrite eval_var. unfold update. rewrite decide_False; [reflexivity|].
      unfold symVarArr. congruence.
    + intros y Hy. unfold update. rewrite !decide_False by exact Hy. reflexivity.
Qed.

(** [memcpy (%p, %q, 16)], with [%p] in the array 1 and [%q] in the array 2. *)
Lemma memcpy_copies_the_source_array_witness :
  exists l,
    m_bb (snd (SymExecVisitor.visit (SE := spec_SymEval ARR) Examples.opts
                 (Examples.array_mem ([], [], [])) Examples.dl
                 (Examples.empty_func "f" []) false "k"
                 (Examples.start Examples.memcpy_body)))
    = [] ++ l /\
    (forall rho, exists rho', exec_list rho l rho') /\
    (forall rho rho',
        exec_list rho l rho' ->
        rho' (symVarArr 1) = rho (symVarArr 2) /\
        forall y, y <> symVarArr 1 -> rho' y = rho y).
Proof.
  apply (memcpy_copies_the_source_array (spec_SymEval ARR) Examples.opts
           (Examples.array_mem ([], [], [])) Examples.dl
           (Examples.empty_func "f" []) false
           (Examples.start Examples.memcpy_body) "k" VoidTy
           (Callee "llvm.memcpy.p0i8.p0i8.i32" true true false)
           ".p0i8.p0i8.i32" (Argument "p" PointerTy) (Argument "q" PointerTy)
           [ConstantInt 32 16]).
  - reflexivity.
  - reflexivity.
  - reflexivity.
  - vm_compute. discriminate.
  - vm_compute. discriminate.
  - vm_compute. discriminate.
Defined.

(** ** Arrays at a call site *)

Lemma ref_actuals_run (refs : list Z) (s : state) :
  exists snaps,
    SymExecVisitor.ref_actuals refs s
    = (map (fun i => (fresh_name (m_vfac s + N.of_nat i), ARR_TYPE))
         (seq 0 (length refs)),
       State (ir s) (m_vfac s + N.of_nat (length refs)) (m_bb s ++ snaps)
         (aborted s)) /\
    Forall (fun st => (exists k, defined_var st = Some (fresh_name k)) \/
                      (exists a, a ∈ refs /\ defined_var st = Some (symVarArr a)))
      snaps /\
    (NoDup refs ->
     forall rho rho', exec_list rho snaps rho' ->
       forall i a, refs !! i = Some a ->
         rho' (fresh_name (m_vfac s + N.of_nat i)) = rho (symVarArr a)).
Proof.
  unfold SymExecVisitor.ref_actuals.
  induction refs as [|a refs IH] using rev_ind.
  - exists []. simpl. unfold pure.
    rewrite N.add_0_r, app_nil_r, state_eta.
    split; [reflexivity|]. split; [constructor|].
    intros _ rho rho' _ i a H. discriminate H.
  - destruct IH as (snaps & Hrun & Hdef & Hsem).
    rewrite foldl_app. cbn [foldl]. rewrite bind_unfold, Hrun.
    cbn [fst snd]. rewrite !bind_unfold.
    cbn [vfac_get add pure fst snd ir m_vfac m_bb aborted].
    set (n := (m_vfac s + N.of_nat (length refs))%N).
    exists (snaps ++ [assign (fresh_name n) (exp_var (symVarArr a));
                      havoc (symVarArr a)]).
    split; [|split].
    + rewrite length_app, seq_app, map_app. cbn [length seq map].
      rewrite Nat.add_0_l. fold n.
      replace (m_vfac s + N.of_nat (length refs + 1))%N with (n + 1)%N
        by (unfold n; lia).
      rewrite <- !app_assoc. reflexivity.
    + apply Forall_app. split.
      * eapply Forall_impl; [exact Hdef|].
        intros st [H|(a' & Ha' & H)]; [left; exact H|right].
        exists a'. split; [apply elem_of_app; left; exact Ha'|exact H].
      * apply Forall_cons. split; [left; eexists; reflexivity|].
        apply Forall_cons. split; [|constructor].
        right. exists a. split; [|reflexivity].
        apply elem_of_app. right. apply list_elem_of_here.
    + intros Hnd rho rho' Hex i a' Hi.
      apply NoDup_app in Hnd. destruct Hnd as (Hnd & Hnotin & _).
      apply exec_list_app in Hex. destruct Hex as (rho1 & Hex1 & Hex2).
      inversion Hex2 as [|? rho2 ? ? ? Hs1 Hex3]; subst. inversion Hs1; subst.
      inversion Hex3 as [|? rho3 ? ? ? Hs2 Hex4]; subst. inversion Hs2; subst.
      inversion Hex4; subst.
      unfold update at 1. rewrite decide_False by discriminate.
      apply lookup_app_Some in Hi. destruct Hi as [Hi|[Hlen Hi]].
      * unfold update. rewrite decide_False.
        -- eapply Hsem; eassumption.
        -- intros E. inversion E as [E']. apply lookup_lt_Some in Hi.
           unfold n in E'. lia.
      * apply list_lookup_singleton_Some in Hi. destruct Hi as [Hi ->].
        replace i with (length refs) by lia. fold n.
        unfold update. rewrite decide_True by reflexivity.
        rewrite eval_var. apply (exec_list_frame _ _ _ _ Hex1).
        eapply Forall_impl; [exact Hdef|].
        intros st [[k H]|(a0 & Ha0 & H)]; rewrite H; [discriminate|].
        intros E. inversion E; subst. apply (Hnotin a' Ha0).
        apply list_elem_of_here.
Qed.

(** X7.  In inter-procedural mode at track level ARR, a call to a function
    that is not variadic and not handled specially ends with a callsite
    statement whose actual parameters are the scalar ones, then one fresh
    input version per ref array of the call, then the ref arrays, then the
    new arrays, in the order of the memory analysis.  The statements
    between the scalar parameters and the callsite can always be run, and
    when the ref arrays are pairwise distinct every input version holds,
    after them, the value its array had before them. *)
Theorem callsite_passes_the_arrays_and_their_input_versions :
  forall (SE : SymEval) opts m_mem m_dl func I ty c args s,
    ir s !! I = Some (CallInst ty (Some c) args) ->
    getTrackLevel m_mem = ARR ->
    handled_specially func c = false ->
    fn_isVarArg c = false ->
    let refs := fst (fst (getRefModNewArrays m_mem I)) in
    let news := snd (getRefModNewArrays m_mem I) in
    let scalars := fst (SymExecVisitor.scalar_actuals opts args s) in
    let s1 := snd (SymExecVisitor.scalar_actuals opts args s) in
    let ins := map (fun i => (fresh_name (m_vfac s1 + N.of_nat i), ARR_TYPE))
                 (seq 0 (length refs)) in
    let arrays := map (fun a => (symVarArr a, ARR_TYPE)) in
    exists snaps r,
      m_bb (snd (SymExecVisitor.visit opts m_mem m_dl func true I s))
      = m_bb s1 ++ snaps
        ++ [callsite r (name_for_function (fn_name c))
              (scalars ++ ins ++ arrays refs ++ arrays news)] /\
      (forall rho, exists rho', exec_list rho snaps rho') /\
      (NoDup refs ->
       forall rho rho', exec_list rho snaps rho' ->
         forall i a, refs !! i = Some a ->
           rho' (fresh_name (m_vfac s1 + N.of_nat i)) = rho (symVarArr a)).
Proof.
  intros SE opts m_mem m_dl func I ty c args s HI HARR Hc Hva
    refs news scalars s1 ins arrays.
  unfold SymExecVisitor.visit. rewrite bind_unfold.
  unfold get_inst. cbn [fst snd]. rewrite HI.
  rewrite (visitCallInst_ordinary _ _ _ _ _ _ _ _ Hc), Hva. cbn [negb orb].
  rewrite bind_unfold. fold scalars s1.
  rewrite HARR, bool_decide_eq_true_2 by reflexivity.
  unfold refs, news in *. clear refs news.
  destruct (getRefModNewArrays m_mem I) as [[refs mods] news]. cbn [fst snd] in *.
  destruct (ref_actuals_run refs s1) as (snaps & Hrun & Hdef & Hsem).
  rewrite !bind_unfold, Hrun. cbn [pure fst snd]. fold ins.
  assert (Hex : forall rho, exists rho', exec_list rho snaps rho').
  { intros rho. apply exec_list_total.
    eapply Forall_impl; [exact Hdef|].
    intros st [[k H]|(a & _ & H)]; rewrite H; eauto. }
  destruct (negb _ && _ && _); exists snaps; eexists;
    (split; [|split; [exact Hex|exact Hsem]]);
    unfold add; cbn [snd m_bb]; rewrite <- app_assoc; reflexivity.
Qed.

(** [call void @g ()] with ref arrays 5 and 6 and new array 7. *)
Lemma callsite_passes_the_arrays_and_their_input_versions_witness :
  let m := Examples.array_mem ([5; 6], [], [7]) in
  let s := Examples.start Examples.g_call_body in
  let scalars :=
    fst (SymExecVisitor.scalar_actuals (SE := spec_SymEval ARR) Examples.opts [] s) in
  let s1 :=
    snd (SymExecVisitor.scalar_actuals (SE := spec_SymEval ARR) Examples.opts [] s) in
  let ins := map (fun i => (fresh_name (m_vfac s1 + N.of_nat i), ARR_TYPE))
               (seq 0 (length [5; 6])) in
  let arrays := map (fun a => (symVarArr a, ARR_TYPE)) in
  exists snaps r,
    m_bb (snd (SymExecVisitor.visit (SE := spec_SymEval ARR) Examples.opts m
                 Examples.dl (Examples.empty_func "f" []) true "k" s))
    = m_bb s1 ++ snaps
      ++ [callsite r (name_for_function "g")
            (scalars ++ ins ++ arrays [5; 6] ++ arrays [7])] /\
    (forall rho, exists rho', exec_list rho snaps rho') /\
    (NoDup [5; 6] ->
     forall rho rho', exec_list rho snaps rho' ->
       forall i a, [5; 6] !! i = Some a ->
         rho' (fresh_name (m_vfac s1 + N.of_nat i)) = rho (symVarArr a)).
Proof.
  apply (callsite_passes_the_arrays_and_their_input_versions (spec_SymEval ARR)
           Examples.opts (Examples.array_mem ([5; 6], [], [7])) Examples.dl
           (Examples.empty_func "f" []) "k" VoidTy
           (Callee "g" false false false) []
           (Examples.start Examples.g_call_body)).
  - reflexivity.
  - reflexivity.
  - reflexivity.
  - reflexivity.
Defined.

(** ** Shifts by a constant *)

Lemma shift_factor_run k s :
  SymExecVisitor.shift_factor k s
  = (SymExecVisitor.factor_loop (Z.to_nat (k mod 2 ^ 32)) 1,
     State (ir s) (m_vfac s) (m_bb s)
       (aborted s || negb (SymExecVisitor.fits_int k) || negb (0 <=? k))).
Proof. reflexivity. Qed.

(** X8.  A tracked [shl] or [ashr] whose operands have expressions, the
    second one a constant [k] with [0 <= k < 32], is translated to one
    statement, a multiplication (for [shl]) or a division (for [ashr]) of
    the first operand by the constant [2^k]; nothing else changes and no
    assertion fails. *)
Theorem shift_by_small_constant_scales_by_power_of_two :
  forall (SE : SymEval) opts m_mem m_dl func interproc s I op ty v1 v2 e1 e2,
    ir s !! I = Some (BinaryOperator op ty v1 v2) ->
    op = Shl \/ op = AShr ->
    isTracked (Inst I ty) = true ->
    lookup v1 = Some e1 -> lookup v2 = Some e2 ->
    is_constant e2 = true -> 0 <= constant e2 < 32 ->
    SymExecVisitor.visit opts m_mem m_dl func interproc I s
    = (tt, State (ir s) (m_vfac s)
             (m_bb s ++ [arith (if decide (op = Shl) then OP_MUL else OP_DIV)
                           (name_for_value I) e1 (exp_cst (2 ^ constant e2))])
             (aborted s)).
Proof.
  intros SE opts m_mem m_dl func interproc s I op ty v1 v2 e1 e2
    HI Hop Ht H1 H2 Hc Hk.
  unfold SymExecVisitor.visit. rewrite bind_unfold.
  unfold get_inst. cbn [fst snd]. rewrite HI.
  unfold SymExecVisitor.visitBinaryOperator. rewrite Ht. cbn [negb].
  assert (Hf : SymExecVisitor.shift_factor (constant e2) s
               = (2 ^ constant e2, s)).
  { rewrite shift_factor_run. rewrite Z.mod_small by lia.
    rewrite factor_loop_small by exact Hk.
    assert (SymExecVisitor.fits_int (constant e2) = true) as ->.
    { unfold SymExecVisitor.fits_int. apply andb_true_iff. split; lia. }
    assert ((0 <=? constant e2) = true) as -> by lia.
    cbn [negb]. rewrite !orb_false_r, state_eta. reflexivity. }
  destruct Hop as [-> | ->]; unfold SymExecVisitor.doArithmetic;
    rewrite H1, H2, Hc, bind_unfold, Hf; reflexivity.
Qed.

(** [%r = shl i32 %x, 3] multiplies by 8. *)
Lemma shift_by_small_constant_scales_by_power_of_two_witness :
  SymExecVisitor.visit (SE := spec_SymEval REGISTERS) Examples.opts
    (Examples.mem REGISTERS ([], [], [])) Examples.dl
    (Examples.empty_func "f" []) false "r" (Examples.start Examples.shl3_body)
  = (tt, State Examples.shl3_body 0
           ([] ++ [arith (if decide (Shl = Shl) then OP_MUL else OP_DIV)
                     (name_for_value "r") (exp_var (name_for_value "x"))
                     (exp_cst (2 ^ constant (exp_cst 3)))])
           false).
Proof.
  apply (shift_by_small_constant_scales_by_power_of_two (spec_SymEval REGISTERS)
           Examples.opts (Examples.mem REGISTERS ([], [], [])) Examples.dl
           (Examples.empty_func "f" []) false
           (Examples.start Examples.shl3_body) "r" Shl Examples.i32
           (Argument "x" Examples.i32) (ConstantInt 32 3)
           (exp_var (name_for_value "x")) (exp_cst 3)).
  - reflexivity.
  - left. reflexivity.
  - reflexivity.
  - reflexivity.
  - reflexivity.
  - reflexivity.
  - simpl. lia.
Defined.

(** X9.  A tracked [shl] or [ashr] whose first operand has an expression
    and whose second operand has a constant expression [k] outside that
    range: for [32 <= k < 2^31] the 32-bit factor has wrapped around, so
    that [shl] is translated to a multiplication by the constant 0 and
    [ashr] to a division by the constant 0, without any assertion
    failing; for [-2^31 <= k < 0] the assertion on the shift fails. *)
Theorem shift_by_large_or_negative_constant :
  forall (SE : SymEval) opts m_mem m_dl func interproc s I op ty v1 v2 e1 e2,
    ir s !! I = Some (BinaryOperator op ty v1 v2) ->
    op = Shl \/ op = AShr ->
    isTracked (Inst I ty) = true ->
    lookup v1 = Some e1 -> lookup v2 = Some e2 ->
    is_constant e2 = true ->
    let s' := snd (SymExecVisitor.visit opts m_mem m_dl func interproc I s) in
    (32 <= constant e2 < 2 ^ 31 ->
     s' = State (ir s) (m_vfac s)
            (m_bb s ++ [arith (if decide (op = Shl) then OP_MUL else OP_DIV)
                          (name_for_value I) e1 (exp_cst 0)])
            (aborted s)) /\
    (- 2 ^ 31 <= constant e2 < 0 -> aborted s' = true).
Proof.
  intros SE opts m_mem m_dl func interproc s I op ty v1 v2 e1 e2
    HI Hop Ht H1 H2 Hc s'.
  assert (Hs' : s' = snd (add (arith (if decide (op = Shl) then OP_MUL else OP_DIV)
                                 (name_for_value I) e1
                                 (exp_cst (fst (SymExecVisitor.shift_factor
                                                  (constant e2) s))))
                            (snd (SymExecVisitor.shift_factor (constant e2) s)))).
  { unfold s', SymExecVisitor.visit. rewrite bind_unfold.
    unfold get_inst. cbn [fst snd]. rewrite HI.
    unfold SymExecVisitor.visitBinaryOperator. rewrite Ht. cbn [negb].
    destruct Hop as [-> | ->]; unfold SymExecVisitor.doArithmetic;
      rewrite H1, H2, Hc, bind_unfold; reflexivity. }
  rewrite Hs', shift_factor_run. cbn [fst snd add ir m_vfac m_bb aborted].
  split; intros Hk.
  - rewrite Z.mod_small by lia. rewrite factor_loop_large by lia.
    assert (SymExecVisitor.fits_int (constant e2) = true) as ->.
    { unfold SymExecVisitor.fits_int. apply andb_true_iff. split; lia. }
    assert ((0 <=? constant e2) = true) as -> by lia.
    cbn [negb]. rewrite !orb_false_r. reflexivity.
  - assert ((0 <=? constant e2) = false) as -> by lia.
    cbn [negb]. apply orb_true_r.
Qed.

(** [%r = ashr i64 %x, 32] divides by 0. *)
Lemma shift_by_large_or_negative_constant_witness :
  let s := Examples.start Examples.ashr32_body in
  let s' :=
    snd (SymExecVisitor.visit (SE := spec_SymEval REGISTERS) Examples.opts
           (Examples.mem REGISTERS ([], [], [])) Examples.dl
           (Examples.empty_func "f" []) false "r" s) in
  (32 <= constant (exp_cst 32) < 2 ^ 31 ->
   s' = State (ir s) (m_vfac s)
          (m_bb s ++ [arith (if decide (AShr = Shl) then OP_MUL else OP_DIV)
                        (name_for_value "r") (exp_var (name_for_value "x"))
                        (exp_cst 0)])
          (aborted s)) /\
  (- 2 ^ 31 <= constant (exp_cst 32) < 0 -> aborted s' = true).
Proof.
  apply (shift_by_large_or_negative_constant (spec_SymEval REGISTERS)
           Examples.opts (Examples.mem REGISTERS ([], [], [])) Examples.dl
           (Examples.empty_func "f" []) false
           (Examples.start Examples.ashr32_body) "r" AShr Examples.i64
           (Argument "x" Examples.i64) (ConstantInt 64 32)
           (exp_var (name_for_value "x")) (exp_cst 32)).
  - reflexivity.
  - right. reflexivity.
  - reflexivity.
  - reflexivity.
  - reflexivity.
  - reflexivity.
Defined.

(** ** Results that are not tracked *)

(** X10.  A binary operator, cast, select, GEP or base-case instruction
    whose result is not tracked is not translated: the block, the variable
    factory, the IR and the assertion state are left as they are,
    whatever the options, the memory analysis and the mode. *)
Theorem untracked_results_are_not_translated :
  forall (SE : SymEval) opts m_mem m_dl func interproc s I i,
    ir s !! I = Some i ->
    translated_only_if_tracked i = true ->
    isTracked (Inst I (inst_type i)) = false ->
    SymExecVisitor.visit opts m_mem m_dl func interproc I s = (tt, s).
Proof.
  intros SE opts m_mem m_dl func interproc s I i HI Hi Ht.
  unfold SymExecVisitor.visit. rewrite bind_unfold.
  unfold get_inst. cbn [fst snd]. rewrite HI.
  destruct i; try discriminate Hi; cbn [inst_type] in Ht.
  - unfold SymExecVisitor.visitBinaryOperator. rewrite Ht. reflexivity.
  - assert (SymExecVisitor.doCast opts func I ty src s = (tt, s))
      by (unfold SymExecVisitor.doCast; rewrite Ht; reflexivity).
    destruct op; unfold SymExecVisitor.visitExtInst, SymExecVisitor.visitCastInst;
      rewrite ?bind_unfold; cbn [get_ir fst snd];
      try destruct (negb _); assumption || reflexivity.
  - unfold SymExecVisitor.visitSelectInst. rewrite Ht. reflexivity.
  - unfold SymExecVisitor.visitGetElementPtrInst. rewrite Ht. reflexivity.
  - unfold SymExecVisitor.visitInstruction. rewrite Ht. reflexivity.
Qed.

(** A GEP when pointers are not tracked. *)
Lemma untracked_results_are_not_translated_witness :
  SymExecVisitor.visit (SE := spec_SymEval NONE) Examples.opts
    (Examples.mem NONE ([], [], [])) Examples.dl
    (Examples.empty_func "f" []) false "q" (Examples.start Examples.gep_body)
  = (tt, Examples.start Examples.gep_body).
Proof.
  apply (untracked_results_are_not_translated (spec_SymEval NONE)
           Examples.opts (Examples.mem NONE ([], [], [])) Examples.dl
           (Examples.empty_func "f" []) false
           (Examples.start Examples.gep_body) "q"
           (GetElementPtrInst (Argument "p" PointerTy)
              [(ConstantInt 32 1, SequentialStep 4)])).
  - reflexivity.
  - reflexivity.
  - reflexivity.
Defined.

(** ** PHI nodes that do not depend on each other *)

Lemma save_old_values_nothing {SE : SymEval} opts inc_BB F BB phis m s :
  (forall phi ty inc v,
      (phi, ty, inc) ∈ phis ->
      getIncomingValueForBlock inc inc_BB = Some v ->
      is_phi_of F BB v = false) ->
  save_old_values opts inc_BB F BB phis m s = (m, s).
Proof.
  induction phis as [|[[phi ty] inc] phis IH]; intros H; [reflexivity|].
  rewrite save_old_values_cons.
  assert (saved_value opts inc_BB F BB m (phi, ty, inc) = None) as ->.
  { unfold saved_value.
    destruct (getIncomingValueForBlock inc inc_BB) as [v|] eqn:E; [|reflexivity].
    rewrite (H phi ty inc v (list_elem_of_here _ _) E), andb_false_r.
    reflexivity. }
  apply IH. intros phi' ty' inc' v Hin. apply (H phi' ty' inc' v).
  apply list_elem_of_further, Hin.
Qed.

(** X11.  When no PHI node at the head of a block takes, for the
    predecessor at hand, a PHI node of the same block as its incoming
    value, the PHI visitor issues no fresh name: it only adds, for every
    translated PHI node in the order of the block, the assignment of the
    expression of its incoming value, or a havoc when that value has no
    expression.  In particular a block that does not start with a PHI
    node receives nothing. *)
Theorem phis_without_dependencies_need_no_snapshot :
  forall (SE : SymEval) opts inc_BB BB s,
    let phis := leading_phis (ir s) (bb_insts BB) in
    (forall phi ty inc v,
        (phi, ty, inc) ∈ phis ->
        getIncomingValueForBlock inc inc_BB = Some v ->
        is_phi_of (ir s) BB v = false) ->
    visitBasicBlock opts inc_BB BB s
    = (tt, State (ir s) (m_vfac s)
             (m_bb s ++ omap (phi_statement opts inc_BB []) phis) (aborted s)).
Proof.
  intros SE opts inc_BB BB s phis H.
  unfold visitBasicBlock. rewrite bind_unfold. cbn [get_ir fst snd].
  fold phis. rewrite bind_unfold, save_old_values_nothing by exact H.
  cbn [fst snd]. apply assign_phis_run.
Qed.

(** The PHI nodes of the swap, entered from [entry]. *)
Lemma phis_without_dependencies_need_no_snapshot_witness :
  visitBasicBlock (SE := spec_SymEval REGISTERS) Examples.opts "entry"
    Examples.swap_block (Examples.start Examples.swap_body)
  = (tt, State Examples.swap_body 0
           ([] ++ omap (phi_statement (SE := spec_SymEval REGISTERS)
                          Examples.opts "entry" [])
                    (leading_phis Examples.swap_body ["p1"; "p2"]))
           false).
Proof.
  apply (phis_without_dependencies_need_no_snapshot (spec_SymEval REGISTERS)
           Examples.opts "entry" Examples.swap_block
           (Examples.start Examples.swap_body)).
  intros phi ty inc v Hin Hinc.
  apply list_elem_of_In in Hin. vm_compute in Hin.
  destruct Hin as [Hin|[Hin|[]]]; inversion Hin; subst;
    vm_compute in Hinc; inversion Hinc; reflexivity.
Defined.

(** ** What the visitors add to a block *)

#[local] Instance emits_preorder P : PreOrder (emits P).
Proof.
  split.
  - intros s. exists []. split; [symmetry; apply app_nil_r|constructor].
  - intros s1 s2 s3 (l1 & E1 & F1) (l2 & E2 & F2). exists (l1 ++ l2).
    split; [rewrite E2, E1, app_assoc; reflexivity|].
    apply Forall_app. auto.
Qed.

Lemma emits_add (P : statement -> Prop) st : P st -> keeps (emits P) (add st).
Proof. intros H s. exists [st]. split; [reflexivity|]. constructor; auto. Qed.

Lemma emits_silent (P : statement -> Prop) {A} (m : M A) :
  (forall s, m_bb (snd (m s)) = m_bb s) -> keeps (emits P) m.
Proof.
  intros H s. exists []. split; [rewrite H, app_nil_r; reflexivity|constructor].
Qed.

Lemma emits_vfac_get P : keeps (emits P) vfac_get.
Proof. apply emits_silent. reflexivity. Qed.

Lemma emits_assert P b : keeps (emits P) (assert b).
Proof. apply emits_silent. reflexivity. Qed.

Lemma emits_get_inst P I : keeps (emits P) (get_inst I).
Proof. apply emits_silent. reflexivity. Qed.

Lemma emits_get_ir P : keeps (emits P) get_ir.
Proof. apply emits_silent. reflexivity. Qed.

Lemma emits_gen_assertion {SE : SymEval} P neg I : keeps (emits P) (gen_assertion neg I).
Proof.
  apply emits_silent. intros s.
  destruct (gen_assertion_snd neg I s) as [ab ->]. reflexivity.
Qed.

#[local] Hint Resolve keeps_pure emits_vfac_get emits_assert emits_get_inst
  emits_get_ir emits_gen_assertion : keeps.

(** What follows [m_vfac.get ()] works on a fresh name. *)
Lemma keeps_bind_vfac_get (R : relation state) `{!PreOrder R} {B}
    (k : varname -> M B) :
  keeps R vfac_get -> (forall n, keeps R (k (fresh_name n))) ->
  keeps R (bind vfac_get k).
Proof.
  intros Hv Hk s. rewrite bind_unfold.
  transitivity (snd (vfac_get s)); [apply Hv|apply Hk].
Qed.

(** Statements are added one by one; [side] proves that each satisfies
    the property at hand. *)
Ltac emits_tac side :=
  repeat first
    [ apply emits_add; solve [side]
    | apply keeps_pure; typeclasses eauto
    | apply keeps_bind_vfac_get; [typeclasses eauto|apply emits_vfac_get|intros ?]
    | keeps_step ].

#[local] Instance same_vfac_preorder : PreOrder same_vfac.
Proof.
  split; [intros s; reflexivity|].
  intros s1 s2 s3 H1 H2. unfold same_vfac in *. congruence.
Qed.

Lemma same_vfac_silent {A} (m : M A) :
  (forall s, m_vfac (snd (m s)) = m_vfac s) -> keeps same_vfac m.
Proof. intros H s. apply H. Qed.

Lemma same_vfac_gen_assertion {SE : SymEval} neg I :
  keeps same_vfac (gen_assertion neg I).
Proof.
  apply same_vfac_silent. intros s.
  destruct (gen_assertion_snd neg I s) as [ab ->]. reflexivity.
Qed.

Section emits_visitors.
Context {SE : SymEval} (opts : options) (m_mem : MemAnalysis)
        (m_dl : DataLayout) (func : function).

(** *** Conditions *)

Lemma cond_visit_emits (P : statement -> Prop) blocks neg I :
  (forall c, P (assume c)) -> P (havoc (name_for_value I)) ->
  keeps (emits P) (visit opts blocks neg I).
Proof.
  intros Ha Hh.
  unfold visit, visitCmpInst, visitBinaryOperator, assume_each.
  emits_tac ltac:(auto).
Qed.

Lemma cond_visit_vfac blocks neg I :
  keeps same_vfac (visit opts blocks neg I).
Proof.
  unfold visit, visitCmpInst, visitBinaryOperator, assume_each.
  repeat first
    [ apply same_vfac_gen_assertion
    | apply same_vfac_silent; reflexivity
    | keeps_step ].
Qed.

(** X12.  Translating a condition (of a branch, of a verifier assumption)
    never issues a fresh name and never defines a variable by an
    assignment: whatever the instruction, the polarity and the options,
    the statements added are assumptions, and at most havocs of the
    variable of the visited instruction itself. *)
Theorem condition_visitor_only_assumes :
  forall blocks neg I s,
    let s' := snd (visit opts blocks neg I s) in
    m_vfac s' = m_vfac s /\
    exists l,
      m_bb s' = m_bb s ++ l /\
      Forall (fun st => (exists c, st = assume c) \/ st = havoc (name_for_value I)) l.
Proof.
  intros blocks neg I s. split.
  - apply (cond_visit_vfac blocks neg I s).
  - apply (cond_visit_emits _ blocks neg I); eauto.
Qed.

(** *** PHI nodes *)

Lemma phi_visit_emits (P : statement -> Prop) inc BB :
  (forall x e, P (assign x e)) -> (forall x, P (havoc x)) ->
  keeps (emits P) (SymExecPhiVisitor.visitBasicBlock opts inc BB).
Proof.
  intros Ha Hh. unfold SymExecPhiVisitor.visitBasicBlock.
  apply keeps_bind; [typeclasses eauto|auto with keeps|intros F].
  apply keeps_bind; [typeclasses eauto| |intros m].
  - generalize (@nil (value * z_lin_exp)).
    induction (SymExecPhiVisitor.leading_phis F (bb_insts BB))
      as [|[[phi ty] incoming] phis IH]; intros m; simpl.
    + apply keeps_pure; typeclasses eauto.
    + emits_tac ltac:(auto); apply IH.
  - induction (SymExecPhiVisitor.leading_phis F (bb_insts BB))
      as [|[[phi ty] incoming] phis IH]; simpl.
    + apply keeps_pure; typeclasses eauto.
    + emits_tac ltac:(auto); apply IH.
Qed.

(** *** Instructions *)

Ltac unfold_visitors :=
  unfold SymExecVisitor.visitBinaryOperator, SymExecVisitor.doArithmetic,
    SymExecVisitor.doBitwise, SymExecVisitor.unsigned_arith,
    SymExecVisitor.arith_const_left, SymExecVisitor.shift_factor,
    SymExecVisitor.visitExtInst, SymExecVisitor.visitCastInst,
    SymExecVisitor.doCast, SymExecVisitor.visitSelectInst,
    SymExecVisitor.visitCallInst, SymExecVisitor.havoc_return_value,
    SymExecVisitor.visit_condition, SymExecVisitor.scalar_actuals,
    SymExecVisitor.ref_actuals, SymExecVisitor.normalizeParam,
    SymExecVisitor.visitLoadInst, SymExecVisitor.visitStoreInst,
    SymExecVisitor.visitAllocaInst, SymExecVisitor.visitGetElementPtrInst,
    SymExecVisitor.gep_index, SymExecVisitor.visitInstruction,
    SymExecVisitor.havoc_if_included.

Lemma inst_visit_intraprocedural I :
  keeps (emits (fun st => is_interprocedural st = false))
    (SymExecVisitor.visit opts m_mem m_dl func false I).
Proof.
  unfold SymExecVisitor.visit.
  apply keeps_bind; [typeclasses eauto|auto with keeps|intros [i|]];
    [|apply keeps_pure; typeclasses eauto].
  destruct i; unfold_visitors; cbn [negb orb];
    emits_tac ltac:(reflexivity);
    apply cond_visit_emits; reflexivity.
Qed.

Lemma visitBlock_intraprocedural B :
  keeps (emits (fun st => is_interprocedural st = false))
    (SymExecVisitor.visitBlock opts m_mem m_dl func false B).
Proof.
  unfold SymExecVisitor.visitBlock, SymExecVisitor.visitTerminator,
    SymExecVisitor.visitReturnInst. cbn [negb].
  emits_tac ltac:(reflexivity). apply inst_visit_intraprocedural.
Qed.

(** X13.  The statements added for an instruction that is not a call, a
    store or an alloca write no variable but the one of the instruction
    itself and fresh names. *)
Theorem instruction_writes_only_its_result :
  forall interproc I i s,
    ir s !! I = Some i ->
    defines_its_result i = true ->
    exists l,
      m_bb (snd (SymExecVisitor.visit opts m_mem m_dl func interproc I s))
      = m_bb s ++ l /\
      Forall (fun st => forall x, written_var st = Some x ->
                          x = name_for_value I \/ exists k, x = fresh_name k) l.
Proof.
  intros interproc I i s HI Hi.
  unfold SymExecVisitor.visit. rewrite bind_unfold.
  unfold get_inst. cbn [fst snd]. rewrite HI.
  destruct i; try discriminate Hi;
    match goal with
    | |- exists l, m_bb (snd (?m ?s)) = m_bb ?s ++ l /\ Forall ?P l =>
        enough (Hk : keeps (emits P) m) by exact (Hk s)
    end;
    unfold_visitors;
    emits_tac ltac:(cbn; intros ? [= <-]; eauto).
Qed.


Lemma visitBlock_below_ARR interproc B :
  getTrackLevel m_mem <> ARR ->
  keeps (emits (fun st => is_array_access st = false))
    (SymExecVisitor.visitBlock opts m_mem m_dl func interproc B).
Proof.
  intros Hlvl.
  unfold SymExecVisitor.visitBlock, SymExecVisitor.visitTerminator,
    SymExecVisitor.visitReturnInst, SymExecVisitor.visit.
  emits_tac ltac:(reflexivity);
    unfold_visitors;
    rewrite ?(bool_decide_eq_false_2 _ Hlvl), ?andb_false_r;
    emits_tac ltac:(reflexivity);
    apply cond_visit_emits; reflexivity.
Qed.

End emits_visitors.

(** [%q = getelementptr %p, 1] writes [%q] and a fresh offset. *)
Lemma instruction_writes_only_its_result_witness :
  exists l,
    m_bb (snd (SymExecVisitor.visit (SE := spec_SymEval REGISTERS) Examples.opts
                 (Examples.mem REGISTERS ([], [], [])) Examples.dl
                 (Examples.empty_func "f" []) false "q"
                 (Examples.start Examples.gep_body)))
    = [] ++ l /\
    Forall (fun st => forall x, written_var st = Some x ->
                        x = name_for_value "q" \/ exists k, x = fresh_name k) l.
Proof.
  apply (instruction_writes_only_its_result (SE := spec_SymEval REGISTERS)
           Examples.opts (Examples.mem REGISTERS ([], [], [])) Examples.dl
           (Examples.empty_func "f" []) false "q"
           (GetElementPtrInst (Argument "p" PointerTy)
              [(ConstantInt 32 1, SequentialStep 4)])
           (Examples.start Examples.gep_body)).
  - reflexivity.
  - reflexivity.
Defined.


(** ** Statements of the whole graph *)

Lemma all_statements_update_node (P : statement -> Prop) bs l f :
  Forall (fun lb => Forall P (stmts (snd lb))) bs ->
  (forall b, get_node bs l = Some b -> Forall P (stmts b) -> Forall P (stmts (f b))) ->
  Forall (fun lb => Forall P (stmts (snd lb))) (update_node bs l f).
Proof.
  induction bs as [|[l' b] bs IH]; intros Hbs Hf; simpl; [constructor|].
  apply Forall_cons in Hbs. destruct Hbs as [Hb Hbs]. simpl in Hf.
  destruct (decide (l' = l)) as [E|E].
  - constructor; [apply Hf; [reflexivity|exact Hb]|exact Hbs].
  - constructor; [exact Hb|]. apply IH; [exact Hbs|exact Hf].
Qed.

Lemma all_statements_insert P g l :
  all_statements P g -> all_statements P (insert g l).
Proof.
  unfold all_statements, insert. intros H.
  destruct (get_node (blocks g) l); [exact H|]. simpl.
  apply Forall_app. split; [exact H|]. repeat constructor.
Qed.

Lemma all_statements_add_succ P g a b :
  all_statements P g -> all_statements P (add_succ g a b).
Proof.
  unfold all_statements, add_succ. simpl. intros H.
  repeat (apply all_statements_update_node; [|intros; assumption]). exact H.
Qed.

Lemma all_statements_remove_succ P g a b :
  all_statements P g -> all_statements P (remove_succ g a b).
Proof.
  unfold all_statements, remove_succ. simpl. intros H.
  repeat (apply all_statements_update_node; [|intros; assumption]). exact H.
Qed.

Section all_statements_builder.
Import CfgBuilder.
Context {SE : SymEval} (opts : options) (m_mem : MemAnalysis)
        (m_dl : DataLayout) (globals : list GlobalVariable)
        (m_func : function).
Variable P : statement -> Prop.

Lemma all_statements_visit_into l v st :
  keeps (emits P) v ->
  all_statements P (m_cfg st) -> all_statements P (m_cfg (visit_into l v st)).
Proof.
  intros Hv H. unfold visit_into, all_statements. simpl.
  apply all_statements_update_node; [exact H|].
  intros b Hb HP. rewrite Hb. simpl.
  destruct (Hv (State (b_ir st) (b_vfac st) (stmts b) (b_aborted st)))
    as (l' & -> & Hl').
  apply Forall_app. auto.
Qed.

Lemma all_statements_update_entry st f :
  (forall b, Forall P (stmts b) -> Forall P (stmts (f b))) ->
  all_statements P (m_cfg st) -> all_statements P (m_cfg (update_entry st f)).
Proof.
  intros Hf H. unfold update_entry, all_statements. simpl.
  apply all_statements_update_node; [exact H|]. intros b _. apply Hf.
Qed.

Lemma Forall_insert_stmt b st :
  P st -> Forall P (stmts b) -> Forall P (stmts (insert_stmt b st)).
Proof.
  intros Hst Hb. unfold insert_stmt.
  destruct (insert_point_at_front b); simpl.
  - constructor; assumption.
  - apply Forall_app. split; [exact Hb|repeat constructor; exact Hst].
Qed.

Hypothesis P_assume : forall c, P (assume c).
Hypothesis P_havoc : forall x, P (havoc x).
Hypothesis P_assign : forall x e, P (assign x e).
Hypothesis P_unreachable : P unreachable.
Hypothesis P_assume_array : forall a n, P (assume_array a n).
Hypothesis P_array_init : forall a vs, P (array_init a vs).

Variable (interproc : bool).
Hypothesis visitBlock_emits :
  forall B, keeps (emits P)
              (SymExecVisitor.visitBlock opts m_mem m_dl m_func interproc B).

Lemma all_statements_execBr st src dst :
  all_statements P (m_cfg st) ->
  all_statements P (m_cfg (snd (execBr opts m_func st src dst))).
Proof.
  intros H. unfold execBr. destruct (bb_term src); cbn [snd]; try exact H.
  - unfold add_edge. destruct (lookup_block st _), (lookup_block st dst);
      cbn [m_cfg with_cfg builder_assert]; try exact H.
    apply all_statements_add_succ, H.
  - destruct (lookup_block st _), (lookup_block st dst);
      cbv beta iota zeta delta [create_extra_block snd]; try exact H.
    apply all_statements_visit_into.
    + unfold branch_condition.
      emits_tac ltac:(auto). apply cond_visit_emits; auto.
    + unfold add_block_in_between. simpl.
      repeat apply all_statements_add_succ.
      apply all_statements_remove_succ, all_statements_insert, H.
Qed.

Lemma all_statements_translate_edge B BB st dst :
  all_statements P (m_cfg st) ->
  all_statements P (m_cfg (translate_edge opts m_func B BB st dst)).
Proof.
  intros H. unfold translate_edge.
  pose proof (all_statements_execBr st B dst H) as H'.
  destruct (execBr opts m_func st B dst) as [mid st']. simpl in H'.
  destruct (find_block m_func dst); [|exact H'].
  apply all_statements_visit_into; [|exact H'].
  apply phi_visit_emits; auto.
Qed.

Lemma all_statements_translate_block acc B :
  all_statements P (m_cfg (fst acc)) ->
  all_statements P
    (m_cfg (fst (translate_block opts m_mem m_dl m_func interproc acc B))).
Proof.
  destruct acc as [st rets]. simpl. intros H. unfold translate_block.
  set (st1 := visit_into _ _ _).
  assert (H1 : all_statements P (m_cfg st1)).
  { apply all_statements_visit_into; [apply visitBlock_emits|exact H]. }
  destruct (isa_ReturnInst (bb_term B)); simpl; [exact H1|].
  apply (foldl_invariant (fun st' => all_statements P (m_cfg st'))); [|exact H1].
  intros a b. apply all_statements_translate_edge.
Qed.

Lemma all_statements_translate_blocks F :
  all_statements P
    (m_cfg (fst (translate_blocks opts m_mem m_dl m_func interproc F))).
Proof.
  unfold translate_blocks.
  apply (foldl_invariant (fun acc => all_statements P (m_cfg (fst acc)))).
  - intros acc B. apply all_statements_translate_block.
  - simpl. apply (foldl_invariant (fun st => all_statements P (m_cfg st))).
    + intros st B H. unfold add_block. simpl. apply all_statements_insert, H.
    + constructor.
Qed.

Lemma all_statements_unify_returns st rets :
  all_statements P (m_cfg st) -> all_statements P (m_cfg (unify_returns st rets)).
Proof.
  intros H. destruct rets as [|r [|r' rets]]; simpl; try exact H.
  set (g0 := insert (m_cfg st) _).
  change (all_statements P
            (foldl (fun g r0 => add_succ g r0 (extra_block (length (m_extra_blks st))))
               g0 (r :: r' :: rets))).
  apply (foldl_invariant (all_statements P)).
  - intros g r0. apply all_statements_add_succ.
  - apply all_statements_insert, H.
Qed.

Lemma Forall_doInitializer init b a :
  Forall P (stmts b) -> Forall P (stmts (doInitializer init b a)).
Proof.
  induction init; simpl; intros H; auto.
  - apply Forall_insert_stmt; auto.
  - destruct (isIntegerTy elementTy); [apply Forall_insert_stmt; auto|exact H].
Qed.

Lemma all_statements_init_globals st :
  all_statements P (m_cfg st) ->
  all_statements P (m_cfg (init_globals m_mem globals m_func st)).
Proof.
  intros H. unfold init_globals.
  apply (foldl_invariant (fun st' => all_statements P (m_cfg st'))); [|exact H].
  intros a gv Ha. destruct (gv_initializer gv); [|exact Ha].
  destruct (_ <? 0); [exact Ha|].
  apply all_statements_update_entry; [|exact Ha].
  intros b Hb. apply Forall_doInitializer. exact Hb.
Qed.

Lemma all_statements_init_new_arrays st :
  all_statements P (m_cfg st) ->
  all_statements P (m_cfg (init_new_arrays m_mem m_func st)).
Proof.
  intros H. unfold init_new_arrays.
  destruct (getRefModNewArraysFn m_mem (f_name m_func)) as [[refs mods] news].
  apply (foldl_invariant (fun st' => all_statements P (m_cfg st'))); [|exact H].
  intros a n Ha. apply all_statements_update_entry; [|exact Ha].
  intros b Hb. apply Forall_insert_stmt; auto.
Qed.

Lemma all_statements_add_function_declaration st :
  all_statements P (m_cfg st) ->
  all_statements P (m_cfg (add_function_declaration opts m_mem m_func st)).
Proof.
  intros H. unfold add_function_declaration.
  destruct (bool_decide _ && _); [|exact H].
  destruct (getRefModNewArraysFn m_mem (f_name m_func)) as [[refs mods] news].
  assert (Hr : all_statements P
                 (m_cfg (fst (ref_formals
                                (builder_assert st (negb (f_isVarArg m_func))) refs)))).
  { unfold ref_formals.
    apply (foldl_invariant (fun acc => all_statements P (m_cfg (fst acc))));
      [|exact H].
    intros [a ps] n Ha. simpl in *.
    apply (all_statements_update_entry
             (Builder (b_ir a) (b_vfac a + 1) (b_aborted a) (m_cfg a)
                (m_bb_map a) (m_extra_blks a))); [|exact Ha].
    intros b Hb. apply Forall_insert_stmt; auto. }
  destruct (ref_formals _ refs) as [st' ins]. exact Hr.
Qed.

Lemma all_statements_build_cfg F :
  all_statements P (m_cfg (build_cfg opts m_mem m_dl globals m_func interproc F)).
Proof.
  unfold build_cfg.
  pose proof (all_statements_translate_blocks F) as H.
  destruct (translate_blocks opts m_mem m_dl m_func interproc F) as [st rets].
  simpl in H. apply (all_statements_unify_returns _ rets) in H.
  assert (H2 : all_statements P
                 (m_cfg (if bool_decide (getTrackLevel m_mem = ARR)
                         then init_new_arrays m_mem m_func
                                (if String.eqb (f_name m_func) "main"
                                 then init_globals m_mem globals m_func
                                        (unify_returns st rets)
                                 else unify_returns st rets)
                         else unify_returns st rets))).
  { destruct (bool_decide _); [|exact H].
    apply all_statements_init_new_arrays.
    destruct (String.eqb _ _); [apply all_statements_init_globals|]; exact H. }
  destruct interproc; [|exact H2].
  apply all_statements_add_function_declaration, H2.
Qed.

End all_statements_builder.

(** X15.  In intra-procedural mode no node of the graph of a function
    holds a callsite or a return statement, whatever the function, the
    memory analysis and the options. *)
Theorem intraprocedural_graph_has_no_callsite_and_no_return :
  forall (SE : SymEval) opts m_mem m_dl globals m_func F,
    all_statements (fun st => is_interprocedural st = false)
      (CfgBuilder.m_cfg
         (CfgBuilder.build_cfg opts m_mem m_dl globals m_func false F)).
Proof.
  intros. apply all_statements_build_cfg; try reflexivity.
  apply visitBlock_intraprocedural.
Qed.

(** X16.  When the track level of the memory analysis is not ARR, no node
    of the graph of a function holds an array load or an array store, in
    either mode. *)
Theorem no_array_access_below_ARR :
  forall (SE : SymEval) opts m_mem m_dl globals m_func interproc F,
    getTrackLevel m_mem <> ARR ->
    all_statements (fun st => is_array_access st = false)
      (CfgBuilder.m_cfg
         (CfgBuilder.build_cfg opts m_mem m_dl globals m_func interproc F)).
Proof.
  intros SE opts m_mem m_dl globals m_func interproc F Hlvl.
  apply all_statements_build_cfg; try reflexivity.
  intros B. apply visitBlock_below_ARR, Hlvl.
Qed.

(** The function that branches on [icmp sgt %a, %b], at level REGISTERS. *)
Lemma no_array_access_below_ARR_witness :
  all_statements (fun st => is_array_access st = false)
    (CfgBuilder.m_cfg
       (CfgBuilder.build_cfg (SE := spec_SymEval REGISTERS) Examples.opts
          (Examples.mem REGISTERS ([], [], [])) Examples.dl []
          Examples.sgt_func false Examples.sgt_body)).
Proof.
  apply (no_array_access_below_ARR (spec_SymEval REGISTERS) Examples.opts
           (Examples.mem REGISTERS ([], [], [])) Examples.dl []
           Examples.sgt_func false Examples.sgt_body).
  simpl. discriminate.
Defined.

(** * Properties of the builder *)

Import CfgBuilder.

(** ** Registering blocks *)

(** X17.  After [add_block] the block is found by [lookup], with the node
    of the graph that carries its label, and the other blocks are found
    as before; the assertion of [add_block] fails exactly when the block
    was registered already. *)
Theorem add_block_registers_the_block :
  forall st B,
    let st' := add_block st B in
    lookup_block st' (bb_name B) = Some (llvm_block (bb_name B)) /\
    is_node (m_cfg st') (llvm_block (bb_name B)) /\
    (forall n, n <> bb_name B -> lookup_block st' n = lookup_block st n) /\
    b_aborted st'
    = b_aborted st || bool_decide (is_Some (lookup_block st (bb_name B))).
Proof.
  intros st B st'. unfold st', add_block, lookup_block. simpl.
  split; [|split; [|split]].
  - apply decide_True, elem_of_app. right. apply list_elem_of_here.
  - apply is_node_labels, labels_insert. right. reflexivity.
  - intros n Hn.
    destruct (decide (n ∈ m_bb_map st)) as [Hin|Hout].
    + apply decide_True, elem_of_app. left. exact Hin.
    + apply decide_False. rewrite elem_of_app, list_elem_of_singleton. tauto.
  - f_equal. destruct (decide (bb_name B ∈ m_bb_map st)); reflexivity.
Qed.

(** ** Splitting the edge of a conditional branch *)

Lemma succs_of_remove_succ g a b l :
  succs_of (remove_succ g a b) l =
  if decide (a = l) then (fun ns => remove_adjacent ns b) <$> succs_of g l
  else succs_of g l.
Proof.
  unfold succs_of, remove_succ; simpl. rewrite !get_node_update_node.
  destruct (decide (b = l)), (decide (a = l));
    destruct (get_node (blocks g) l); reflexivity.
Qed.

Lemma succs_of_insert g l l' :
  succs_of (insert g l) l' =
  match succs_of g l' with
  | Some ns => Some ns
  | None => if decide (l = l') then
              match succs_of g l with Some _ => None | None => Some [] end
            else None
  end.
Proof.
  unfold succs_of, insert.
  destruct (get_node (blocks g) l) as [b|] eqn:El; simpl.
  - destruct (get_node (blocks g) l') eqn:El'; simpl; [reflexivity|].
    destruct (decide (l = l')); reflexivity.
  - assert (Happ : forall bs, get_node (bs ++ [(l, empty_block)]) l' =
                     match get_node bs l' with
                     | Some b => Some b
                     | None => if decide (l = l') then Some empty_block else None
                     end).
    { induction bs as [|[l0 b0] bs IH]; simpl; [reflexivity|].
      destruct (decide (l0 = l')); [reflexivity|exact IH]. }
    rewrite Happ. destruct (get_node (blocks g) l'); simpl; [reflexivity|].
    destruct (decide (l = l')); reflexivity.
Qed.

Lemma stmts_add_succ g a b l :
  stmts <$> get_node (blocks (add_succ g a b)) l = stmts <$> get_node (blocks g) l.
Proof.
  unfold add_succ; simpl. rewrite !get_node_update_node.
  destruct (decide (b = l)), (decide (a = l));
    destruct (get_node (blocks g) l); reflexivity.
Qed.

Lemma stmts_remove_succ g a b l :
  stmts <$> get_node (blocks (remove_succ g a b)) l = stmts <$> get_node (blocks g) l.
Proof.
  unfold remove_succ; simpl. rewrite !get_node_update_node.
  destruct (decide (b = l)), (decide (a = l));
    destruct (get_node (blocks g) l); reflexivity.
Qed.

Lemma stmts_insert_new g l :
  l ∉ labels g -> stmts <$> get_node (blocks (insert g l)) l = Some [].
Proof.
  intros Hl. apply get_node_None in Hl. unfold insert. rewrite Hl. simpl.
  assert (Happ : forall bs, get_node bs l = None ->
                   get_node (bs ++ [(l, empty_block)]) l = Some empty_block).
  { induction bs as [|[l0 b0] bs IH]; simpl.
    - intros _. rewrite decide_True by reflexivity. reflexivity.
    - destruct (decide (l0 = l)); [discriminate|exact IH]. }
  rewrite Happ by exact Hl. reflexivity.
Qed.

Lemma elem_of_remove_adjacent ls l l' :
  l' ∈ remove_adjacent ls l <-> l' ∈ ls /\ l' <> l.
Proof. unfold remove_adjacent. rewrite list_elem_of_filter. tauto. Qed.

Section execBr.
Context {SE : SymEval} (opts : options) (m_func : function).

(** The builder after [execBr] on a conditional branch whose blocks are
    registered. *)
Lemma execBr_conditional st src dst c t f :
  bb_term src = CondBranchInst c t f ->
  bb_name src ∈ m_bb_map st -> dst ∈ m_bb_map st ->
  let bb := extra_block (length (m_extra_blks st)) in
  execBr opts m_func st src dst
  = (Some bb,
     visit_into bb (branch_condition opts m_func c t f dst)
       (add_block_in_between
          (Builder (b_ir st) (b_vfac st) (b_aborted st) (m_cfg st) (m_bb_map st)
             (m_extra_blks st ++ [bb]))
          (llvm_block (bb_name src)) (llvm_block dst) bb)).
Proof.
  intros Ht Hs Hd bb. unfold execBr, lookup_block. rewrite Ht.
  rewrite !decide_True by assumption. reflexivity.
Qed.

Lemma succs_of_visit_into l v st l' :
  succs_of (m_cfg (visit_into l v st)) l' = succs_of (m_cfg st) l'.
Proof.
  unfold succs_of, visit_into. simpl. rewrite get_node_update_node.
  destruct (decide (l = l')); [|reflexivity].
  destruct (get_node (blocks (m_cfg st)) l'); reflexivity.
Qed.

Lemma stmts_visit_into l v st b :
  get_node (blocks (m_cfg st)) l = Some b ->
  stmts <$> get_node (blocks (m_cfg (visit_into l v st))) l
  = Some (m_bb (snd (v (State (b_ir st) (b_vfac st) (stmts b) (b_aborted st))))).
Proof.
  intros Hb. unfold visit_into. simpl.
  rewrite get_node_update_node, decide_True by reflexivity.
  rewrite Hb. reflexivity.
Qed.

Lemma branch_condition_emits (P : statement -> Prop) c t f dst :
  (forall x, P (assume x)) -> (forall x, P (havoc x)) -> P unreachable ->
  keeps (emits P) (branch_condition opts m_func c t f dst).
Proof.
  intros Ha Hh Hu. unfold branch_condition.
  emits_tac ltac:(auto). apply cond_visit_emits; auto.
Qed.

(** The statements of the block [execBr] inserts. *)
Lemma execBr_condition_block st src dst c t f :
  bb_term src = CondBranchInst c t f ->
  bb_name src ∈ m_bb_map st -> dst ∈ m_bb_map st ->
  let bb := extra_block (length (m_extra_blks st)) in
  ~ is_node (m_cfg st) bb ->
  exists b,
    get_node (blocks (m_cfg (snd (execBr opts m_func st src dst)))) bb = Some b /\
    stmts b = m_bb (snd (branch_condition opts m_func c t f dst
                           (State (b_ir st) (b_vfac st) [] (b_aborted st)))).
Proof.
  intros Ht Hs Hd bb Hnew.
  rewrite (execBr_conditional st src dst c t f Ht Hs Hd). fold bb. cbn [snd].
  set (st0 := Builder _ _ _ _ _ _).
  set (st1 := add_block_in_between st0 _ _ bb).
  assert (Hst : stmts <$> get_node (blocks (m_cfg st1)) bb = Some []).
  { unfold st1, add_block_in_between. simpl m_cfg.
    rewrite !stmts_add_succ, stmts_remove_succ.
    apply stmts_insert_new. rewrite <- is_node_labels. exact Hnew. }
  destruct (get_node (blocks (m_cfg st1)) bb) as [b|] eqn:Eb; [|discriminate].
  simpl in Hst. inversion Hst as [Hb].
  pose proof (stmts_visit_into bb (branch_condition opts m_func c t f dst) st1 b Eb)
    as Hv.
  destruct (get_node (blocks (m_cfg (visit_into bb _ st1))) bb) as [b'|];
    [|discriminate].
  simpl in Hv. inversion Hv as [Hb']. exists b'. split; [reflexivity|].
  rewrite Hb', Hb. reflexivity.
Qed.

(** X18.  [execBr] on a conditional branch between two registered blocks
    returns a new extra block, remembers it among the extra blocks, and
    puts it on the edge: the source has an edge to the new block, the new
    block has an edge to the destination, and the source has no direct
    edge to the destination any more. *)
Theorem execBr_splits_the_edge :
  forall st src dst c t f,
    bb_term src = CondBranchInst c t f ->
    bb_name src ∈ m_bb_map st -> dst ∈ m_bb_map st ->
    is_node (m_cfg st) (llvm_block (bb_name src)) ->
    let bb := extra_block (length (m_extra_blks st)) in
    ~ is_node (m_cfg st) bb ->
    let r := execBr opts m_func st src dst in
    let g' := m_cfg (snd r) in
    fst r = Some bb /\
    m_extra_blks (snd r) = m_extra_blks st ++ [bb] /\
    has_edge g' (llvm_block (bb_name src)) bb /\
    has_edge g' bb (llvm_block dst) /\
    ~ has_edge g' (llvm_block (bb_name src)) (llvm_block dst).
Proof.
  intros st src dst c t f Ht Hs Hd Hsrc bb Hnew r g'.
  unfold g', r. rewrite (execBr_conditional st src dst c t f Ht Hs Hd).
  fold bb. cbn [fst snd]. split; [reflexivity|]. split; [reflexivity|].
  set (Src := llvm_block (bb_name src)). set (Dst := llvm_block dst).
  set (st0 := Builder _ _ _ _ _ _).
  set (g0 := insert (m_cfg st) bb).
  set (g1 := remove_succ g0 Src Dst).
  set (g2 := add_succ g1 Src bb).
  set (g3 := add_succ g2 bb Dst).
  assert (Hg : m_cfg (add_block_in_between st0 Src Dst bb) = g3) by reflexivity.
  apply is_node_labels in Hsrc. rewrite is_node_labels in Hnew.
  assert (Hsrc1 : Src ∈ labels g1).
  { unfold g1. rewrite labels_remove_succ. apply labels_insert. auto. }
  assert (Hbb2 : bb ∈ labels g2).
  { unfold g2, g1. rewrite labels_add_succ, labels_remove_succ.
    apply labels_insert. auto. }
  rewrite !has_edge_succs. setoid_rewrite succs_of_visit_into. rewrite Hg.
  split; [|split].
  - apply has_edge_succs. unfold g3.
    apply has_edge_add_succ_mono, has_edge_add_succ, Hsrc1.
  - apply has_edge_succs. unfold g3. apply has_edge_add_succ, Hbb2.
  - intros (ns & Hns & Hin).
    unfold g3, g2 in Hns. rewrite !succs_of_add_succ in Hns.
    rewrite decide_False in Hns by discriminate.
    rewrite decide_True in Hns by reflexivity.
    unfold g1 in Hns. rewrite succs_of_remove_succ, decide_True in Hns by reflexivity.
    destruct (succs_of g0 Src) as [ns0|]; [|discriminate].
    simpl in Hns. inversion Hns; subst.
    apply elem_of_insert_adjacent in Hin. destruct Hin as [Hin|Hin]; [|discriminate].
    apply elem_of_remove_adjacent in Hin. destruct Hin as [_ Hin]. apply Hin. reflexivity.
Qed.

(** X19.  A conditional branch on the constant true or false: the block
    [execBr] inserts on the edge to the successor that is taken is empty,
    and the block it inserts on the edge to the other successor holds the
    single statement [unreachable]. *)
Theorem constant_branch_marks_the_dead_edge :
  forall st src dst (taken : bool) t f,
    bb_term src = CondBranchInst (ConstantInt 1 (if taken then 1 else 0)) t f ->
    bb_name src ∈ m_bb_map st -> dst ∈ m_bb_map st ->
    let bb := extra_block (length (m_extra_blks st)) in
    ~ is_node (m_cfg st) bb ->
    stmts <$> get_node (blocks (m_cfg (snd (execBr opts m_func st src dst)))) bb
    = Some (if decide (dst = if taken then t else f) then [] else [unreachable]).
Proof.
  intros st src dst taken t f Ht Hs Hd bb Hnew. subst bb.
  destruct (execBr_condition_block st src dst _ t f Ht Hs Hd Hnew) as (b & -> & Hb).
  simpl. f_equal. rewrite Hb. unfold branch_condition.
  destruct taken; cbn [SymExecVisitor.isOne SymExecVisitor.isZero unsigned];
    change (1 mod 2 ^ Z.of_N 1 =? 1) with true;
    change (1 mod 2 ^ Z.of_N 1 =? 0) with false;
    change (0 mod 2 ^ Z.of_N 1 =? 1) with false;
    change (0 mod 2 ^ Z.of_N 1 =? 0) with true;
    cbn [andb orb];
    destruct (decide (dst = _)) as [E|E]; repeat case_bool_decide;
    subst; cbn [negb andb orb]; try reflexivity; congruence.
Qed.

(** The builder [execBr] returns holds the state the branch condition
    leaves when it is lowered into an empty block. *)
Lemma execBr_condition_state st src dst c t f :
  bb_term src = CondBranchInst c t f ->
  bb_name src ∈ m_bb_map st -> dst ∈ m_bb_map st ->
  let bb := extra_block (length (m_extra_blks st)) in
  ~ is_node (m_cfg st) bb ->
  let r := snd (execBr opts m_func st src dst) in
  let s1 := snd (branch_condition opts m_func c t f dst
                   (State (b_ir st) (b_vfac st) [] (b_aborted st))) in
  exists b,
    get_node (blocks (m_cfg r)) bb = Some b /\
    State (b_ir r) (b_vfac r) (stmts b) (b_aborted r) = s1.
Proof.
  intros Ht Hs Hd bb Hnew r s1. subst r s1.
  rewrite (execBr_conditional st src dst c t f Ht Hs Hd).
  fold bb. cbn [snd].
  set (st0 := Builder _ _ _ _ _ _).
  set (st1 := add_block_in_between st0 _ _ bb).
  assert (Hst : stmts <$> get_node (blocks (m_cfg st1)) bb = Some []).
  { unfold st1, add_block_in_between. simpl m_cfg.
    rewrite !stmts_add_succ, stmts_remove_succ.
    apply stmts_insert_new. rewrite <- is_node_labels. exact Hnew. }
  destruct (get_node (blocks (m_cfg st1)) bb) as [b|] eqn:Eb; [|discriminate].
  simpl in Hst. inversion Hst as [Hb].
  pose proof (stmts_visit_into bb (branch_condition opts m_func c t f dst) st1 b Eb)
    as Hv.
  destruct (get_node (blocks (m_cfg (visit_into bb _ st1))) bb) as [b'|];
    [|discriminate].
  simpl in Hv. inversion Hv as [Hb']. exists b'. split; [reflexivity|].
  rewrite Hb'. unfold visit_into. rewrite Eb.
  cbn [default from_option id b_ir b_vfac b_aborted].
  change (b_ir st1) with (b_ir st). change (b_vfac st1) with (b_vfac st).
  change (b_aborted st1) with (b_aborted st).
  rewrite Hb. apply state_eta.
Qed.

(** X20.  On the edge of a conditional branch between registered blocks,
    the block inserted on the edge holds exactly the statements that
    lowering the branch condition adds to an empty block, which are
    assumptions, havocs or [unreachable], followed by exactly the
    statements the PHI visitor then adds for the PHI nodes of the
    destination, which are assignments and havocs. *)
Theorem conditional_edge_assumes_before_it_assigns :
  forall st B BB dst D c t f,
    bb_term B = CondBranchInst c t f ->
    bb_name B ∈ m_bb_map st -> dst ∈ m_bb_map st ->
    find_block m_func dst = Some D ->
    let bb := extra_block (length (m_extra_blks st)) in
    ~ is_node (m_cfg st) bb ->
    let s0 := State (b_ir st) (b_vfac st) [] (b_aborted st) in
    let s1 := snd (branch_condition opts m_func c t f dst s0) in
    let s2 := snd (SymExecPhiVisitor.visitBasicBlock opts (bb_name B) D s1) in
    exists phis,
      stmts <$> get_node (blocks (m_cfg (translate_edge opts m_func B BB st dst))) bb
      = Some (m_bb s1 ++ phis) /\
      m_bb s2 = m_bb s1 ++ phis /\
      Forall (fun s => (exists x, s = assume x) \/ (exists x, s = havoc x)
                       \/ s = unreachable) (m_bb s1) /\
      Forall (fun s => (exists x e, s = assign x e) \/ exists x, s = havoc x) phis.
Proof.
  intros st B BB dst D c t f Ht Hs Hd HD bb Hnew s0 s1 s2.
  destruct (execBr_condition_state st B dst c t f Ht Hs Hd Hnew) as (b & Hb & Hst).
  fold bb s0 s1 in Hb, Hst.
  assert (Kc : keeps (emits (fun s => (exists x, s = assume x)
                                      \/ (exists x, s = havoc x)
                                      \/ s = unreachable))
                 (branch_condition opts m_func c t f dst))
    by (apply branch_condition_emits; eauto).
  assert (Kp : keeps (emits (fun s => (exists x e, s = assign x e)
                                      \/ exists x, s = havoc x))
                 (SymExecPhiVisitor.visitBasicBlock opts (bb_name B) D))
    by (apply phi_visit_emits; eauto).
  destruct (Kc s0) as (conds & Hconds & Fconds). fold s1 in Hconds.
  change (m_bb s1 = conds) in Hconds. rewrite <- Hconds in Fconds.
  destruct (Kp s1) as (phis & Hphis & Fphis). fold s2 in Hphis.
  exists phis. split; [|auto].
  unfold translate_edge. rewrite HD.
  rewrite (execBr_conditional st B dst c t f Ht Hs Hd) in *.
  cbn [snd default] in Hb, Hst |- *. fold bb in Hb, Hst |- *.
  set (st1 := visit_into bb _ _) in *.
  rewrite (stmts_visit_into bb _ st1 b Hb), Hst. fold s2. rewrite Hphis.
  reflexivity.
Qed.

End execBr.

(** The edge from [entry] to [T] of the function that branches on
    [icmp sgt %a, %b]. *)
Lemma execBr_splits_the_edge_witness :
  let st := Examples.registered Examples.sgt_func Examples.sgt_body in
  let src := BasicBlock "entry" ["c"] (CondBranchInst (Inst "c" Examples.i1) "T" "F") in
  let bb := extra_block (length (m_extra_blks st)) in
  let r := execBr (SE := spec_SymEval REGISTERS) Examples.opts Examples.sgt_func
             st src "T" in
  let g' := m_cfg (snd r) in
  fst r = Some bb /\
  m_extra_blks (snd r) = m_extra_blks st ++ [bb] /\
  has_edge g' (llvm_block (bb_name src)) bb /\
  has_edge g' bb (llvm_block "T") /\
  ~ has_edge g' (llvm_block (bb_name src)) (llvm_block "T").
Proof.
  intros st src.
  apply (execBr_splits_the_edge (SE := spec_SymEval REGISTERS) Examples.opts
           Examples.sgt_func st src "T" (Inst "c" Examples.i1) "T" "F").
  - reflexivity.
  - apply (bool_decide_unpack _). vm_compute. exact I.
  - apply (bool_decide_unpack _). vm_compute. exact I.
  - apply (bool_decide_unpack _). vm_compute. exact I.
  - apply (bool_decide_unpack _). vm_compute. exact I.
Defined.

(** [br i1 true, label %T, label %F]: the edge to [F] is dead. *)
Lemma constant_branch_marks_the_dead_edge_witness :
  let st := Examples.registered Examples.const_br_func ∅ in
  let src := BasicBlock "entry" [] (CondBranchInst (ConstantInt 1 1) "T" "F") in
  stmts <$> get_node
              (blocks (m_cfg (snd (execBr (SE := spec_SymEval REGISTERS)
                                     Examples.opts Examples.const_br_func
                                     st src "F"))))
              (extra_block (length (m_extra_blks st)))
  = Some (if decide ("F" = if true then "T" else "F") then [] else [unreachable]).
Proof.
  intros st src.
  apply (constant_branch_marks_the_dead_edge (SE := spec_SymEval REGISTERS)
           Examples.opts Examples.const_br_func st src "F" true "T" "F").
  - reflexivity.
  - apply (bool_decide_unpack _). vm_compute. exact I.
  - apply (bool_decide_unpack _). vm_compute. exact I.
  - apply (bool_decide_unpack _). vm_compute. exact I.
Defined.

(** The edge from [entry] to [J], where [%q = phi [%a, entry]]: one
    assumption for the condition, then one assignment for the PHI node. *)
Lemma conditional_edge_assumes_before_it_assigns_witness :
  let st := Examples.registered Examples.phi_edge_func Examples.phi_edge_body in
  let B := BasicBlock "entry" ["c"] (CondBranchInst (Inst "c" Examples.i1) "J" "F") in
  let D := BasicBlock "J" ["q"] (ReturnInst None) in
  let s0 := State (b_ir st) (b_vfac st) [] (b_aborted st) in
  let s1 := snd (branch_condition (SE := spec_SymEval REGISTERS) Examples.opts
                   Examples.phi_edge_func (Inst "c" Examples.i1) "J" "F" "J" s0) in
  let s2 := snd (SymExecPhiVisitor.visitBasicBlock (SE := spec_SymEval REGISTERS)
                   Examples.opts "entry" D s1) in
  length (m_bb s1) = 1%nat /\ length (m_bb s2) = 2%nat /\
  exists phis,
    stmts <$> get_node
                (blocks (m_cfg (translate_edge (SE := spec_SymEval REGISTERS)
                                  Examples.opts Examples.phi_edge_func B
                                  (llvm_block "entry") st "J")))
                (extra_block (length (m_extra_blks st)))
    = Some (m_bb s1 ++ phis) /\
    m_bb s2 = m_bb s1 ++ phis /\
    Forall (fun s => (exists x, s = assume x) \/ (exists x, s = havoc x)
                     \/ s = unreachable) (m_bb s1) /\
    Forall (fun s => (exists x e, s = assign x e) \/ exists x, s = havoc x) phis.
Proof.
  intros st B D s0 s1 s2.
  split; [reflexivity|]. split; [reflexivity|].
  apply (conditional_edge_assumes_before_it_assigns (SE := spec_SymEval REGISTERS)
           Examples.opts Examples.phi_edge_func st B (llvm_block "entry") "J"
           D (Inst "c" Examples.i1) "J" "F").
  - reflexivity.
  - apply (bool_decide_unpack _). vm_compute. exact I.
  - apply (bool_decide_unpack _). vm_compute. exact I.
  - reflexivity.
  - apply (bool_decide_unpack _). vm_compute. exact I.
Defined.

(** ** The entry, the nodes and the declaration of the graph *)

Section header.
Context {SE : SymEval} (opts : options) (m_mem : MemAnalysis)
        (m_dl : DataLayout) (globals : list GlobalVariable)
        (m_func : function) (interproc : bool).

Lemma same_header_refl g : same_header g g.
Proof. split; reflexivity. Qed.

Lemma same_header_trans g1 g2 g3 :
  same_header g1 g2 -> same_header g2 g3 -> same_header g1 g3.
Proof. intros [A1 B1] [A2 B2]. split; congruence. Qed.

Lemma same_header_insert g l : same_header g (insert g l).
Proof. unfold insert. destruct (get_node _ _); split; reflexivity. Qed.

Lemma same_header_execBr st src dst :
  same_header (m_cfg st) (m_cfg (snd (execBr opts m_func st src dst))).
Proof.
  unfold execBr. destruct (bb_term src); cbn [snd]; try apply same_header_refl.
  - unfold add_edge. destruct (lookup_block st _), (lookup_block st dst);
      split; reflexivity.
  - destruct (lookup_block st _), (lookup_block st dst);
      cbv beta iota zeta delta [create_extra_block snd];
      try (split; reflexivity).
    unfold visit_into, add_block_in_between. simpl.
    apply (same_header_insert (m_cfg st)).
Qed.

Lemma same_header_translate_edge B BB st dst :
  same_header (m_cfg st) (m_cfg (translate_edge opts m_func B BB st dst)).
Proof.
  unfold translate_edge.
  pose proof (same_header_execBr st B dst) as H.
  destruct (execBr opts m_func st B dst) as [mid st']. simpl in H.
  destruct (find_block m_func dst); [|exact H].
  eapply same_header_trans; [exact H|]. split; reflexivity.
Qed.

Lemma same_header_translate_block acc B :
  same_header (m_cfg (fst acc))
    (m_cfg (fst (translate_block opts m_mem m_dl m_func interproc acc B))).
Proof.
  destruct acc as [st rets]. simpl. unfold translate_block.
  set (st1 := visit_into _ _ _).
  assert (H1 : same_header (m_cfg st) (m_cfg st1)) by (split; reflexivity).
  destruct (isa_ReturnInst (bb_term B)); simpl; [exact H1|].
  apply (foldl_invariant (fun st' => same_header (m_cfg st) (m_cfg st')));
    [|exact H1].
  intros a b Ha. eapply same_header_trans; [exact Ha|].
  apply same_header_translate_edge.
Qed.

Lemma translate_blocks_header F :
  let g := m_cfg (fst (translate_blocks opts m_mem m_dl m_func interproc F)) in
  entry g = entry_label m_func /\ func_decl g = None.
Proof.
  unfold translate_blocks.
  apply (foldl_invariant
           (fun acc => entry (m_cfg (fst acc)) = entry_label m_func /\
                       func_decl (m_cfg (fst acc)) = None)).
  - intros acc B [HA HB].
    destruct (same_header_translate_block acc B) as [-> ->]. auto.
  - simpl.
    apply (foldl_invariant
             (fun st => entry (m_cfg st) = entry_label m_func /\
                        func_decl (m_cfg st) = None)).
    + intros st B [HA HB]. unfold add_block. simpl.
      destruct (same_header_insert (m_cfg st) (llvm_block (bb_name B))) as [-> ->].
      auto.
    + split; reflexivity.
Qed.

Lemma same_header_unify_returns st rets :
  same_header (m_cfg st) (m_cfg (unify_returns st rets)).
Proof.
  destruct rets as [|r [|r' rets]]; try (split; reflexivity).
  unfold unify_returns.
  cbv beta iota zeta delta [create_extra_block]. simpl m_cfg.
  set (l := extra_block _).
  assert (H : same_header (m_cfg st)
                (foldl (fun g r0 => add_succ g r0 l) (insert (m_cfg st) l)
                   (r :: r' :: rets))).
  { apply (foldl_invariant (same_header (m_cfg st)));
      [|apply same_header_insert].
    intros g r0 Hg. eapply same_header_trans; [exact Hg|]. split; reflexivity. }
  destruct H as [HA HB]. split; [exact HA|exact HB].
Qed.

Lemma same_header_update_entry st f :
  same_header (m_cfg st) (m_cfg (update_entry st f)).
Proof. split; reflexivity. Qed.

Lemma same_header_init_globals st :
  same_header (m_cfg st) (m_cfg (init_globals m_mem globals m_func st)).
Proof.
  unfold init_globals.
  apply (foldl_invariant (fun st' => same_header (m_cfg st) (m_cfg st')));
    [|apply same_header_refl].
  intros a gv Ha. destruct (gv_initializer gv); [|exact Ha].
  destruct (_ <? 0); [exact Ha|].
  eapply same_header_trans; [exact Ha|apply same_header_update_entry].
Qed.

Lemma same_header_init_new_arrays st :
  same_header (m_cfg st) (m_cfg (init_new_arrays m_mem m_func st)).
Proof.
  unfold init_new_arrays.
  destruct (getRefModNewArraysFn m_mem (f_name m_func)) as [[refs mods] news].
  apply (foldl_invariant (fun st' => same_header (m_cfg st) (m_cfg st')));
    [|apply same_header_refl].
  intros a n Ha. eapply same_header_trans; [exact Ha|apply same_header_update_entry].
Qed.

(** The graph before the function declaration is added. *)
Lemma before_declaration_header F :
  let '(st, rets) := translate_blocks opts m_mem m_dl m_func interproc F in
  let st := unify_returns st rets in
  let st :=
    if bool_decide (getTrackLevel m_mem = ARR) then
      init_new_arrays m_mem m_func
        (if String.eqb (f_name m_func) "main"
         then init_globals m_mem globals m_func st else st)
    else st in
  entry (m_cfg st) = entry_label m_func /\ func_decl (m_cfg st) = None.
Proof.
  pose proof (translate_blocks_header F) as H. cbv zeta in H.
  destruct (translate_blocks opts m_mem m_dl m_func interproc F) as [st rets].
  simpl in H. cbv zeta.
  assert (H2 : same_header (m_cfg st)
                 (m_cfg (if bool_decide (getTrackLevel m_mem = ARR)
                         then init_new_arrays m_mem m_func
                                (if String.eqb (f_name m_func) "main"
                                 then init_globals m_mem globals m_func
                                        (unify_returns st rets)
                                 else unify_returns st rets)
                         else unify_returns st rets))).
  { eapply same_header_trans; [apply (same_header_unify_returns st rets)|].
    destruct (bool_decide _); [|apply same_header_refl].
    eapply same_header_trans; [|apply same_header_init_new_arrays].
    destruct (String.eqb _ _);
      [apply same_header_init_globals|apply same_header_refl]. }
  destruct H2 as [-> ->]. exact H.
Qed.

Lemma same_header_ref_formals st refs :
  same_header (m_cfg st) (m_cfg (fst (ref_formals st refs))).
Proof.
  unfold ref_formals.
  apply (foldl_invariant (fun acc => same_header (m_cfg st) (m_cfg (fst acc))));
    [|apply same_header_refl].
  intros [a ps] n Ha. simpl in *. eapply same_header_trans; [exact Ha|].
  split; reflexivity.
Qed.

Lemma ref_formals_snd st refs ps :
  snd (foldl (fun acc a =>
                let '(st, params) := acc in
                let a_in := fresh_name (b_vfac st) in
                let st :=
                  Builder (b_ir st) (b_vfac st + 1) (b_aborted st) (m_cfg st)
                    (m_bb_map st) (m_extra_blks st) in
                (update_entry st (fun entry =>
                   insert_stmt (set_insert_point_front entry)
                     (assign (symVarArr a) (exp_var a_in))),
                 params ++ [(a_in, ARR_TYPE)]))
             (st, ps) refs)
  = ps ++ map (fun i => (fresh_name (b_vfac st + N.of_nat i), ARR_TYPE))
            (seq 0 (length refs)).
Proof.
  revert st ps. induction refs as [|a refs IH]; intros st ps.
  - simpl. rewrite app_nil_r. reflexivity.
  - cbn [foldl]. rewrite IH. cbn [b_vfac update_entry with_cfg length seq map].
    rewrite <- app_assoc. cbn [app]. rewrite N.add_0_r. do 2 f_equal.
    rewrite <- seq_shift, map_map. apply map_ext. intros i. do 2 f_equal. lia.
Qed.

(** X21.  The entry of the graph of a function is the node of its first
    block.  In inter-procedural mode the graph gets a function
    declaration: the return type (unknown when pointer arithmetic is off
    and the function does not return an integer), the name of the
    function, and as parameters the scalar formal parameters, that is the
    arguments that are tracked and, when pointer arithmetic is off, of
    integer type, followed, at track level ARR in a function other than
    [main], by one fresh input version per ref array, the ref arrays and
    the new arrays.  In intra-procedural mode the graph has no
    declaration. *)
Theorem function_declaration_iff_interprocedural :
  forall F,
    let g := m_cfg (build_cfg opts m_mem m_dl globals m_func interproc F) in
    let retTy :=
      if negb (LlvmCrabNoPtrArith opts) || isIntegerTy (f_retTy m_func)
      then getVariableType (f_retTy m_func) else UNK_TYPE in
    let refs := fst (fst (getRefModNewArraysFn m_mem (f_name m_func))) in
    let news := snd (getRefModNewArraysFn m_mem (f_name m_func)) in
    let arrays := map (fun a => (symVarArr a, ARR_TYPE)) in
    entry g = entry_label m_func /\
    if interproc then
      exists n,
        func_decl g =
        Some (retTy, name_for_function (f_name m_func),
              scalar_formals opts m_func
              ++ if bool_decide (getTrackLevel m_mem = ARR)
                    && negb (String.eqb (f_name m_func) "main")
                 then map (fun i => (fresh_name (n + N.of_nat i), ARR_TYPE))
                        (seq 0 (length refs))
                      ++ arrays refs ++ arrays news
                 else [])
    else func_decl g = None.
Proof.
  intros F g retTy refs news arrays.
  pose proof (before_declaration_header F) as H.
  unfold g, build_cfg.
  destruct (translate_blocks opts m_mem m_dl m_func interproc F) as [st rets].
  cbv zeta in H |- *.
  set (st1 := if bool_decide (getTrackLevel m_mem = ARR) then _ else _) in *.
  destruct H as [HA HB].
  destruct interproc; [|split; assumption].
  unfold add_function_declaration.
  destruct (bool_decide (getTrackLevel m_mem = ARR)
            && negb (String.eqb (f_name m_func) "main")).
  - unfold refs, news.
    destruct (getRefModNewArraysFn m_mem (f_name m_func)) as [[rs ms] ns].
    cbn [fst snd].
    pose proof (ref_formals_snd (builder_assert st1 (negb (f_isVarArg m_func))) rs [])
      as Hsnd.
    pose proof (same_header_ref_formals
                  (builder_assert st1 (negb (f_isVarArg m_func))) rs) as Hg.
    unfold ref_formals in *.
    destruct (foldl _ _ rs) as [st' ins]. cbn [fst snd] in *.
    split.
    + destruct Hg as [Hg _]. simpl in *. rewrite Hg. exact HA.
    + exists (b_vfac st1). simpl. rewrite Hsnd. reflexivity.
  - split; [exact HA|]. exists 0%N. simpl. rewrite app_nil_r. reflexivity.
Qed.

End header.

Section nodes.
Context {SE : SymEval} (opts : options) (m_mem : MemAnalysis)
        (m_dl : DataLayout) (globals : list GlobalVariable)
        (m_func : function) (interproc : bool).

Lemma nodes_are_blocks_same st st' :
  (forall l, l ∈ blabels st' <-> l ∈ blabels st) ->
  m_extra_blks st' = m_extra_blks st ->
  nodes_are_blocks m_func st -> nodes_are_blocks m_func st'.
Proof.
  intros Hl He [H1 H2]. unfold nodes_are_blocks. rewrite He.
  split; [|exact H2]. intros l. rewrite Hl. apply H1.
Qed.

Lemma nodes_are_blocks_create st st' :
  let bb := extra_block (length (m_extra_blks st)) in
  (forall l, l ∈ blabels st' <-> l ∈ blabels st \/ l = bb) ->
  m_extra_blks st' = m_extra_blks st ++ [bb] ->
  nodes_are_blocks m_func st -> nodes_are_blocks m_func st'.
Proof.
  intros bb Hl He [H1 H2]. unfold nodes_are_blocks. rewrite He. split.
  - intros l. rewrite Hl, H1, elem_of_app, list_elem_of_singleton. tauto.
  - rewrite length_app. cbn [length]. rewrite seq_app, map_app. cbn [seq map].
    rewrite <- H2. reflexivity.
Qed.

Lemma nodes_are_blocks_visit_into l v st :
  nodes_are_blocks m_func st -> nodes_are_blocks m_func (visit_into l v st).
Proof.
  apply nodes_are_blocks_same; [|reflexivity].
  intros l'. unfold blabels, visit_into, labels; simpl.
  rewrite labels_update_node. reflexivity.
Qed.

Lemma nodes_are_blocks_execBr st src dst :
  nodes_are_blocks m_func st ->
  nodes_are_blocks m_func (snd (execBr opts m_func st src dst)).
Proof.
  unfold execBr. destruct (bb_term src); cbn [snd]; try (intros H; exact H).
  - apply nodes_are_blocks_same.
    + intros l. unfold add_edge.
      destruct (lookup_block st _), (lookup_block st dst); try reflexivity.
      unfold blabels; simpl. rewrite labels_add_succ. reflexivity.
    + unfold add_edge.
      destruct (lookup_block st _), (lookup_block st dst); reflexivity.
  - destruct (lookup_block st _), (lookup_block st dst);
      cbv beta iota zeta delta [create_extra_block snd];
      try (apply nodes_are_blocks_same; reflexivity).
    intros H. apply nodes_are_blocks_visit_into.
    revert H. apply nodes_are_blocks_create; [|reflexivity].
    intros l. unfold blabels, add_block_in_between; simpl.
    rewrite !labels_add_succ, labels_remove_succ. apply labels_insert.
Qed.

Lemma nodes_are_blocks_translate_edge B BB st dst :
  nodes_are_blocks m_func st ->
  nodes_are_blocks m_func (translate_edge opts m_func B BB st dst).
Proof.
  intros H. unfold translate_edge.
  pose proof (nodes_are_blocks_execBr st B dst H) as H'.
  destruct (execBr opts m_func st B dst) as [mid st']. simpl in H'.
  destruct (find_block m_func dst); [|exact H'].
  apply nodes_are_blocks_visit_into, H'.
Qed.

Lemma nodes_are_blocks_translate_block acc B :
  nodes_are_blocks m_func (fst acc) ->
  nodes_are_blocks m_func
    (fst (translate_block opts m_mem m_dl m_func interproc acc B)).
Proof.
  destruct acc as [st rets]. simpl. intros H. unfold translate_block.
  set (st1 := visit_into _ _ _).
  assert (H1 : nodes_are_blocks m_func st1).
  { apply nodes_are_blocks_visit_into.
    revert H. apply nodes_are_blocks_same; reflexivity. }
  destruct (isa_ReturnInst (bb_term B)); simpl; [exact H1|].
  apply (foldl_invariant (nodes_are_blocks m_func)); [|exact H1].
  intros a b. apply nodes_are_blocks_translate_edge.
Qed.

Lemma nodes_are_blocks_translate_blocks F :
  nodes_are_blocks m_func
    (fst (translate_blocks opts m_mem m_dl m_func interproc F)).
Proof.
  unfold translate_blocks.
  apply (foldl_invariant (fun acc => nodes_are_blocks m_func (fst acc))).
  - intros acc B. apply nodes_are_blocks_translate_block.
  - simpl. destruct (foldl_add_block (f_blocks m_func) (initial m_func F))
      as [Hl He].
    split.
    + intros l. rewrite Hl, He. simpl. split.
      * intros [H|H]; [apply elem_of_nil in H; destruct H|auto].
      * intros [H|H]; [auto|apply elem_of_nil in H; destruct H].
    + rewrite He. reflexivity.
Qed.

Lemma nodes_are_blocks_unify_returns st rets :
  nodes_are_blocks m_func st -> nodes_are_blocks m_func (unify_returns st rets).
Proof.
  destruct rets as [|r [|r' rets]];
    try (apply nodes_are_blocks_same; reflexivity).
  apply nodes_are_blocks_create; [|reflexivity].
  intros l.
  assert (E : blabels (unify_returns st (r :: r' :: rets))
              = labels (foldl (fun g r0 =>
                                 add_succ g r0 (extra_block (length (m_extra_blks st))))
                          (insert (m_cfg st) (extra_block (length (m_extra_blks st))))
                          (r :: r' :: rets))) by reflexivity.
  rewrite E, foldl_add_succ_labels. apply labels_insert.
Qed.

Lemma nodes_are_blocks_update_entry st f :
  nodes_are_blocks m_func st -> nodes_are_blocks m_func (update_entry st f).
Proof.
  apply nodes_are_blocks_same; [|reflexivity].
  intros l. unfold blabels, update_entry, labels; simpl.
  rewrite labels_update_node. reflexivity.
Qed.

Lemma nodes_are_blocks_init_globals st :
  nodes_are_blocks m_func st ->
  nodes_are_blocks m_func (init_globals m_mem globals m_func st).
Proof.
  intros H. unfold init_globals.
  apply (foldl_invariant (nodes_are_blocks m_func)); [|exact H].
  intros a gv Ha. destruct (gv_initializer gv); [|exact Ha].
  destruct (_ <? 0); [exact Ha|]. apply nodes_are_blocks_update_entry, Ha.
Qed.

Lemma nodes_are_blocks_init_new_arrays st :
  nodes_are_blocks m_func st ->
  nodes_are_blocks m_func (init_new_arrays m_mem m_func st).
Proof.
  intros H. unfold init_new_arrays.
  destruct (getRefModNewArraysFn m_mem (f_name m_func)) as [[refs mods] news].
  apply (foldl_invariant (nodes_are_blocks m_func)); [|exact H].
  intros a n Ha. apply nodes_are_blocks_update_entry, Ha.
Qed.

Lemma nodes_are_blocks_add_function_declaration st :
  nodes_are_blocks m_func st ->
  nodes_are_blocks m_func (add_function_declaration opts m_mem m_func st).
Proof.
  intros H. unfold add_function_declaration.
  destruct (bool_decide _ && _);
    [|revert H; apply nodes_are_blocks_same; reflexivity].
  destruct (getRefModNewArraysFn m_mem (f_name m_func)) as [[refs mods] news].
  assert (Hr : nodes_are_blocks m_func
                 (fst (ref_formals (builder_assert st (negb (f_isVarArg m_func)))
                         refs))).
  { unfold ref_formals.
    apply (foldl_invariant (fun acc => nodes_are_blocks m_func (fst acc))).
    - intros [a ps] n Ha. simpl in *.
      apply (nodes_are_blocks_update_entry
               (Builder (b_ir a) (b_vfac a + 1) (b_aborted a) (m_cfg a)
                  (m_bb_map a) (m_extra_blks a))).
      revert Ha. apply nodes_are_blocks_same; reflexivity.
    - simpl. revert H. apply nodes_are_blocks_same; reflexivity. }
  destruct (ref_formals _ refs) as [st' ins]. simpl in Hr.
  revert Hr. apply nodes_are_blocks_same; reflexivity.
Qed.

(** X22.  The nodes of the graph of a function are exactly the blocks of
    the function and the extra blocks the builder has remembered in
    [m_extra_blks], the ones its destructor deletes. *)
Theorem graph_nodes_are_the_blocks_and_the_extra_blocks :
  forall F l,
    let st := build_cfg opts m_mem m_dl globals m_func interproc F in
    is_node (m_cfg st) l <->
    (exists B, B ∈ f_blocks m_func /\ l = llvm_block (bb_name B))
    \/ l ∈ m_extra_blks st.
Proof.
  intros F l st.
  assert (H : nodes_are_blocks m_func st).
  { unfold st, build_cfg.
    pose proof (nodes_are_blocks_translate_blocks F) as H.
    destruct (translate_blocks opts m_mem m_dl m_func interproc F) as [st0 rets].
    simpl in H. apply (nodes_are_blocks_unify_returns _ rets) in H.
    assert (H2 : nodes_are_blocks m_func
                   (if bool_decide (getTrackLevel m_mem = ARR)
                    then init_new_arrays m_mem m_func
                           (if String.eqb (f_name m_func) "main"
                            then init_globals m_mem globals m_func
                                   (unify_returns st0 rets)
                            else unify_returns st0 rets)
                    else unify_returns st0 rets)).
    { destruct (bool_decide _); [|exact H].
      apply nodes_are_blocks_init_new_arrays.
      destruct (String.eqb _ _); [apply nodes_are_blocks_init_globals|]; exact H. }
    destruct interproc; [|exact H2].
    apply nodes_are_blocks_add_function_declaration, H2. }
  rewrite is_node_labels. apply H.
Qed.

End nodes.

(** ** The edges of the function in the graph *)

Lemma has_edge_insert_mono g l a b : has_edge g a b -> has_edge (insert g l) a b.
Proof.
  rewrite !has_edge_succs. intros (ns & H & Hb). exists ns.
  rewrite succs_of_insert, H. auto.
Qed.

Lemma has_edge_remove_succ g src dst a b :
  has_edge g a b -> a <> src \/ b <> dst -> has_edge (remove_succ g src dst) a b.
Proof.
  rewrite !has_edge_succs. intros (ns & H & Hb) Hne.
  rewrite succs_of_remove_succ.
  destruct (decide (src = a)) as [->|Hsa]; [|eauto].
  rewrite H. simpl. eexists; split; [reflexivity|].
  apply elem_of_remove_adjacent. split; [exact Hb|].
  destruct Hne as [Hne|Hne]; [destruct (Hne eq_refl)|exact Hne].
Qed.

Section edges.
Context {SE : SymEval} (opts : options) (m_mem : MemAnalysis)
        (m_dl : DataLayout) (globals : list GlobalVariable)
        (m_func : function) (interproc : bool).

Lemma has_edge_visit_into l v st a b :
  has_edge (m_cfg (visit_into l v st)) a b <-> has_edge (m_cfg st) a b.
Proof. rewrite !has_edge_succs, succs_of_visit_into. reflexivity. Qed.

(** [m_bb_map] is filled by [add_block] only. *)
Lemma m_bb_map_execBr st src dst :
  m_bb_map (snd (execBr opts m_func st src dst)) = m_bb_map st.
Proof.
  unfold execBr. destruct (bb_term src); cbn [snd]; try reflexivity.
  - unfold add_edge. destruct (lookup_block st _), (lookup_block st dst); reflexivity.
  - destruct (lookup_block st _), (lookup_block st dst); reflexivity.
Qed.

Lemma m_bb_map_translate_edge B BB st dst :
  m_bb_map (translate_edge opts m_func B BB st dst) = m_bb_map st.
Proof.
  unfold translate_edge.
  pose proof (m_bb_map_execBr st B dst) as H.
  destruct (execBr opts m_func st B dst) as [mid st']. simpl in H.
  destruct (find_block m_func dst); exact H.
Qed.

Lemma m_bb_map_translate_block acc B :
  m_bb_map (fst (translate_block opts m_mem m_dl m_func interproc acc B))
  = m_bb_map (fst acc).
Proof.
  destruct acc as [st rets]. simpl. unfold translate_block.
  set (st1 := visit_into _ _ _).
  assert (H1 : m_bb_map st1 = m_bb_map st) by reflexivity.
  destruct (isa_ReturnInst (bb_term B)); simpl; [exact H1|].
  apply (foldl_invariant (fun st' => m_bb_map st' = m_bb_map st)); [|exact H1].
  intros a b Ha. rewrite m_bb_map_translate_edge. exact Ha.
Qed.

Lemma m_bb_map_add_blocks bs st :
  m_bb_map (foldl add_block st bs) = m_bb_map st ++ map bb_name bs.
Proof.
  revert st. induction bs as [|B bs IH]; intros st; simpl.
  - rewrite app_nil_r. reflexivity.
  - rewrite IH. simpl. rewrite <- app_assoc. reflexivity.
Qed.

(** An edge survives the translation of the edges of another block, and
    so does an edge to an extra block. *)
Lemma has_edge_execBr st src dst a b :
  has_edge (m_cfg st) a b ->
  a <> llvm_block (bb_name src) \/ (forall d, b <> llvm_block d) ->
  has_edge (m_cfg (snd (execBr opts m_func st src dst))) a b.
Proof.
  intros H Hab. unfold execBr. destruct (bb_term src); cbn [snd]; try exact H.
  - unfold add_edge. destruct (lookup_block st _), (lookup_block st dst);
      try exact H.
    apply has_edge_add_succ_mono, H.
  - unfold lookup_block.
    destruct (decide (bb_name src ∈ m_bb_map st)); [|exact H].
    destruct (decide (dst ∈ m_bb_map st)); [|exact H].
    cbv beta iota zeta delta [create_extra_block snd].
    apply has_edge_visit_into. unfold add_block_in_between. simpl m_cfg.
    do 2 apply has_edge_add_succ_mono.
    apply has_edge_remove_succ; [apply has_edge_insert_mono, H|].
    destruct Hab as [Ha|Hb]; [left; exact Ha|right; apply Hb].
Qed.

Lemma has_edge_translate_edge B BB st dst a b :
  has_edge (m_cfg st) a b ->
  a <> llvm_block (bb_name B) \/ (forall d, b <> llvm_block d) ->
  has_edge (m_cfg (translate_edge opts m_func B BB st dst)) a b.
Proof.
  intros H Hab. unfold translate_edge.
  pose proof (has_edge_execBr st B dst a b H Hab) as H'.
  destruct (execBr opts m_func st B dst) as [mid st']. simpl in H'.
  destruct (find_block m_func dst); [|exact H'].
  apply has_edge_visit_into, H'.
Qed.

Lemma has_edge_translate_block acc B a b :
  has_edge (m_cfg (fst acc)) a b ->
  a <> llvm_block (bb_name B) \/ (forall d, b <> llvm_block d) ->
  has_edge (m_cfg (fst (translate_block opts m_mem m_dl m_func interproc acc B)))
    a b.
Proof.
  destruct acc as [st rets]. simpl. intros H Hab. unfold translate_block.
  set (st1 := visit_into _ _ _).
  assert (H1 : has_edge (m_cfg st1) a b) by (apply has_edge_visit_into, H).
  destruct (isa_ReturnInst (bb_term B)); simpl; [exact H1|].
  apply (foldl_invariant (fun st' => has_edge (m_cfg st') a b)); [|exact H1].
  intros st' d Hst'. apply has_edge_translate_edge; assumption.
Qed.

Lemma edge_path_persists g g' B d :
  (forall a b, has_edge g a b ->
     a <> llvm_block (bb_name B) \/ (forall d, b <> llvm_block d) ->
     has_edge g' a b) ->
  (exists c t f, bb_term B = CondBranchInst c t f) ->
  edge_path g B d -> edge_path g' B d.
Proof.
  intros Hmono (c & t & f & Ht). unfold edge_path. rewrite Ht.
  intros (n & H1 & H2). exists n. split.
  - apply Hmono; [exact H1|]. right. intros d0. discriminate.
  - apply Hmono; [exact H2|]. left. discriminate.
Qed.

(** The translation of another block keeps the path. *)
Lemma edge_path_translate_block acc B' B d :
  bb_name B' <> bb_name B ->
  edge_path (m_cfg (fst acc)) B d ->
  edge_path
    (m_cfg (fst (translate_block opts m_mem m_dl m_func interproc acc B'))) B d.
Proof.
  intros Hne.
  assert (Hmono : forall a b,
             has_edge (m_cfg (fst acc)) a b -> a <> llvm_block (bb_name B') ->
             has_edge
               (m_cfg (fst (translate_block opts m_mem m_dl m_func interproc acc B')))
               a b).
  { intros a b H Ha. apply has_edge_translate_block; auto. }
  unfold edge_path. destruct (bb_term B); auto.
  - intros H. apply Hmono; [exact H|]. intros E. inversion E. congruence.
  - intros (n & H1 & H2). exists n. split.
    + apply Hmono; [exact H1|]. intros E. inversion E. congruence.
    + apply Hmono; [exact H2|]. discriminate.
Qed.

(** The translation of an edge puts its path into the graph. *)
Lemma edge_path_translate_edge st B BB d :
  bb_name B ∈ m_bb_map st -> d ∈ m_bb_map st ->
  llvm_block (bb_name B) ∈ blabels st ->
  edge_path (m_cfg (translate_edge opts m_func B BB st d)) B d.
Proof.
  intros Hs Hd Hnode. unfold edge_path, translate_edge.
  destruct (bb_term B) as [v|d0|c t f|ops dsts] eqn:Ht; try exact I.
  - assert (He : has_edge (m_cfg (snd (execBr opts m_func st B d)))
                   (llvm_block (bb_name B)) (llvm_block d)).
    { unfold execBr, add_edge, lookup_block. rewrite Ht.
      rewrite !decide_True by assumption. cbn [snd m_cfg with_cfg].
      apply has_edge_add_succ, Hnode. }
    destruct (execBr opts m_func st B d) as [mid st']. cbn [snd] in He.
    destruct (find_block m_func d); [|exact He].
    apply has_edge_visit_into, He.
  - set (bb := extra_block (length (m_extra_blks st))).
    assert (He : has_edge (m_cfg (snd (execBr opts m_func st B d)))
                   (llvm_block (bb_name B)) bb /\
                 has_edge (m_cfg (snd (execBr opts m_func st B d)))
                   bb (llvm_block d)).
    { rewrite (execBr_conditional opts m_func st B d c t f Ht Hs Hd).
      fold bb. cbn [snd]. rewrite !has_edge_visit_into.
      unfold add_block_in_between. simpl m_cfg. split.
      - apply has_edge_add_succ_mono, has_edge_add_succ.
        rewrite labels_remove_succ. apply labels_insert. left. exact Hnode.
      - apply has_edge_add_succ.
        rewrite labels_add_succ, labels_remove_succ. apply labels_insert. auto. }
    destruct (execBr opts m_func st B d) as [mid st']. cbn [snd] in He.
    exists (length (m_extra_blks st)). fold bb.
    destruct (find_block m_func d); [|exact He].
    rewrite !has_edge_visit_into. exact He.
Qed.

(** The translation of a block puts the paths of its edges into the
    graph. *)
Lemma edge_path_translate_own_block acc B d :
  bb_name B ∈ m_bb_map (fst acc) -> d ∈ m_bb_map (fst acc) ->
  llvm_block (bb_name B) ∈ blabels (fst acc) ->
  d ∈ successors (bb_term B) ->
  edge_path
    (m_cfg (fst (translate_block opts m_mem m_dl m_func interproc acc B))) B d.
Proof.
  destruct acc as [st rets]. cbn [fst]. intros Hs Hd Hnode Hsucc.
  unfold translate_block.
  set (st1 := visit_into _ _ _).
  assert (Hs1 : bb_name B ∈ m_bb_map st1) by exact Hs.
  assert (Hd1 : d ∈ m_bb_map st1) by exact Hd.
  assert (Hn1 : llvm_block (bb_name B) ∈ blabels st1).
  { unfold st1, blabels, visit_into, labels. simpl.
    rewrite labels_update_node. exact Hnode. }
  clearbody st1.
  destruct (bb_term B) as [v|d0|c t f|ops dsts] eqn:Ht; cbn [isa_ReturnInst fst].
  - unfold edge_path. rewrite Ht. exact I.
  - simpl in Hsucc. apply list_elem_of_singleton in Hsucc. subst d0.
    simpl. apply edge_path_translate_edge; assumption.
  - simpl in Hsucc. simpl foldl.
    set (BB := llvm_block (bb_name B)) in *.
    destruct (decide (d = f)) as [->|Hne].
    + apply edge_path_translate_edge.
      * rewrite m_bb_map_translate_edge. exact Hs1.
      * rewrite m_bb_map_translate_edge. exact Hd1.
      * apply (grows_translate_edge opts m_func B BB st1 t), Hn1.
    + apply elem_of_cons in Hsucc. destruct Hsucc as [->|Hsucc].
      * apply (edge_path_persists (m_cfg (translate_edge opts m_func B BB st1 t))).
        -- intros a b H Hab. apply has_edge_translate_edge; assumption.
        -- eauto.
        -- apply edge_path_translate_edge; assumption.
      * apply list_elem_of_singleton in Hsucc. contradiction.
  - unfold edge_path. rewrite Ht. exact I.
Qed.

Lemma edge_path_other_blocks bs acc B d :
  (forall B', B' ∈ bs -> bb_name B' <> bb_name B) ->
  edge_path (m_cfg (fst acc)) B d ->
  edge_path
    (m_cfg (fst (foldl (translate_block opts m_mem m_dl m_func interproc) acc bs)))
    B d.
Proof.
  revert acc. induction bs as [|B' bs IH]; intros acc Hne H; [exact H|].
  cbn [foldl]. apply IH.
  - intros B'' HB''. apply Hne, list_elem_of_further, HB''.
  - apply edge_path_translate_block; [|exact H].
    apply Hne, list_elem_of_here.
Qed.

Lemma edge_path_translate_blocks bs acc B d :
  NoDup (map bb_name bs) -> B ∈ bs ->
  bb_name B ∈ m_bb_map (fst acc) -> d ∈ m_bb_map (fst acc) ->
  llvm_block (bb_name B) ∈ blabels (fst acc) ->
  d ∈ successors (bb_term B) ->
  edge_path
    (m_cfg (fst (foldl (translate_block opts m_mem m_dl m_func interproc) acc bs)))
    B d.
Proof.
  revert acc. induction bs as [|B' bs IH]; intros acc Hnd HB Hs Hd Hnode Hsucc.
  - apply elem_of_nil in HB. destruct HB.
  - simpl in Hnd. apply NoDup_cons in Hnd. destruct Hnd as [Hnotin Hnd].
    cbn [foldl]. apply elem_of_cons in HB. destruct HB as [->|HB].
    + apply edge_path_other_blocks.
      * intros B'' HB'' E. apply Hnotin. rewrite <- E.
        apply list_elem_of_fmap. eauto.
      * apply edge_path_translate_own_block; assumption.
    + apply IH; try assumption.
      * rewrite m_bb_map_translate_block. exact Hs.
      * rewrite m_bb_map_translate_block. exact Hd.
      * apply (grows_translate_block opts m_mem m_dl m_func interproc acc B'), Hnode.
Qed.

Lemma has_edge_unify_returns st rets a b :
  has_edge (m_cfg st) a b -> has_edge (m_cfg (unify_returns st rets)) a b.
Proof.
  intros H. destruct rets as [|r [|r' rets]]; try exact H.
  set (l := extra_block (length (m_extra_blks st))).
  assert (E : has_edge (m_cfg (unify_returns st (r :: r' :: rets))) a b
              <-> has_edge (foldl (fun g r0 => add_succ g r0 l)
                              (insert (m_cfg st) l) (r :: r' :: rets)) a b)
    by reflexivity.
  apply E, foldl_add_succ_mono, has_edge_insert_mono, H.
Qed.

(** X23.  The graph keeps the branches of the function.  When the blocks
    of the function have pairwise distinct names, for every block [B] and
    every successor [d] of [B] that is a block of the function: if [B]
    ends in an unconditional branch the graph has the edge from [B] to
    [d]; if it ends in a conditional branch the graph has an extra block
    with an edge from [B] to it and an edge from it to [d]. *)
Theorem graph_keeps_the_edges_of_the_function :
  forall F B d,
    NoDup (map bb_name (f_blocks m_func)) ->
    B ∈ f_blocks m_func ->
    d ∈ successors (bb_term B) ->
    d ∈ map bb_name (f_blocks m_func) ->
    edge_path (m_cfg (build_cfg opts m_mem m_dl globals m_func interproc F)) B d.
Proof.
  intros F B d Hnd HB Hsucc Hd.
  pose proof (build_cfg_graph opts m_mem m_dl globals m_func interproc F) as Hsame.
  cbv zeta in Hsame.
  set (st0 := foldl add_block (initial m_func F) (f_blocks m_func)).
  assert (Hmap : m_bb_map st0 = map bb_name (f_blocks m_func))
    by (unfold st0; rewrite m_bb_map_add_blocks; reflexivity).
  assert (Hpath : edge_path
                    (m_cfg (fst (translate_blocks opts m_mem m_dl m_func
                                   interproc F))) B d).
  { unfold translate_blocks. fold st0.
    apply edge_path_translate_blocks; cbn [fst]; try assumption.
    - rewrite Hmap. apply list_elem_of_fmap. eauto.
    - rewrite Hmap. exact Hd.
    - apply (proj1 (foldl_add_block (f_blocks m_func) (initial m_func F))).
      right. eauto. }
  assert (Hmono : forall a b,
             has_edge (m_cfg (fst (translate_blocks opts m_mem m_dl m_func
                                     interproc F))) a b ->
             has_edge (m_cfg (build_cfg opts m_mem m_dl globals m_func interproc F))
               a b).
  { intros a b H. eapply has_edge_same_graph; [exact Hsame|].
    apply has_edge_unify_returns, H. }
  revert Hpath. unfold edge_path. destruct (bb_term B); auto.
  intros (n & H1 & H2). eauto.
Qed.

End edges.

(** The edge from [entry] to [T] of the function that branches on
    [icmp sgt %a, %b]. *)
Lemma graph_keeps_the_edges_of_the_function_witness :
  edge_path
    (m_cfg (build_cfg (SE := spec_SymEval REGISTERS) Examples.opts
              (Examples.mem REGISTERS ([], [], [])) Examples.dl []
              Examples.sgt_func false Examples.sgt_body))
    (BasicBlock "entry" ["c"] (CondBranchInst (Inst "c" Examples.i1) "T" "F"))
    "T".
Proof.
  apply (graph_keeps_the_edges_of_the_function (SE := spec_SymEval REGISTERS)
           Examples.opts (Examples.mem REGISTERS ([], [], [])) Examples.dl []
           Examples.sgt_func false Examples.sgt_body).
  - apply (bool_decide_unpack _). vm_compute. exact I.
  - apply list_elem_of_here.
  - apply list_elem_of_here.
  - apply (bool_decide_unpack _). vm_compute. exact I.
Defined.

(** * What the arithmetic statements compute *)

Lemma run_assign rho x e rho' :
  run rho (assign x e) rho' -> rho' = update rho x (eval rho e).
Proof.
  intros H. inversion H as [? ? ? Hex|]; subst. inversion Hex; subst. reflexivity.
Qed.

Lemma run_arith_inv rho op x e1 e2 rho' :
  run rho (arith op x e1 e2) rho' ->
  exists n, arith_value op (eval rho e1) (eval rho e2) = Some n /\
            rho' = update rho x n.
Proof.
  intros H. inversion H as [? ? ? Hex|]; subst; [inversion Hex|eauto].
Qed.

Lemma agree_off_update res rho rho' x n :
  agree_off res rho rho' -> x = res \/ (exists k, x = fresh_name k) ->
  agree_off res rho (update rho' x n).
Proof.
  intros H Hx y Hy Hf. unfold update. rewrite decide_False; [apply H; assumption|].
  intros ->. destruct Hx as [Hx|[k Hx]]; [contradiction|apply (Hf k Hx)].
Qed.

Lemma agree_off_refl res rho : agree_off res rho rho.
Proof. intros y _ _. reflexivity. Qed.

Section arithmetic.
Context {SE : SymEval} (opts : options) (m_mem : MemAnalysis)
        (m_dl : DataLayout) (func : function) (interproc : bool).


(** X24.  For an addition, a subtraction or a multiplication with a
    tracked result whose operands both have an expression, the statements
    the translation adds can always be run, and after them the result
    variable holds the sum, the difference or the product of the values
    the two operands had before, while every other variable keeps its
    value.  This includes the subtraction from a constant, which first
    assigns the constant to the result; there the second operand must not
    depend on the result. *)
Theorem add_sub_mul_compute_their_value :
  forall s I op aop ty v1 v2 e1 e2,
    ir s !! I = Some (BinaryOperator op ty v1 v2) ->
    arith_of op = Some aop ->
    isTracked (Inst I ty) = true ->
    lookup v1 = Some e1 -> lookup v2 = Some e2 ->
    stable (name_for_value I) e2 ->
    exists l,
      m_bb (snd (SymExecVisitor.visit opts m_mem m_dl func interproc I s))
      = m_bb s ++ l /\
      (forall rho, exists rho', run_list rho l rho') /\
      (forall rho rho',
          run_list rho l rho' ->
          Some (rho' (name_for_value I))
          = arith_value aop (eval rho e1) (eval rho e2) /\
          forall y, y <> name_for_value I -> rho' y = rho y).
Proof.
  intros s I op aop ty v1 v2 e1 e2 HI Hop Ht H1 H2 Hst.
  unfold SymExecVisitor.visit. rewrite bind_unfold.
  unfold get_inst. cbn [fst snd]. rewrite HI.
  unfold SymExecVisitor.visitBinaryOperator. rewrite Ht. cbn [negb].
  set (lhs := name_for_value I) in *.
  (* one statement computing the value *)
  assert (Hone : forall st,
             st = arith aop lhs e1 e2 ->
             (forall rho, exists rho', run_list rho [st] rho') /\
             (forall rho rho',
                 run_list rho [st] rho' ->
                 Some (rho' lhs) = arith_value aop (eval rho e1) (eval rho e2) /\
                 forall y, y <> lhs -> rho' y = rho y)).
  { intros st ->. split.
    - intros rho.
      assert (Hv : exists n, arith_value aop (eval rho e1) (eval rho e2) = Some n)
        by (destruct op; inversion Hop; subst; eexists; reflexivity).
      destruct Hv as [n Hv]. eexists.
      econstructor; [apply run_arith, Hv|constructor].
    - intros rho rho' Hrun.
      inversion Hrun as [|? rho1 ? ? ? Hs Hl]; subst. inversion Hl; subst.
      apply run_arith_inv in Hs. destruct Hs as (n & Hn & ->). split.
      + unfold update. rewrite decide_True by reflexivity. symmetry. exact Hn.
      + intros y Hy. unfold update. rewrite decide_False by exact Hy. reflexivity. }
  destruct op; inversion Hop; subst aop; unfold SymExecVisitor.doArithmetic;
    rewrite H1, H2.
  - exists [arith OP_ADD lhs e1 e2]. split; [reflexivity|]. apply Hone. reflexivity.
  - unfold SymExecVisitor.arith_const_left.
    destruct (is_constant e1) eqn:Hc.
    + eexists. split; [rewrite bind_unfold; unfold add; cbn [fst snd m_bb];
                       rewrite <- app_assoc; reflexivity|].
      assert (He1 : forall rho, eval rho e1 = constant e1).
      { intros rho. unfold is_constant in Hc. unfold eval.
        destruct (terms e1); [simpl; lia|discriminate]. }
      split.
      * intros rho. eexists.
        econstructor; [apply run_exec; constructor|].
        econstructor; [apply run_arith; reflexivity|constructor].
      * intros rho rho' Hrun.
        inversion Hrun as [|? rho1 ? ? ? Hs1 Hl1]; subst.
        apply run_assign in Hs1. subst rho1.
        inversion Hl1 as [|? rho2 ? ? ? Hs2 Hl2]; subst. inversion Hl2; subst.
        apply run_arith_inv in Hs2. destruct Hs2 as (n & Hn & ->).
        simpl in Hn. inversion Hn; subst n. split.
        -- unfold update at 1. rewrite decide_True by reflexivity.
           rewrite eval_var, eval_cst. unfold update at 1.
           rewrite decide_True by reflexivity.
           rewrite (Hst rho), He1; [reflexivity|].
           apply agree_off_update; [apply agree_off_refl|auto].
        -- intros y Hy. unfold update. rewrite !decide_False by exact Hy.
           reflexivity.
    + exists [arith OP_SUB lhs e1 e2]. split; [reflexivity|]. apply Hone. reflexivity.
  - exists [arith OP_MUL lhs e1 e2]. split; [reflexivity|]. apply Hone. reflexivity.
Qed.


(** ** The address a GEP computes *)





End arithmetic.

(** [%r = sub i32 10, %x] *)
Lemma add_sub_mul_compute_their_value_witness :
  exists l,
    m_bb (snd (SymExecVisitor.visit (SE := spec_SymEval REGISTERS)
                 Examples.opts (Examples.mem REGISTERS ([], [], []))
                 Examples.dl (Examples.empty_func "f" []) false "r"
                 (Examples.start Examples.sub_const_body)))
    = m_bb (Examples.start Examples.sub_const_body) ++ l /\
    (forall rho, exists rho', run_list rho l rho') /\
    (forall rho rho',
        run_list rho l rho' ->
        Some (rho' (name_for_value "r"))
        = arith_value OP_SUB (eval rho (exp_cst 10))
            (eval rho (exp_var (name_for_value "x"))) /\
        forall y, y <> name_for_value "r" -> rho' y = rho y).
Proof.
  apply (add_sub_mul_compute_their_value (SE := spec_SymEval REGISTERS)
           Examples.opts (Examples.mem REGISTERS ([], [], [])) Examples.dl
           (Examples.empty_func "f" []) false
           (Examples.start Examples.sub_const_body) "r" Sub OP_SUB
           Examples.i32 (ConstantInt 32 10) (Argument "x" Examples.i32)).
  - reflexivity.
  - reflexivity.
  - reflexivity.
  - reflexivity.
  - reflexivity.
  - intros rho rho' H. rewrite !eval_var. apply H; [discriminate|].
    intros k. discriminate.
Defined.


(** * Call sites and declarations *)

Section call_and_declaration.
Import CfgBuilder.
Context {SE : SymEval} (opts : options) (m_mem : MemAnalysis)
        (m_dl : DataLayout) (globals : list GlobalVariable).

Lemma normalizeParam_type (v : value) (s : state) :
  passed_type opts v <> None -> typed_as_passed v ->
  Some (snd (fst (SymExecVisitor.normalizeParam v s))) = passed_type opts v.
Proof.
  unfold passed_type. intros Hp Ht.
  destruct (negb (isTracked v)); [contradiction|].
  destruct (LlvmCrabNoPtrArith opts && negb (isIntegerTy (getType v)));
    [contradiction|].
  destruct v as [bits n|ty|x ty|x ty]; simpl in Ht |- *.
  - destruct Ht as [e He]. unfold SymExecVisitor.normalizeParam.
    rewrite bind_unfold. cbn [vfac_get fst snd]. rewrite He. reflexivity.
  - unfold SymExecVisitor.normalizeParam. rewrite Ht. reflexivity.
  - reflexivity.
  - reflexivity.
Qed.

Lemma scalar_actuals_types (args : list value) (s : state) :
  Forall typed_as_passed args ->
  map snd (fst (SymExecVisitor.scalar_actuals opts args s))
  = omap (passed_type opts) args.
Proof.
  unfold SymExecVisitor.scalar_actuals.
  induction args as [|v args IH] using rev_ind; intros Hok; [reflexivity|].
  apply Forall_app in Hok. destruct Hok as [Hok Hv].
  apply Forall_cons in Hv. destruct Hv as [Hv _].
  specialize (IH Hok). rewrite omap_app.
  match goal with |- context [foldl ?f ?a (args ++ [v])] =>
    rewrite (foldl_app f args [v] a) end.
  cbn [foldl omap]. rewrite bind_unfold.
  match goal with |- context [foldl ?f ?a args s] =>
    destruct (foldl f a args s) as [acts s1] end.
  cbn [fst snd] in IH |- *.
  pose proof (normalizeParam_type v s1) as Hn.
  unfold passed_type in Hn |- *. cbn [list_omap].
  destruct (negb (isTracked v)).
  - cbn. rewrite app_nil_r. exact IH.
  - destruct (LlvmCrabNoPtrArith opts && negb (isIntegerTy (getType v))).
    + cbn. rewrite app_nil_r. exact IH.
    + rewrite bind_unfold.
      destruct (SymExecVisitor.normalizeParam v s1) as [[x t] s2].
      cbn [fst snd pure] in Hn |- *. rewrite map_app, IH. cbn [map].
      specialize (Hn ltac:(discriminate) Hv). inversion Hn. reflexivity.
Qed.

Lemma scalar_formals_types (g : function) :
  map snd (scalar_formals opts g) = omap (passed_type opts) (f_args g).
Proof.
  unfold scalar_formals. induction (f_args g) as [|a l IH]; [reflexivity|].
  cbn [omap list_omap]. unfold passed_type at 1.
  destruct (negb (isTracked a)); [exact IH|].
  destruct (LlvmCrabNoPtrArith opts && negb (isIntegerTy (getType a)));
    [exact IH|].
  cbn [map snd]. f_equal. exact IH.
Qed.

Lemma passed_type_same_types (args formals : list value) :
  Forall2 (fun a p => getType a = getType p /\ isTracked a = isTracked p)
    args formals ->
  omap (passed_type opts) args = omap (passed_type opts) formals.
Proof.
  induction 1 as [|a p args formals [Hty Htr] _ IH]; [reflexivity|].
  assert (E : passed_type opts a = passed_type opts p)
    by (unfold passed_type; rewrite Hty, Htr; reflexivity).
  cbn [omap list_omap]. rewrite E, IH. reflexivity.
Qed.

Lemma map_snd_arrays {A} (f : A -> varname) (l : list A) :
  map snd (map (fun a => (f a, ARR_TYPE)) l) = replicate (length l) ARR_TYPE.
Proof. induction l as [|a l IH]; [reflexivity|]. cbn. rewrite IH. reflexivity. Qed.

(** The types of the parameters a function is declared with. *)
Lemma declaration_types (g : function) (F : body) :
  exists formals,
    func_decl (m_cfg (build_cfg opts m_mem m_dl globals g true F))
    = Some (if negb (LlvmCrabNoPtrArith opts) || isIntegerTy (f_retTy g)
            then getVariableType (f_retTy g) else UNK_TYPE,
            name_for_function (f_name g), formals) /\
    map snd formals
    = omap (passed_type opts) (f_args g)
      ++ if bool_decide (getTrackLevel m_mem = ARR)
            && negb (String.eqb (f_name g) "main")
         then
           let refs := fst (fst (getRefModNewArraysFn m_mem (f_name g))) in
           let news := snd (getRefModNewArraysFn m_mem (f_name g)) in
           replicate (length refs) ARR_TYPE ++ replicate (length refs) ARR_TYPE
           ++ replicate (length news) ARR_TYPE
         else [].
Proof.
  unfold build_cfg.
  destruct (translate_blocks opts m_mem m_dl g true F) as [st rets].
  cbv zeta.
  set (st1 := if bool_decide (getTrackLevel m_mem = ARR) then _ else _).
  unfold add_function_declaration.
  destruct (bool_decide (getTrackLevel m_mem = ARR)
            && negb (String.eqb (f_name g) "main")).
  - destruct (getRefModNewArraysFn m_mem (f_name g)) as [[rs ms] ns].
    cbn [fst snd].
    pose proof (ref_formals_snd (builder_assert st1 (negb (f_isVarArg g))) rs [])
      as Hsnd.
    unfold ref_formals.
    destruct (foldl _ _ rs) as [st' ins]. cbn [fst snd] in *.
    eexists. split; [reflexivity|].
    rewrite !map_app, scalar_formals_types, Hsnd, !map_snd_arrays.
    cbn [app]. rewrite map_snd_arrays, length_seq. reflexivity.
  - eexists. split; [reflexivity|].
    rewrite scalar_formals_types, app_nil_r. reflexivity.
Qed.

(** X26.  In inter-procedural mode, take a call to a function [g] that is
    not variadic and not handled specially, whose arguments have the types
    and the tracking of the formal parameters of [g], whose constant
    arguments keep their type (an integer constant has an expression,
    another constant has an unknown type), and for which, at track level
    ARR, [g] is not [main] and the memory analysis reports as many ref and
    new arrays at the call as for [g].  Then the block ends with a
    callsite of [g] whose actual parameters have, in order, the types of
    the parameters [g] is declared with in its own graph, and a result,
    when the callsite has one, of the declared return type. *)
Theorem callsite_matches_the_declaration_of_the_callee :
  forall (func g : function) (Fg : body) I c args s,
    ir s !! I = Some (CallInst (f_retTy g) (Some c) args) ->
    handled_specially func c = false ->
    fn_isVarArg c = false ->
    fn_name c = f_name g ->
    Forall2 (fun a p => getType a = getType p /\ isTracked a = isTracked p)
      args (f_args g) ->
    Forall typed_as_passed args ->
    (getTrackLevel m_mem = ARR ->
     f_name g <> "main" /\
     length (fst (fst (getRefModNewArrays m_mem I)))
     = length (fst (fst (getRefModNewArraysFn m_mem (f_name g)))) /\
     length (snd (getRefModNewArrays m_mem I))
     = length (snd (getRefModNewArraysFn m_mem (f_name g)))) ->
    exists r actuals retTy formals,
      last (m_bb (snd (SymExecVisitor.visit opts m_mem m_dl func true I s)))
      = Some (callsite r (name_for_function (f_name g)) actuals) /\
      func_decl (m_cfg (build_cfg opts m_mem m_dl globals g true Fg))
      = Some (retTy, name_for_function (f_name g), formals) /\
      map snd actuals = map snd formals /\
      (forall x t, r = Some (x, t) -> t = retTy).
Proof.
  intros func g Fg I c args s HI Hc Hva Hname Hargs Hok Harr.
  destruct (declaration_types g Fg) as (formals & Hdecl & Hformals).
  unfold SymExecVisitor.visit. rewrite bind_unfold.
  unfold get_inst. cbn [fst snd]. rewrite HI.
  rewrite (visitCallInst_ordinary _ _ _ _ _ _ _ _ Hc), Hva, Hname.
  cbn [negb orb]. rewrite bind_unfold.
  pose proof (scalar_actuals_types args s Hok) as Hsc.
  rewrite (passed_type_same_types _ _ Hargs) in Hsc.
  destruct (SymExecVisitor.scalar_actuals opts args s) as [scalars s1].
  cbn [fst snd] in Hsc |- *.
  assert (Hact : exists actuals s2,
             (if bool_decide (getTrackLevel m_mem = ARR) then
                let '(refs, mods, news) := getRefModNewArrays m_mem I in
                do ins <- SymExecVisitor.ref_actuals refs;
                pure (scalars ++ ins
                      ++ map (fun a => (symVarArr a, ARR_TYPE)) refs
                      ++ map (fun a => (symVarArr a, ARR_TYPE)) news)
              else pure scalars) s1 = (actuals, s2) /\
             map snd actuals = map snd formals).
  { rewrite Hformals. case_bool_decide as HA.
    - destruct (Harr HA) as (Hmain & Hrefs & Hnews).
      apply String.eqb_neq in Hmain. rewrite Hmain. cbn [negb andb].
      cbv zeta. rewrite <- Hrefs, <- Hnews.
      destruct (getRefModNewArrays m_mem I) as [[refs mods] news].
      cbn [fst snd].
      destruct (ref_actuals_run refs s1) as (snaps & Hrun & _).
      rewrite bind_unfold, Hrun. cbn [pure fst snd].
      eexists _, _. split; [reflexivity|].
      rewrite !map_app, Hsc, !map_snd_arrays, length_seq. reflexivity.
    - cbn [andb]. eexists _, _. split; [reflexivity|].
      rewrite app_nil_r. exact Hsc. }
  destruct Hact as (actuals & s2 & Hrun & Htypes).
  rewrite bind_unfold, Hrun.
  destruct (negb (bool_decide (getVariableType (f_retTy g) = UNK_TYPE))
            && isTracked (Inst I (f_retTy g))
            && (negb (LlvmCrabNoPtrArith opts) || isIntegerTy (f_retTy g)))
    eqn:Hret.
  - eexists _, actuals, _, formals. unfold add. cbn [snd m_bb].
    rewrite last_snoc. split; [reflexivity|].
    split; [exact Hdecl|]. split; [exact Htypes|].
    intros x t E. inversion E; subst.
    apply andb_true_iff in Hret. destruct Hret as [_ Hret]. rewrite Hret.
    reflexivity.
  - eexists None, actuals, _, formals. unfold add. cbn [snd m_bb].
    rewrite last_snoc. split; [reflexivity|].
    split; [exact Hdecl|]. split; [exact Htypes|].
    intros x t E. discriminate E.
Qed.

End call_and_declaration.

(** [%k = call i32 @g (i32 %a, i32 7)] against [define i32 @g (i32 %x,
    i32 %y)]. *)
Lemma callsite_matches_the_declaration_of_the_callee_witness :
  exists r actuals retTy formals,
    last (m_bb (snd (SymExecVisitor.visit (SE := spec_SymEval ARR)
                       Examples.opts (Examples.mem ARR ([], [], []))
                       Examples.dl (Examples.empty_func "f" []) true "k"
                       (Examples.start Examples.g_args_call_body))))
    = Some (callsite r (name_for_function "g") actuals) /\
    func_decl (m_cfg (build_cfg (SE := spec_SymEval ARR) Examples.opts
                        (Examples.mem ARR ([], [], [])) Examples.dl []
                        Examples.g_func true ∅))
    = Some (retTy, name_for_function "g", formals) /\
    map snd actuals = map snd formals /\
    (forall x t, r = Some (x, t) -> t = retTy).
Proof.
  apply (callsite_matches_the_declaration_of_the_callee
           (SE := spec_SymEval ARR) Examples.opts
           (Examples.mem ARR ([], [], [])) Examples.dl []
           (Examples.empty_func "f" []) Examples.g_func ∅ "k"
           (Callee "g" false false false)
           [Argument "a" Examples.i32; ConstantInt 32 7]
           (Examples.start Examples.g_args_call_body)).
  - reflexivity.
  - reflexivity.
  - reflexivity.
  - reflexivity.
  - constructor; [split; reflexivity|].
    constructor; [split; reflexivity|]. constructor.
  - apply Forall_cons. split; [exact Logic.I|].
    apply Forall_cons. split; [eexists; reflexivity|constructor].
  - intros _. split; [discriminate|]. split; reflexivity.
Defined.

(** * Initializations in the entry block *)


Lemma prepended_refl g : prepended [] g g.
Proof.
  split; [reflexivity|]. intros l.
  destruct (get_node (blocks g) l); simpl; [|reflexivity].
  destruct (decide _); reflexivity.
Qed.

Lemma prepended_trans p1 p2 g1 g2 g3 :
  prepended p1 g1 g2 -> prepended p2 g2 g3 -> prepended (p2 ++ p1) g1 g3.
Proof.
  intros [E1 H1] [E2 H2]. split; [congruence|]. intros l.
  rewrite H2, H1, E1. destruct (get_node (blocks g1) l); simpl; [|reflexivity].
  destruct (decide _); [rewrite app_assoc|]; reflexivity.
Qed.

Lemma prepended_same g g' :
  entry g' = entry g -> blocks g' = blocks g -> prepended [] g g'.
Proof.
  intros E B. split; [exact E|]. intros l. rewrite B.
  destruct (get_node (blocks g) l); simpl; [|reflexivity].
  destruct (decide _); reflexivity.
Qed.

Lemma prepended_update_entry st f pre :
  (forall b, stmts (f b) = pre ++ stmts b) ->
  prepended pre (m_cfg st) (m_cfg (update_entry st f)).
Proof.
  intros Hf. split; [reflexivity|]. intros l. simpl.
  rewrite get_node_update_node.
  destruct (decide (entry (m_cfg st) = l)) as [<-|Hne].
  - destruct (get_node _ _); simpl; [|reflexivity].
    rewrite decide_True by reflexivity. rewrite Hf. reflexivity.
  - destruct (get_node _ _); simpl; [|reflexivity].
    rewrite decide_False by congruence. reflexivity.
Qed.

Lemma stmts_insert_front b s :
  stmts (insert_stmt (set_insert_point_front b) s) = [s] ++ stmts b.
Proof. reflexivity. Qed.

Lemma stmts_doInitializer init b a :
  stmts (doInitializer init (set_insert_point_front b) a)
  = option_list (initializer_statement init a) ++ stmts b.
Proof.
  induction init as [| |ty vals|al IH|]; simpl; try reflexivity.
  - destruct (isIntegerTy ty); reflexivity.
  - exact IH.
Qed.

Section initializations.
Context {SE : SymEval} (opts : options) (m_mem : MemAnalysis)
        (m_dl : DataLayout) (globals : list GlobalVariable)
        (m_func : function) (interproc : bool).

Lemma prepended_init_globals gs st :
  prepended (rev (global_initializations m_mem m_func gs)) (m_cfg st)
    (m_cfg (init_globals m_mem gs m_func st)).
Proof.
  unfold init_globals, global_initializations.
  set (stmt_of := fun gv : GlobalVariable => _ : option statement).
  revert st. induction gs as [|gv gs IH]; intros st; [apply prepended_refl|].
  cbn [foldl omap list_omap].
  match goal with |- context [foldl ?f ?a gs] =>
    set (st1 := a); pose proof (IH st1) as H1 end.
  assert (H0 : prepended (option_list (stmt_of gv)) (m_cfg st) (m_cfg st1)).
  { subst st1 stmt_of. cbv beta.
    destruct (gv_initializer gv) as [init|]; [|apply prepended_refl].
    cbv zeta. destruct (_ <? 0); [apply prepended_refl|].
    apply prepended_update_entry. intros b. apply stmts_doInitializer. }
  pose proof (prepended_trans _ _ _ _ _ H0 H1) as H.
  destruct (stmt_of gv) as [s|]; cbn [option_list rev] in H |- *; [exact H|].
  rewrite app_nil_r in H. exact H.
Qed.

Lemma prepended_init_new_arrays st :
  prepended
    (rev (map (fun n => assume_array (symVarArr n) 0)
            (snd (getRefModNewArraysFn m_mem (f_name m_func)))))
    (m_cfg st) (m_cfg (init_new_arrays m_mem m_func st)).
Proof.
  unfold init_new_arrays.
  destruct (getRefModNewArraysFn m_mem (f_name m_func)) as [[refs mods] news].
  cbn [snd]. revert st.
  induction news as [|n news IH]; intros st; [apply prepended_refl|].
  cbn [foldl map rev].
  eapply prepended_trans; [|apply IH].
  apply prepended_update_entry. intros b. reflexivity.
Qed.

Lemma prepended_ref_formals refs st ps :
  prepended
    (rev (imap (fun i a => assign (symVarArr a)
                             (exp_var (fresh_name (b_vfac st + N.of_nat i))))
            refs))
    (m_cfg st)
    (m_cfg (fst (foldl (fun acc a =>
                let '(st, params) := acc in
                let a_in := fresh_name (b_vfac st) in
                let st :=
                  Builder (b_ir st) (b_vfac st + 1) (b_aborted st) (m_cfg st)
                    (m_bb_map st) (m_extra_blks st) in
                (update_entry st (fun entry =>
                   insert_stmt (set_insert_point_front entry)
                     (assign (symVarArr a) (exp_var a_in))),
                 params ++ [(a_in, ARR_TYPE)]))
             (st, ps) refs))).
Proof.
  revert st ps. induction refs as [|a refs IH]; intros st ps;
    [apply prepended_refl|].
  cbn [foldl imap rev].
  eapply prepended_trans.
  2:{ match goal with |- context [foldl _ (?st1, ?ps1) refs] =>
        pose proof (IH st1 ps1) as H end.
      cbn [b_vfac update_entry with_cfg] in H.
      erewrite imap_ext; [exact H|].
      intros i x _. cbn. do 3 f_equal. lia. }
  rewrite N.add_0_r.
  apply (prepended_update_entry
           (Builder (b_ir st) (b_vfac st + 1) (b_aborted st) (m_cfg st)
              (m_bb_map st) (m_extra_blks st))).
  intros b. reflexivity.
Qed.

(** X27.  After the blocks are translated and the returns unified,
    [build_cfg] changes the statements of the entry block only, and only
    by putting statements in front of them.  At track level ARR these are,
    from the front: in inter-procedural mode and outside [main], the
    assignment of its fresh input version to every ref array of the
    function, the last one first; the [assume_array] of every new array,
    the last one first; and in [main] the initializations of the globals
    that have an initializer with a statement and an array, the last
    global first.  Below ARR nothing is added. *)
Theorem initializations_come_first_in_the_entry_block :
  forall F,
    let st := fst (translate_blocks opts m_mem m_dl m_func interproc F) in
    let rets := snd (translate_blocks opts m_mem m_dl m_func interproc F) in
    let g := m_cfg (unify_returns st rets) in
    let g' := m_cfg (build_cfg opts m_mem m_dl globals m_func interproc F) in
    let is_main := String.eqb (f_name m_func) "main" in
    let refs := fst (fst (getRefModNewArraysFn m_mem (f_name m_func))) in
    let news := snd (getRefModNewArraysFn m_mem (f_name m_func)) in
    exists n,
      prepended
        (if bool_decide (getTrackLevel m_mem = ARR) then
           (if interproc && negb is_main
            then rev (imap (fun i a =>
                              assign (symVarArr a)
                                (exp_var (fresh_name (n + N.of_nat i)))) refs)
            else [])
           ++ rev (map (fun a => assume_array (symVarArr a) 0) news)
           ++ (if is_main
               then rev (global_initializations m_mem m_func globals)
               else [])
         else [])
        g g'.
Proof.
  intros F st rets g g' is_main refs news.
  subst g'. unfold build_cfg.
  fold st rets.
  destruct (translate_blocks opts m_mem m_dl m_func interproc F) as [st0 rets0].
  cbn [fst snd] in st, rets. subst st rets.
  set (st1 := unify_returns st0 rets0) in *. subst g.
  set (st2 := if bool_decide (getTrackLevel m_mem = ARR) then _ else st1).
  assert (H2 : prepended
                 (if bool_decide (getTrackLevel m_mem = ARR) then
                    rev (map (fun a => assume_array (symVarArr a) 0) news)
                    ++ (if is_main
                        then rev (global_initializations m_mem m_func globals)
                        else [])
                  else []) (m_cfg st1) (m_cfg st2)).
  { subst st2. destruct (bool_decide _); [|apply prepended_refl].
    eapply prepended_trans; [|apply prepended_init_new_arrays].
    subst is_main. destruct (String.eqb _ _);
      [apply prepended_init_globals|apply prepended_refl]. }
  destruct interproc.
  - unfold add_function_declaration. cbn [andb].
    exists (b_vfac st2).
    destruct (bool_decide (getTrackLevel m_mem = ARR)) eqn:HA; cbn [andb].
    + subst is_main refs. destruct (negb (String.eqb (f_name m_func) "main")).
      * pose proof (prepended_ref_formals
                      (fst (fst (getRefModNewArraysFn m_mem (f_name m_func))))
                      (builder_assert st2 (negb (f_isVarArg m_func))) [])
          as H3.
        unfold ref_formals.
        destruct (getRefModNewArraysFn m_mem (f_name m_func)) as [[rs ms] ns].
        cbn [fst snd] in *.
        destruct (foldl _ _ rs) as [st' ins]. cbn [fst snd] in *.
        apply (prepended_trans _ _ _ _ _ H2) in H3. exact H3.
      * exact H2.
    + exact H2.
  - exists 0%N. cbn [andb].
    destruct (bool_decide _); exact H2.
Qed.

End initializations.

(** In [main] with two initialized globals and one new array, the entry
    block starts with the new array and then the globals, the last one
    first. *)
Example main_initializes_its_globals_last_first :
  stmts <$> get_node
    (blocks (m_cfg (build_cfg (SE := spec_SymEval ARR) Examples.opts
                      Examples.globals_mem Examples.dl Examples.two_globals
                      Examples.main_func false ∅)))
    (llvm_block "entry")
  = Some [assume_array (symVarArr 9) 0;
          array_init (symVarArr 2) [1; 2; 3];
          assume_array (symVarArr 1) 0].
Proof. vm_compute. reflexivity. Qed.

(** * Fresh names *)


#[local] Instance writes_handed_out_preorder lo K :
  PreOrder (writes_handed_out lo K).
Proof.
  split.
  - intros s _. split; [lia|]. exists []. rewrite app_nil_r.
    split; [reflexivity|constructor].
  - intros s1 s2 s3 H12 H23 [Hlo HK].
    destruct (H12 (conj Hlo HK)) as (Hv12 & l12 & E12 & F12).
    destruct H23 as (Hv23 & l23 & E23 & F23).
    { split; [lia|]. eapply Forall_impl; [exact HK|]. cbn. intros k ?. lia. }
    split; [lia|]. exists (l12 ++ l23). split.
    + rewrite E23, E12, app_assoc. reflexivity.
    + apply Forall_app. split; [|exact F23].
      eapply Forall_impl; [exact F12|]. cbn. intros st H k Hk.
      specialize (H k Hk). lia.
Qed.

Lemma fresh_add lo K st :
  (forall k, written_var st = Some (fresh_name k) -> k ∈ K) ->
  keeps (writes_handed_out lo K) (add st).
Proof.
  intros H s [Hlo HK]. split; [reflexivity|]. exists [st].
  split; [reflexivity|]. constructor; [|constructor].
  intros k Hk. apply H in Hk. rewrite Forall_forall in HK.
  apply HK in Hk. exact Hk.
Qed.

Lemma fresh_silent lo K {A} (m : M A) :
  (forall s, m_bb (snd (m s)) = m_bb s /\ m_vfac (snd (m s)) = m_vfac s) ->
  keeps (writes_handed_out lo K) m.
Proof.
  intros H s _. destruct (H s) as [Hb Hv]. split; [lia|]. exists [].
  rewrite app_nil_r. split; [exact Hb|constructor].
Qed.

Lemma fresh_assert lo K b : keeps (writes_handed_out lo K) (assert b).
Proof. apply fresh_silent. intros s. split; reflexivity. Qed.

Lemma fresh_get_inst lo K I : keeps (writes_handed_out lo K) (get_inst I).
Proof. apply fresh_silent. intros s. split; reflexivity. Qed.

Lemma fresh_get_ir lo K : keeps (writes_handed_out lo K) get_ir.
Proof. apply fresh_silent. intros s. split; reflexivity. Qed.

Lemma fresh_gen_assertion {SE : SymEval} lo K neg I :
  keeps (writes_handed_out lo K) (SymExecConditionVisitor.gen_assertion neg I).
Proof.
  apply fresh_silent. intros s.
  destruct (gen_assertion_snd neg I s) as [ab ->]. split; reflexivity.
Qed.

Lemma fresh_bind_vfac_get lo K {B} (k : varname -> M B) :
  (forall n, keeps (writes_handed_out lo (n :: K)) (k (fresh_name n))) ->
  keeps (writes_handed_out lo K) (bind vfac_get k).
Proof.
  intros Hk s [Hlo HK]. rewrite bind_unfold. cbn [vfac_get fst snd].
  destruct (Hk (m_vfac s) (State (ir s) (m_vfac s + 1) (m_bb s) (aborted s)))
    as (Hv & l & E & F).
  { split; cbn; [lia|]. constructor; [lia|].
    eapply Forall_impl; [exact HK|]. cbn. intros k0 ?. lia. }
  cbn in Hv, E. split; [lia|]. exists l. split; [exact E|exact F].
Qed.

(** A computation that writes no fresh name and leaves the counter. *)
Lemma fresh_of_emits lo K {A} (m : M A) :
  keeps (emits (fun st => forall k, written_var st <> Some (fresh_name k))) m ->
  keeps same_vfac m ->
  keeps (writes_handed_out lo K) m.
Proof.
  intros He Hv s _. destruct (He s) as (l & E & F). specialize (Hv s).
  unfold same_vfac in Hv. split; [lia|]. exists l. split; [exact E|].
  eapply Forall_impl; [exact F|]. cbn. intros st H k Hk.
  destruct (H k Hk).
Qed.

Lemma symVar_not_fresh v k : symVar v <> fresh_name k.
Proof. destruct v; discriminate. Qed.

#[local] Hint Resolve fresh_assert fresh_get_inst fresh_get_ir : keeps.

Ltac fresh_side :=
  cbn;
  first
    [ discriminate
    | intros ? ?; discriminate
    | intros ? [= <-];
      repeat first [apply list_elem_of_here|apply list_elem_of_further]
    | intros ? [= E]; destruct (symVar_not_fresh _ _ E) ].

Ltac fresh_tac :=
  repeat first
    [ apply fresh_add; solve [fresh_side]
    | apply keeps_pure; typeclasses eauto
    | apply fresh_bind_vfac_get; intros ?
    | keeps_step ].

Ltac unfold_instruction_visitors :=
  unfold SymExecVisitor.visitBinaryOperator, SymExecVisitor.doArithmetic,
    SymExecVisitor.doBitwise, SymExecVisitor.unsigned_arith,
    SymExecVisitor.arith_const_left, SymExecVisitor.shift_factor,
    SymExecVisitor.visitExtInst, SymExecVisitor.visitCastInst,
    SymExecVisitor.doCast, SymExecVisitor.visitSelectInst,
    SymExecVisitor.visitCallInst, SymExecVisitor.havoc_return_value,
    SymExecVisitor.visit_condition, SymExecVisitor.scalar_actuals,
    SymExecVisitor.ref_actuals, SymExecVisitor.normalizeParam,
    SymExecVisitor.visitLoadInst, SymExecVisitor.visitStoreInst,
    SymExecVisitor.visitAllocaInst, SymExecVisitor.visitGetElementPtrInst,
    SymExecVisitor.gep_index, SymExecVisitor.visitInstruction,
    SymExecVisitor.havoc_if_included.

Section fresh_visitors.
Context {SE : SymEval} (opts : options) (m_mem : MemAnalysis)
        (m_dl : DataLayout) (func : function).

Lemma cond_visit_fresh lo K blocks neg I :
  keeps (writes_handed_out lo K)
    (SymExecConditionVisitor.visit opts blocks neg I).
Proof.
  apply fresh_of_emits; [|apply cond_visit_vfac].
  apply cond_visit_emits; intros; discriminate.
Qed.

Lemma inst_visit_fresh lo K interproc I :
  keeps (writes_handed_out lo K)
    (SymExecVisitor.visit opts m_mem m_dl func interproc I).
Proof.
  unfold SymExecVisitor.visit.
  apply keeps_bind; [typeclasses eauto|auto with keeps|intros [i|]];
    [|apply keeps_pure; typeclasses eauto].
  destruct i; unfold_instruction_visitors; fresh_tac.
  all: first [apply cond_visit_fresh|apply fresh_gen_assertion].
Qed.

(** X28.  The translation of an instruction never moves the counter of
    the variable factory back, and every fresh name written by a
    statement it adds was handed out by the factory during the
    translation of this very instruction: it lies between the counter
    before and the counter after.  So the temporaries of an instruction
    are none of the fresh names in use before it. *)
Theorem temporaries_are_handed_out_by_their_instruction :
  forall interproc I s,
    let s' := snd (SymExecVisitor.visit opts m_mem m_dl func interproc I s) in
    (m_vfac s <= m_vfac s')%N /\
    exists l,
      m_bb s' = m_bb s ++ l /\
      Forall (fun st => forall k,
                  written_var st = Some (fresh_name k) ->
                  (m_vfac s <= k < m_vfac s')%N) l.
Proof.
  intros interproc I s s'.
  apply (inst_visit_fresh (m_vfac s) [] interproc I s).
  split; [lia|constructor].
Qed.

End fresh_visitors.
